(** * MegaMerge: the hexagonal merge-three engine

    A shallow embedding of the game core (core/types.ts, core/constants.ts,
    core/hexUtils.ts, core/mergeLogic.ts, core/game.ts) and the properties
    its specification states about it.

    Numbers are modelled as [Z] (coordinates, tile values and scores are
    integers throughout the engine), tile ids as strings, arrays as lists
    and [Set<string>] keyed by [coordKey] as a [gset] of integer pairs. *)

From Stdlib Require Import ZArith QArith Qround Lia.
From stdpp Require Import base decidable option list gmap strings pretty.

Open Scope Z_scope.

#[local] Set Warnings "-clear-no-such-hyp".

(** ** core/types.ts *)

Record HexCoord := mkHex { q : Z; r : Z }.

Record Tile := mkTile {
  id : string;
  value : Z;
  position : HexCoord;
  isNew : option bool;      (* optional field: [None] is [undefined] *)
  isMerged : option bool
}.

Inductive Direction :=
  | NORTHEAST | EAST | SOUTHEAST | SOUTHWEST | WEST | NORTHWEST.

(** The numeric value of an enum member. *)
Definition dirIndex (d : Direction) : nat :=
  match d with
  | NORTHEAST => 0 | EAST => 1 | SOUTHEAST => 2
  | SOUTHWEST => 3 | WEST => 4 | NORTHWEST => 5
  end%nat.

Record Snapshot := mkSnapshot { snap_grid : list Tile; snap_score : Z }.

Record GameState := mkGameState {
  grid : list Tile;
  score : Z;
  bestScore : Z;
  isGameOver : bool;
  isWon : bool;
  canUndo : bool;
  history : list Snapshot;
  undosRemaining : Z
}.

Inductive GameMode := CLASSIC | TIME_TRIAL | FAST_PACE.

Record GameModeConfig := mkModeConfig {
  mode : GameMode;
  timerDuration : option Z;       (* seconds, TIME_TRIAL only *)
  autoSpawnInterval : option Z;   (* milliseconds, FAST_PACE only *)
  undoLimit : Z;
  winningTile : Z
}.

Global Instance HexCoord_eq_dec : EqDecision HexCoord.
Proof. solve_decision. Defined.

Global Instance Tile_eq_dec : EqDecision Tile.
Proof. solve_decision. Defined.

Global Instance Direction_eq_dec : EqDecision Direction.
Proof. solve_decision. Defined.

(** ** core/constants.ts *)

Definition GRID_SIZE : Z := 5.
Definition TOTAL_TILES : nat := 37.

Definition TILE_VALUES : list Z :=
  [2; 6; 18; 54; 162; 486; 1458; 4374; 13122; 39366; 118098; 354294; 1062882].

(** [Array.prototype.indexOf]: the first index holding [v], if any. *)
Fixpoint indexOf (v : Z) (l : list Z) : option nat :=
  match l with
  | [] => None
  | x :: l' => if x =? v then Some O else S <$> indexOf v l'
  end.

Definition getNextValue (v : Z) : option Z :=
  match indexOf v TILE_VALUES with
  | None => None
  | Some index =>
      if (index =? length TILE_VALUES - 1)%nat then None
      else TILE_VALUES !! (index + 1)%nat
  end.

(** The [GAME_MODES] table, keyed by mode. *)
Definition GAME_MODES (m : GameMode) : GameModeConfig :=
  match m with
  | CLASSIC => mkModeConfig CLASSIC None None 3 1062882
  | TIME_TRIAL => mkModeConfig TIME_TRIAL (Some 60) None 0 1062882
  | FAST_PACE => mkModeConfig FAST_PACE None (Some 1000) 0 1062882
  end.

(** ** core/hexUtils.ts *)

Definition DIRECTION_VECTORS : list HexCoord :=
  [ mkHex (-1) 1;    (* NORTHEAST *)
    mkHex (-1) 0;    (* EAST *)
    mkHex 0 (-1);    (* SOUTHEAST *)
    mkHex 1 (-1);    (* SOUTHWEST *)
    mkHex 1 0;       (* WEST *)
    mkHex 0 1 ].     (* NORTHWEST *)

Global Instance HexCoord_inhabited : Inhabited HexCoord := populate (mkHex 0 0).

(** [DIRECTION_VECTORS[i]]; every index the engine uses is below six. *)
Definition dirVector (i : nat) : HexCoord := DIRECTION_VECTORS !!! i.

Definition addCoords (a b : HexCoord) : HexCoord :=
  mkHex (q a + q b) (r a + r b).

Definition getS (coord : HexCoord) : Z := - q coord - r coord.

Definition hexDistance (a b : HexCoord) : Z :=
  Z.max (Z.max (Z.abs (q a - q b)) (Z.abs (r a - r b)))
        (Z.abs (getS a - getS b)).

Definition coordsEqual (a b : HexCoord) : bool :=
  (q a =? q b) && (r a =? r b).

Definition radius : Z := GRID_SIZE / 2.

Definition getAllGridCoords : list HexCoord :=
  qv ← seqZ (- radius) (radius - (- radius) + 1);
  let r1 := Z.max (- radius) (- qv - radius) in
  let r2 := Z.min radius (- qv + radius) in
  rv ← seqZ r1 (r2 - r1 + 1);
  [mkHex qv rv].

Definition getNeighbors (coord : HexCoord) : list HexCoord :=
  map (λ dir, addCoords coord dir) DIRECTION_VECTORS.

Global Arguments getAllGridCoords : simpl never.

Definition isValidCoord (coord : HexCoord) : bool :=
  let s := getS coord in
  (Z.abs (q coord) <=? radius) && (Z.abs (r coord) <=? radius)
  && (Z.abs s <=? radius).

(** The [while (true)] loop of [getLine]; [fuel] bounds its iterations and
    [None] means the bound was reached before the loop left the grid. *)
Fixpoint getLine_loop (fuel : nat) (dir current : HexCoord)
    (result : list HexCoord) : option (list HexCoord) :=
  match fuel with
  | O => None
  | S fuel' =>
      let next := addCoords current dir in
      if negb (isValidCoord next) then Some result
      else getLine_loop fuel' dir next (result ++ [next])
  end.

Definition getLine_fuel (fuel : nat) (start : HexCoord) (direction : Direction)
    : option (list HexCoord) :=
  getLine_loop fuel (dirVector (dirIndex direction)) start [start].

(** The walk-back loop of [getAllLines]. *)
Fixpoint walkBack (fuel : nat) (oppositeDirVector start : HexCoord)
    : option HexCoord :=
  match fuel with
  | O => None
  | S fuel' =>
      let prev := addCoords start oppositeDirVector in
      if negb (isValidCoord prev) then Some start
      else walkBack fuel' oppositeDirVector prev
  end.

(** [coordKey] renders a coordinate as the string "q,r"; the rendering is
    injective on integer coordinates, so the key is kept as the pair. *)
Definition coordKey (coord : HexCoord) : Z * Z := (q coord, r coord).

(** One iteration of the [for (const coord of allCoords)] loop. *)
Definition linesStep (fuel : nat) (direction : Direction)
    (acc : option (gset (Z * Z) * list (list HexCoord))) (coord : HexCoord)
    : option (gset (Z * Z) * list (list HexCoord)) :=
  '(used, lines) ← acc;
  if decide (coordKey coord ∈ used) then Some (used, lines)
  else
    let oppositeDir := ((dirIndex direction + 3) mod 6)%nat in
    start ← walkBack fuel (dirVector oppositeDir) coord;
    line ← getLine_fuel fuel start direction;
    Some (foldl (λ u c, {[coordKey c]} ∪ u) used line, lines ++ [line]).

Definition getAllLines_fuel (fuel : nat) (direction : Direction)
    : option (list (list HexCoord)) :=
  snd <$> foldl (linesStep fuel direction) (Some (∅, [])) getAllGridCoords.

(** No straight run on the radius-2 hexagon is longer than five cells, so
    six iterations exhaust every loop above ([lines_fuel_enough] below). *)
Definition LINE_FUEL : nat := 6.

Definition getLine (start : HexCoord) (direction : Direction) : list HexCoord :=
  default [start] (getLine_fuel LINE_FUEL start direction).

Definition getAllLines (direction : Direction) : list (list HexCoord) :=
  default [] (getAllLines_fuel LINE_FUEL direction).

(** ** Sources of chance

    [Math.random()] and the id template
    [`${Date.now()}-${Math.random().toString(36).substr(2, 5)}`] are the only
    inputs of the engine besides its arguments.  A run is taken relative to
    an [Entropy]: the sequence of [Math.random()] results used for spawn
    positions and values, and the sequence of strings the id template
    evaluates to.  A [Cursor] counts how many of each were consumed. *)

Record Entropy := mkEntropy { random : nat → Q; nextId : nat → string }.

Record Cursor := mkCursor { draws : nat; stamps : nat }.

Definition Gen (A : Type) : Type := Entropy → Cursor → A * Cursor.

Definition gret {A} (a : A) : Gen A := λ _ c, (a, c).

Definition gbind {A B} (m : Gen A) (k : A → Gen B) : Gen B :=
  λ e c, let '(a, c') := m e c in k a e c'.

Notation "x ←$ m ; k" := (gbind m (λ x, k))
  (at level 20, m at level 100, k at level 200, only parsing).
Notation "' x ←$ m ; k" := (gbind m (λ x, k))
  (at level 20, x pattern, m at level 100, k at level 200, only parsing).

Definition mathRandom : Gen Q :=
  λ e c, (random e (draws c), mkCursor (S (draws c)) (stamps c)).

Definition freshId : Gen string :=
  λ e c, (nextId e (stamps c), mkCursor (draws c) (S (stamps c))).

(** ** core/mergeLogic.ts *)

Definition getTileAtCoord (grid : list Tile) (coord : HexCoord) : option Tile :=
  List.find (λ tile, coordsEqual (position tile) coord) grid.

(** [Math.round(n / 3)] for an integer [n]: the nearest integer (a third is
    never halfway between two integers). *)
Definition roundThird (n : Z) : Z := (2 * n + 3) / 6.

(** The barycentre computed by [mergeTriplet], rounded componentwise. *)
Definition centroid (p1 p2 p3 : HexCoord) : HexCoord :=
  mkHex (roundThird (q p1 + q p2 + q p3)) (roundThird (r p1 + r p2 + r p3)).

(** Is [b] among the six neighbours of [a]? *)
Definition adjacent (a b : HexCoord) : bool :=
  existsb (λ nCoord, coordsEqual nCoord b) (getNeighbors a).

(** The nested [for i / for j > i] loops of [findTripletsAt]. *)
Fixpoint firstAdjacentPair (centerTile : Tile) (matchingNeighbors : list Tile)
    : list Tile :=
  match matchingNeighbors with
  | [] => []
  | tileA :: rest =>
      match List.find (λ tileB, adjacent (position tileA) (position tileB)) rest with
      | Some tileB => [centerTile; tileA; tileB]
      | None => firstAdjacentPair centerTile rest
      end
  end.

Definition findTripletsAt (grid : list Tile) (coord : HexCoord) : list Tile :=
  match getTileAtCoord grid coord with
  | None => []
  | Some centerTile =>
      let neighbors := getNeighbors coord in
      let matchingNeighbors :=
        List.filter (λ tile, value tile =? value centerTile)
          (omap (λ pos, getTileAtCoord grid pos) neighbors) in
      if (length matchingNeighbors <? 2)%nat then []
      else firstAdjacentPair centerTile matchingNeighbors
  end.

(** One iteration of the scan loop of [findAllTriplets]. *)
Definition scanStep (grid : list Tile)
    (acc : gset (Z * Z) * list (list Tile)) (tile : Tile)
    : gset (Z * Z) * list (list Tile) :=
  let '(checkedCoords, triplets) := acc in
  let key := coordKey (position tile) in
  if decide (key ∈ checkedCoords) then acc
  else
    let checkedCoords := {[key]} ∪ checkedCoords in
    let triplet := findTripletsAt grid (position tile) in
    if (length triplet =? 3)%nat then
      (foldl (λ s t, {[coordKey (position t)]} ∪ s) checkedCoords triplet,
       triplets ++ [triplet])
    else (checkedCoords, triplets).

Definition findAllTriplets (grid : list Tile) : list (list Tile) :=
  snd (foldl (scanStep grid) (∅, []) grid).

Definition canMergeAnywhere (grid : list Tile) : bool :=
  (0 <? length (findAllTriplets grid))%nat.

(** Is some tile of [tiles] carrying the id [i]? *)
Definition hasId (tiles : list Tile) (i : string) : bool :=
  existsb (λ t, String.eqb (id t) i) tiles.

Definition mergeTriplet (grid triplet : list Tile) : Gen (list Tile * Z) :=
  match triplet with
  | [tile1; tile2; tile3] =>
      let oldValue := value tile1 in
      match getNextValue oldValue with
      | None => gret (grid, 0)
      | Some nextValue =>
          let scoreIncrease := oldValue * 3 in
          let filteredGrid :=
            List.filter (λ tile, negb (hasId triplet (id tile))) grid in
          let centerPosition :=
            centroid (position tile1) (position tile2) (position tile3) in
          newId ←$ freshId;
          let newTile := mkTile newId nextValue centerPosition None (Some true) in
          gret (filteredGrid ++ [newTile], scoreIncrease)
      end
  | _ => gret (grid, 0)
  end.

(** One iteration of [for (const triplet of triplets)] inside a pass. *)
Definition passStep (acc : list Tile * Z) (triplet : list Tile)
    : Gen (list Tile * Z) :=
  let '(newGrid, stepScore) := acc in
  let alreadyMerged := existsb (λ t, negb (hasId newGrid (id t))) triplet in
  if negb alreadyMerged then
    '(mergedGrid, scoreIncrease) ←$ mergeTriplet newGrid triplet;
    gret (mergedGrid, stepScore + scoreIncrease)
  else gret (newGrid, stepScore).

Fixpoint mergePass (acc : list Tile * Z) (triplets : list (list Tile))
    : Gen (list Tile * Z) :=
  match triplets with
  | [] => gret acc
  | triplet :: rest => acc' ←$ passStep acc triplet; mergePass acc' rest
  end.

(** The [while (mergesPerformed)] loop of [resolveAllMerges]: [fuel] bounds
    the number of passes and [None] means the bound was reached with
    triplets still being found. *)
Fixpoint resolveLoop (fuel : nat) (currentGrid : list Tile) (totalScore : Z)
    (e : Entropy) (c : Cursor) : option ((list Tile * Z) * Cursor) :=
  match fuel with
  | O => None
  | S fuel' =>
      let triplets := findAllTriplets currentGrid in
      if (length triplets =? 0)%nat then Some ((currentGrid, totalScore), c)
      else
        let '((newGrid, stepScore), c') := mergePass (currentGrid, 0) triplets e c in
        resolveLoop fuel' newGrid (totalScore + stepScore) e c'
  end.

Definition resolveAllMerges (fuel : nat) (grid : list Tile)
    (e : Entropy) (c : Cursor) : option ((list Tile * Z) * Cursor) :=
  resolveLoop fuel grid 0 e c.

Definition resetMergeFlags (grid : list Tile) : list Tile :=
  map (λ tile, mkTile (id tile) (value tile) (position tile) (isNew tile) (Some false)) grid.

(** ** core/game.ts *)

Definition initializeGrid : list Tile := [].

Definition emptyCoordsOf (grid : list Tile) : list HexCoord :=
  List.filter
    (λ coord, negb (existsb (λ tile, coordsEqual (position tile) coord) grid))
    getAllGridCoords.

(** [arr[i]] for a numeric index: [None] is [undefined]. *)
Definition lookupZ {A} (l : list A) (i : Z) : option A :=
  if i <? 0 then None else l !! Z.to_nat i.

(** [addRandomTile].  The result is [None] when the drawn index falls
    outside [emptyCoords] and the new tile would carry an [undefined]
    position; this needs a [Math.random()] result outside [0, 1). *)
Definition addRandomTile (grid : list Tile) (e : Entropy) (c : Cursor)
    : option (list Tile * Cursor) :=
  let emptyCoords := emptyCoordsOf grid in
  if (length emptyCoords =? 0)%nat then Some (grid, c)
  else
    let '(u, c) := mathRandom e c in
    let randomIndex := Qfloor (u * inject_Z (Z.of_nat (length emptyCoords))) in
    let '(v, c) := mathRandom e c in
    let newValue := if Qlt_le_dec v (9 # 10) then 2 else 6 in
    let '(newId, c) := freshId e c in
    position ← lookupZ emptyCoords randomIndex;
    Some (grid ++ [mkTile newId newValue position (Some true) (Some false)], c).

(** The [for (let i = 0; i < 5; i++)] loop of [initializeGameState]. *)
Fixpoint addRandomTiles (n : nat) (grid : list Tile) (e : Entropy) (c : Cursor)
    : option (list Tile * Cursor) :=
  match n with
  | O => Some (grid, c)
  | S n' => '(grid', c') ← addRandomTile grid e c; addRandomTiles n' grid' e c'
  end.

Definition initializeGameState (e : Entropy) (c : Cursor)
    : option (GameState * Cursor) :=
  '(grid, c') ← addRandomTiles 5 initializeGrid e c;
  Some (mkGameState grid 0 0 false false false [] 3, c').

(** Re-placing one tile of a line: the body of the inner [for] loop. *)
Definition placeTile (acc : list Tile * bool) (pair : Tile * HexCoord)
    : list Tile * bool :=
  let '(movedGrid, moved) := acc in
  let '(tile, targetPosition) := pair in
  (movedGrid ++
     [mkTile (id tile) (value tile) targetPosition
        (Some (default false (isNew tile)))
        (Some (default false (isMerged tile)))],
   if negb (coordsEqual (position tile) targetPosition) then true else moved).

(** The body of [for (const line of lines)]. *)
Definition slideLine (acc : list Tile * bool) (line : list HexCoord)
    : list Tile * bool :=
  let '(movedGrid, moved) := acc in
  let tilesInLine := omap (λ coord, getTileAtCoord movedGrid coord) line in
  if (length tilesInLine =? 0)%nat then acc
  else
    let movedGrid :=
      List.filter (λ tile, negb (hasId tilesInLine (id tile))) movedGrid in
    foldl placeTile (movedGrid, moved) (zip tilesInLine line).

Definition resetFlags (tile : Tile) : Tile :=
  mkTile (id tile) (value tile) (position tile) (Some false) (Some false).

(** Steps 2 and 3 of a move: clear the display flags and slide every line. *)
Definition slideGrid (grid : list Tile) (direction : Direction)
    : list Tile * bool :=
  foldl slideLine (map resetFlags grid, false) (getAllLines direction).

Definition highestTile (grid : list Tile) : Z :=
  foldl (λ highest tile, Z.max highest (value tile)) 0 grid.

Definition moveInDirection (fuel : nat) (gameState : GameState)
    (direction : Direction) (e : Entropy) (c : Cursor)
    : option (GameState * Cursor) :=
  let prevState := mkSnapshot (grid gameState) (score gameState) in
  let '(movedGrid, moved) := slideGrid (grid gameState) direction in
  if negb moved then Some (gameState, c)
  else
    '((mergedGrid, scoreIncrease), c) ← resolveAllMerges fuel movedGrid e c;
    '(newGrid, c) ← addRandomTile mergedGrid e c;
    let emptyCells := length (emptyCoordsOf newGrid) in
    let isWon := 1062882 <=? highestTile newGrid in
    let canStillMerge := canMergeAnywhere newGrid in
    let isGameOver := (emptyCells =? 0)%nat && negb canStillMerge in
    Some (mkGameState newGrid
            (score gameState + scoreIncrease)
            (Z.max (bestScore gameState) (score gameState + scoreIncrease))
            isGameOver isWon true
            (history gameState ++ [prevState])
            (undosRemaining gameState), c).

Definition undoMove (gameState : GameState) : GameState :=
  if negb (canUndo gameState) || (length (history gameState) =? 0)%nat
     || (undosRemaining gameState <=? 0)
  then gameState
  else
    match last (history gameState) with
    | None => gameState
    | Some lastState =>
        let newHistory :=
          take (length (history gameState) - 1) (history gameState) in
        mkGameState (snap_grid lastState) (snap_score lastState)
          (bestScore gameState) false false
          (0 <? length newHistory)%nat newHistory
          (undosRemaining gameState - 1)
    end.

Definition resetGame (gameState : GameState) (e : Entropy) (c : Cursor)
    : option (GameState * Cursor) :=
  '(fresh, c') ← initializeGameState e c;
  Some (mkGameState (grid fresh) (score fresh) (bestScore gameState)
          (isGameOver fresh) (isWon fresh) (canUndo fresh) (history fresh)
          (undosRemaining fresh), c').

Definition hasValidMoves (grid : list Tile) : bool :=
  let emptyCells := length (emptyCoordsOf grid) in
  if (0 <? emptyCells)%nat then true else canMergeAnywhere grid.

(** ** stores/gameStore.ts

    The store holds the fields of a [GameState] and the current mode; its
    actions wrap the operations of the core.  ([validCoords] is the constant
    [getAllGridCoords].) *)

Record GameStore := mkStore { storeState : GameState; gameMode : GameMode }.

Definition createStore (e : Entropy) (c : Cursor) : option (GameStore * Cursor) :=
  '(initialState, c') ← initializeGameState e c;
  Some (mkStore initialState CLASSIC, c').

Definition storeMove (fuel : nat) (s : GameStore) (direction : Direction)
    (e : Entropy) (c : Cursor) : option (GameStore * Cursor) :=
  let currentState := storeState s in
  if isGameOver currentState || isWon currentState then Some (s, c)
  else
    '(newState, c') ← moveInDirection fuel currentState direction e c;
    Some (mkStore newState (gameMode s), c').

Definition storeUndo (s : GameStore) : GameStore :=
  mkStore (undoMove (storeState s)) (gameMode s).

(** [{...newState, undosRemaining: undoLimit}]. *)
Definition setUndos (st : GameState) (undoLimit : Z) : GameState :=
  mkGameState (grid st) (score st) (bestScore st) (isGameOver st) (isWon st)
    (canUndo st) (history st) undoLimit.

Definition storeReset (s : GameStore) (e : Entropy) (c : Cursor)
    : option (GameStore * Cursor) :=
  '(newState, c') ← resetGame (storeState s) e c;
  let modeConfig := GAME_MODES (gameMode s) in
  Some (mkStore (setUndos newState (undoLimit modeConfig)) (gameMode s), c').

Definition setGameMode (s : GameStore) (m : GameMode) (e : Entropy) (c : Cursor)
    : option (GameStore * Cursor) :=
  let modeConfig := GAME_MODES m in
  '(newState, c') ← resetGame (storeState s) e c;
  Some (mkStore (setUndos newState (undoLimit modeConfig)) m, c').

(** * Vocabulary of the properties *)

(** ** Proof tools *)

(** Closed decidable goals are settled by evaluating their decision
    procedure. *)
Ltac by_compute := apply (bool_decide_unpack _); vm_compute; exact I.

(** Case analysis on a member of [DIRECTION_VECTORS]. *)
Ltac each_direction H :=
  unfold DIRECTION_VECTORS in H;
  repeat (apply elem_of_cons in H as [->|H]); [..|by apply elem_of_nil in H].

(** ** Lines *)

Definition negCoord (v : HexCoord) : HexCoord := mkHex (- q v) (- r v).

(** Consecutive entries of [line] differ by the vector [v]. *)
Fixpoint straightRun (v : HexCoord) (line : list HexCoord) : Prop :=
  match line with
  | a :: (b :: _) as rest => b = addCoords a v ∧ straightRun v rest
  | _ => True
  end.

(** A line of direction [d] that cannot be extended at either end. *)
Definition maximalRun (d : Direction) (line : list HexCoord) : Prop :=
  ∃ first final,
    head line = Some first ∧ last line = Some final ∧
    straightRun (dirVector (dirIndex d)) line ∧
    isValidCoord (addCoords first (negCoord (dirVector (dirIndex d)))) = false ∧
    isValidCoord (addCoords final (dirVector (dirIndex d))) = false.

(** The same two properties as boolean tests. *)
Fixpoint straightRunb (v : HexCoord) (line : list HexCoord) : bool :=
  match line with
  | a :: (b :: _) as rest =>
      bool_decide (b = addCoords a v) && straightRunb v rest
  | _ => true
  end.

Definition maximalRunb (d : Direction) (line : list HexCoord) : bool :=
  match head line, last line with
  | Some first, Some final =>
      straightRunb (dirVector (dirIndex d)) line
      && negb (isValidCoord (addCoords first (negCoord (dirVector (dirIndex d)))))
      && negb (isValidCoord (addCoords final (dirVector (dirIndex d))))
  | _, _ => false
  end.

(** ** Boards *)

(** A board in the sense of the data model: no two tiles on one cell, no
    two tiles with one id, every tile on a cell of the grid. *)
Record wfGrid (g : list Tile) : Prop := mkWfGrid {
  wf_positions : NoDup (position <$> g);
  wf_ids : NoDup (id <$> g);
  wf_valid : Forall (λ t, isValidCoord (position t) = true) g
}.

(** Every id on the board was produced by the id source before the cursor. *)
Definition idsBelow (e : Entropy) (c : Cursor) (g : list Tile) : Prop :=
  ∀ u, u ∈ g → ∃ k, (k < stamps c)%nat ∧ id u = nextId e k.

(** The invariant of a board together with the cursor. *)
Definition boardInv (e : Entropy) (c : Cursor) (g : list Tile) : Prop :=
  wfGrid g ∧ idsBelow e c g.

(** [Math.random()] returns a number of [0, 1). *)
Definition unitRange (e : Entropy) : Prop :=
  ∀ n, (0 <= random e n)%Q ∧ (random e n < 1)%Q.

(** ** Triplets *)

Definition mutuallyAdjacent (p1 p2 p3 : HexCoord) : Prop :=
  adjacent p1 p2 = true ∧ adjacent p1 p3 = true ∧ adjacent p2 p3 = true.

(** A triplet the merge step leaves alone: its first tile has no next
    value. *)
Definition inert (triplet : list Tile) : Prop :=
  match triplet with
  | t1 :: _ => getNextValue (value t1) = None
  | [] => True
  end.

Global Instance inert_dec triplet : Decision (inert triplet).
Proof. destruct triplet; simpl; apply _. Defined.

(** The claim of the specification: no tile occurs in two triplets of one
    scan. *)
Definition disjointTriplets (triplets : list (list Tile)) : Prop :=
  ∀ i j ti tj t,
    i ≠ j → triplets !! i = Some ti → triplets !! j = Some tj →
    t ∈ ti → t ∉ tj.

(** The scan invariant: every position of a recorded triplet is claimed,
    and the centre of each triplet lies outside all earlier triplets. *)
Definition scanInv (acc : gset (Z * Z) * list (list Tile)) : Prop :=
  (∀ triplet t, triplet ∈ acc.2 → t ∈ triplet → coordKey (position t) ∈ acc.1) ∧
  (∀ i j ti tj, (i < j)%nat → acc.2 !! i = Some ti → acc.2 !! j = Some tj →
     ∃ centerTile a b, tj = [centerTile; a; b] ∧
       ∀ t, t ∈ ti → position t ≠ position centerTile).

(** The tile a merge of [t1], [t2], [t3] creates when the id source is at
    cursor [c], the cursor it leaves, and the tiles it keeps. *)
Definition mergedTile (t1 t2 t3 : Tile) (V' : Z) (e : Entropy) (c : Cursor)
    : Tile :=
  mkTile (nextId e (stamps c)) V'
    (centroid (position t1) (position t2) (position t3)) None (Some true).

Definition afterMerge (c : Cursor) : Cursor := mkCursor (draws c) (S (stamps c)).

Definition survivors (t1 t2 t3 : Tile) (grid : list Tile) : list Tile :=
  List.filter (λ tile, negb (hasId [t1; t2; t3] (id tile))) grid.

(** The state of a pass over the triplets found on [g0] at cursor [c0]. *)
Definition passInv (e : Entropy) (g0 : list Tile) (c0 : Cursor)
    (acc : list Tile * Z) (c : Cursor) : Prop :=
  wfGrid acc.1 ∧ idsBelow e c acc.1 ∧ (stamps c0 ≤ stamps c)%nat ∧
  ∀ u, u ∈ acc.1 → u ∈ g0 ∨ ∃ k, (stamps c0 ≤ k)%nat ∧ id u = nextId e k.

(** ** Sliding *)

(** The tile a line cell receives, and whether that changes its position. *)
Definition placed (pair : Tile * HexCoord) : Tile :=
  mkTile (id pair.1) (value pair.1) pair.2
    (Some (default false (isNew pair.1)))
    (Some (default false (isMerged pair.1))).

Definition changed (pair : Tile * HexCoord) : bool :=
  negb (coordsEqual (position pair.1) pair.2).

(** What holds of the working grid and the [moved] flag while the lines
    are slid one after the other; [seen] collects the cells of the lines
    already processed and [g0] is the grid the slide started from. *)
Record SlideInv (g0 : list Tile) (seen : list HexCoord)
    (acc : list Tile * bool) : Prop := mkSlideInv {
  si_wf : wfGrid acc.1;
  si_origin : ∀ u, u ∈ acc.1 → ∃ u0, u0 ∈ g0 ∧ id u0 = id u ∧ value u0 = value u;
  si_untouched : ∀ u, u ∈ acc.1 → position u ∉ seen → u ∈ g0;
  si_moved : acc.2 = true →
    ∃ u, u ∈ acc.1 ∧ position u ∈ seen ∧
         ∀ u0, u0 ∈ g0 → id u0 = id u → position u0 ≠ position u;
  si_still : acc.2 = false →
    ∀ u, u ∈ acc.1 → ∃ u0, u0 ∈ g0 ∧ id u0 = id u ∧ position u0 = position u
}.

(** Sliding [g] towards [d] leaves every tile where it was: each tile of
    the slid grid is, by id, a tile of [g] on the same cell. *)
Definition unmovedBy (g : list Tile) (d : Direction) : Prop :=
  Forall (λ u, Exists (λ u0, id u0 = id u ∧ position u0 = position u) g)
    (fst (slideGrid g d)).

(** ** Game states *)

(** The invariant of a game state: the board and every snapshot kept for
    undo are boards of the data model with ids drawn before the cursor. *)
Definition stateInv (e : Entropy) (c : Cursor) (st : GameState) : Prop :=
  boardInv e c (grid st) ∧
  Forall (λ snap, boardInv e c (snap_grid snap)) (history st).

(** The caller's adjustment after a reset (stores/gameStore.ts): the undo
    budget of the mode. *)
Definition withUndoBudget (st : GameState) (undoLimit : Z) : GameState :=
  mkGameState (grid st) (score st) (bestScore st) (isGameOver st) (isWon st)
    (canUndo st) (history st) undoLimit.

(** The game states that the operations of the engine can produce, with
    the cursor reached in the sources of chance. *)
Inductive reachable (e : Entropy) : GameState → Cursor → Prop :=
  | reach_init c st c' :
      initializeGameState e c = Some (st, c') → reachable e st c'
  | reach_move fuel st c d st' c' :
      reachable e st c → moveInDirection fuel st d e c = Some (st', c') →
      reachable e st' c'
  | reach_undo st c :
      reachable e st c → reachable e (undoMove st) c
  | reach_reset st c st' c' :
      reachable e st c → resetGame st e c = Some (st', c') → reachable e st' c'
  | reach_budget st c undoLimit :
      reachable e st c → reachable e (withUndoBudget st undoLimit) c.

(** ** Sample boards and draws *)

Definition tileAt (i : string) (v qv rv : Z) : Tile :=
  mkTile i v (mkHex qv rv) (Some false) (Some false).

(** Every [Math.random()] is one half; the ids are "id0", "id1", ... *)
Definition sampleEntropy : Entropy :=
  mkEntropy (λ _, 1 # 2)%Q (λ n, "id" +:+ pretty n).

Definition start : Cursor := mkCursor 0 0.

Definition stateOf (g : list Tile) : GameState :=
  mkGameState g 0 0 false false false [] 3.

(** Three mutually adjacent tiles of the terminal value. *)
Definition terminalTriplet : list Tile :=
  [tileAt "a" 1062882 0 0; tileAt "b" 1062882 1 0; tileAt "c" 1062882 0 1].

(** Four equal tiles on a rhombus: two triangles sharing an edge. *)
Definition rhombus : list Tile :=
  [tileAt "a" 2 0 0; tileAt "b" 2 1 0; tileAt "c" 2 0 1; tileAt "d" 2 1 1].

(** Two tiles that an EAST move slides apart from nothing. *)
Definition spreadBoard : list Tile :=
  [tileAt "a" 2 0 0; tileAt "b" 6 1 1].

(** Three equal tiles packed against the far end of their EAST lines; they
    form a triplet. *)
Definition packedTriplet : list Tile :=
  [tileAt "a" 2 2 0; tileAt "b" 2 1 0; tileAt "c" 2 1 1].

(** ** Vocabulary of the further properties *)

Definition origin : HexCoord := mkHex 0 0.

(** The tiles standing on the cells of [line], in line order. *)
Definition tilesOn (g : list Tile) (line : list HexCoord) : list Tile :=
  omap (λ coord, getTileAtCoord g coord) line.

(** What identifies a tile across a slide. *)
Definition tileKey (t : Tile) : string * Z := (id t, value t).

(** The tiles of [line] stand on its first cells, without a gap. *)
Definition packedOn (g : list Tile) (line : list HexCoord) : Prop :=
  position <$> tilesOn g line = take (length (tilesOn g line)) line.

Definition sumZ (l : list Z) : Z := foldr Z.add 0 l.

(** The sum of the values on a board. *)
Definition totalValue (g : list Tile) : Z := sumZ (value <$> g).

(** Every value on the board belongs to the progression. *)
Definition valuesInProgression (g : list Tile) : Prop :=
  Forall (λ t, value t ∈ TILE_VALUES) g.

(** Three tiles of the board with one value, pairwise adjacent. *)
Definition hasTriple (g : list Tile) : Prop :=
  ∃ a b x, a ∈ g ∧ b ∈ g ∧ x ∈ g ∧
    value b = value a ∧ value x = value a ∧
    mutuallyAdjacent (position a) (position b) (position x).

(** How the state of the merge loop relates before and after a step,
    a pass or the whole loop: the total value is kept, each id drawn
    stands for a merge that removed two tiles and scored at least six, and
    no random number is drawn. *)
Definition accounts (g : list Tile) (s : Z) (c : Cursor)
    (g' : list Tile) (s' : Z) (c' : Cursor) : Prop :=
  totalValue g' = totalValue g ∧
  (stamps c ≤ stamps c')%nat ∧
  (length g' + 2 * (stamps c' - stamps c) = length g)%nat ∧
  draws c' = draws c ∧
  s + 6 * Z.of_nat (stamps c' - stamps c) ≤ s' ∧
  valuesInProgression g'.

(** The bookkeeping invariant of game states. *)
Record bookInv (st : GameState) : Prop := mkBookInv {
  bk_values : valuesInProgression (grid st);
  bk_history_values :
    Forall (λ snap, valuesInProgression (snap_grid snap)) (history st);
  bk_score : 0 ≤ score st ≤ bestScore st;
  bk_history_score :
    Forall (λ snap, 0 ≤ snap_score snap ≤ bestScore st) (history st);
  bk_canUndo : canUndo st = true ↔ history st ≠ []
}.

(** The states of the store that its actions can produce. *)
Inductive storeReachable (e : Entropy) : GameStore → Cursor → Prop :=
  | sr_create c s c' :
      createStore e c = Some (s, c') → storeReachable e s c'
  | sr_move fuel s c d s' c' :
      storeReachable e s c → storeMove fuel s d e c = Some (s', c') →
      storeReachable e s' c'
  | sr_undo s c :
      storeReachable e s c → storeReachable e (storeUndo s) c
  | sr_reset s c s' c' :
      storeReachable e s c → storeReset s e c = Some (s', c') →
      storeReachable e s' c'
  | sr_mode s c m s' c' :
      storeReachable e s c → setGameMode s m e c = Some (s', c') →
      storeReachable e s' c'.

(** The invariant of the store. *)
Record storeInv (s : GameStore) : Prop := mkStoreInv {
  sv_won :
    isWon (storeState s) = true ↔
    ∃ t, t ∈ grid (storeState s) ∧ 1062882 ≤ value t;
  sv_over :
    isGameOver (storeState s) = negb (hasValidMoves (grid (storeState s)));
  sv_undos :
    0 ≤ undosRemaining (storeState s) ≤ undoLimit (GAME_MODES (gameMode s));
  sv_history :
    Forall (λ snap,
              (∀ t, t ∈ snap_grid snap → value t < 1062882) ∧
              hasValidMoves (snap_grid snap) = true)
      (history (storeState s))
}.

(** The display flags of every tile are cleared. *)
Definition flagsCleared (g : list Tile) : Prop :=
  Forall (λ u, isNew u = Some false ∧ isMerged u = Some false) g.

(** The state of the slide of [g0] after the lines [finished]: the working
    grid holds the same tiles by id and value, the finished lines hold
    their tiles in the old order on their first cells, and the cells of the
    other lines are as they were. *)
Record SlideOrder (g0 : list Tile) (finished : list (list HexCoord))
    (G : list Tile) : Prop := mkSlideOrder {
  so_wf : wfGrid G;
  so_keys : tileKey <$> G ≡ₚ tileKey <$> g0;
  so_flags : flagsCleared G;
  so_done :
    Forall (λ L, tileKey <$> tilesOn G L = tileKey <$> tilesOn g0 L ∧ packedOn G L)
      finished;
  so_rest : ∀ p, p ∉ concat finished → getTileAtCoord G p = getTileAtCoord g0 p
}.

(** [k] steps along the vector [v]. *)
Definition scaleCoord (k : Z) (v : HexCoord) : HexCoord :=
  mkHex (k * q v) (k * r v).

(** The tiles of the working grid of the merge loop started on [g00] at
    cursor [c00]: each is still a tile of [g00] or was created by a merge
    since, with [isMerged] set and an id drawn since. *)
Definition mergeMarked (e : Entropy) (g00 : list Tile) (c00 c : Cursor)
    (g : list Tile) : Prop :=
  ∀ u, u ∈ g →
    u ∈ g00 ∨
    (isNew u = None ∧ isMerged u = Some true ∧
     ∃ k, (stamps c00 ≤ k < stamps c)%nat ∧ id u = nextId e k).

(** Every cell of the grid carries a tile. *)
Definition fullBoard (g : list Tile) : Prop :=
  ∀ p, isValidCoord p = true → ∃ t, t ∈ g ∧ position t = p.

(** ** Further sample boards *)

(** A full board coloured with three values so that neighbours differ. *)
Definition deadBoard : list Tile :=
  (λ p, mkTile (pretty (q p) +:+ "," +:+ pretty (r p))
          (default 2 (TILE_VALUES !! Z.to_nat ((q p - r p) `mod` 3)))
          p (Some false) (Some false)) <$> getAllGridCoords.

(** A board whose ids are the first four of the sample id source, and the
    cursor after them. *)
Definition minted : list Tile :=
  [tileAt "id0" 2 0 0; tileAt "id1" 2 1 0; tileAt "id2" 2 0 1; tileAt "id3" 6 1 1].

Definition mintedCursor : Cursor := mkCursor 0 4.

(** ** Vocabulary of the merge position and of the terminal flags *)

(** [m] is the integer nearest to [n / 3].  A third of an integer is never
    halfway between two integers, so exactly one [m] qualifies. *)
Definition nearestThird (n m : Z) : Prop := Z.abs (3 * m - n) ≤ 1.

(** No two neighbouring tiles carry one value. *)
Definition noEqualNeighbours (g : list Tile) : Prop :=
  ∀ a b, a ∈ g → b ∈ g →
    adjacent (position a) (position b) = true → value a ≠ value b.

(** Three 2s whose merge lands beside two 6s: a chain of two merges. *)
Definition chainBoard : list Tile :=
  [tileAt "a" 2 0 0; tileAt "b" 2 1 0; tileAt "c" 2 1 (-1);
   tileAt "d" 6 2 0; tileAt "e" 6 1 1].

(** A colouring of the grid with three values in which neighbours differ,
    with 2 on the cell (-2, 0). *)
Definition deadValue (p : HexCoord) : Z :=
  default 2 (TILE_VALUES !! Z.to_nat ((q p - r p + 2) `mod` 3)).

(** Eighteen tiles: the cell (2, 0) is empty and the tiles of the row
    [r = 0] carry the colour of their right-hand neighbour, so that an EAST
    move shifts that row by one cell and leaves (-2, 0) for the spawn. *)
Definition nearlyDead : list Tile :=
  (λ p, mkTile (pretty (q p) +:+ "," +:+ pretty (r p))
          (if r p =? 0 then deadValue (mkHex (q p + 1) 0) else deadValue p)
          p (Some false) (Some false))
  <$> List.filter (λ p, negb (coordsEqual p (mkHex 2 0))) getAllGridCoords.

(** ** A run in which the id template repeats an id *)

(** Spawn draws in [0, 1) and an id source whose eleventh id is "id0"
    again. *)
Definition collidingEntropy : Entropy :=
  mkEntropy
    (λ n, nth n [16 # 19; 0; 1 # 9; 19 # 20; 15 # 17; 0; 13 # 16; 0;
                 3 # 5; 19 # 20; 1 # 14; 0; 1 # 13; 0; 1 # 6; 19 # 20;
                 1 # 11; 0] (1 # 2))%Q
    (λ n, if (n =? 10)%nat then "id0" else "id" +:+ pretty n).

(** A sequence of moves, each on the state the previous one returned. *)
Fixpoint playMoves (fuel : nat) (dirs : list Direction) (st : GameState)
    (e : Entropy) (c : Cursor) : option (GameState * Cursor) :=
  match dirs with
  | [] => Some (st, c)
  | d :: rest =>
      '(st', c') ← moveInDirection fuel st d e c; playMoves fuel rest st' e c'
  end.

(** The board that run has slid when its last move starts merging, the
    cursor at that point, and the third triplet the scan finds on it. *)
Definition crowdedBoard : list Tile :=
  [tileAt "id8" 2 (-2) 1; tileAt "id6" 2 (-1) 0; tileAt "id5" 2 0 (-1);
   tileAt "id7" 6 (-2) 2; tileAt "id1" 6 (-1) 1; tileAt "id0" 2 0 0;
   tileAt "id4" 6 (-1) 2; tileAt "id3" 2 0 1; tileAt "id2" 2 1 0].

Definition crowdedCursor : Cursor := mkCursor 18 9.

Definition staleTriplet : list Tile :=
  [tileAt "id3" 2 0 1; tileAt "id0" 2 0 0; tileAt "id2" 2 1 0].

(** The properties of the line through a valid start, as a boolean test. *)
Definition lineFromb (d : Direction) (start : HexCoord) : bool :=
  let line := getLine start d in
  let v := dirVector (dirIndex d) in
  bool_decide (getLine_fuel LINE_FUEL start d = Some line)
  && bool_decide (head line = Some start)
  && straightRunb v line
  && forallb isValidCoord line
  && match last line with
     | Some final => negb (isValidCoord (addCoords final v))
     | None => false
     end
  && bool_decide (length line ≤ 5)%nat.

(** * Properties *)

(** ** Geometry: every loop of hexUtils.ts runs to completion *)

Lemma getLine_loop_mono fuel fuel' dir current result out :
  (fuel ≤ fuel')%nat →
  getLine_loop fuel dir current result = Some out →
  getLine_loop fuel' dir current result = Some out.
Proof.
  revert fuel' current result.
  induction fuel as [|fuel IH]; intros fuel' current result Hle H; [done|].
  destruct fuel' as [|fuel']; [lia|]. simpl in *.
  destruct (negb (isValidCoord (addCoords current dir))); [done|].
  apply IH; [lia|done].
Qed.

Lemma walkBack_mono fuel fuel' v start out :
  (fuel ≤ fuel')%nat →
  walkBack fuel v start = Some out → walkBack fuel' v start = Some out.
Proof.
  revert fuel' start.
  induction fuel as [|fuel IH]; intros fuel' start Hle H; [done|].
  destruct fuel' as [|fuel']; [lia|]. simpl in *.
  destruct (negb (isValidCoord (addCoords start v))); [done|].
  apply IH; [lia|done].
Qed.

Lemma linesStep_mono fuel fuel' d acc coord out :
  (fuel ≤ fuel')%nat →
  linesStep fuel d acc coord = Some out →
  linesStep fuel' d acc coord = Some out.
Proof.
  intros Hle. unfold linesStep.
  destruct acc as [[used lines]|]; simpl; [|done].
  destruct (decide (coordKey coord ∈ used)); [done|].
  destruct (walkBack fuel _ coord) as [start|] eqn:Hw; simpl; [|done].
  rewrite (walkBack_mono _ _ _ _ _ Hle Hw). simpl.
  unfold getLine_fuel.
  destruct (getLine_loop fuel _ start [start]) as [line|] eqn:Hl; simpl; [|done].
  by rewrite (getLine_loop_mono _ _ _ _ _ _ Hle Hl).
Qed.

Lemma linesStep_foldl_None fuel d coords :
  foldl (linesStep fuel d) None coords = None.
Proof. induction coords; simpl; auto. Qed.

Lemma linesStep_foldl_mono fuel fuel' d coords acc out :
  (fuel ≤ fuel')%nat →
  foldl (linesStep fuel d) acc coords = Some out →
  foldl (linesStep fuel' d) acc coords = Some out.
Proof.
  intros Hle. revert acc.
  induction coords as [|c coords IH]; intros acc H; simpl in *; [done|].
  destruct (linesStep fuel d acc c) as [st|] eqn:Hs.
  - rewrite (linesStep_mono _ _ _ _ _ _ Hle Hs). by apply IH.
  - by rewrite linesStep_foldl_None in H.
Qed.

Lemma getAllLines_fuel_mono fuel fuel' d lines :
  (fuel ≤ fuel')%nat →
  getAllLines_fuel fuel d = Some lines → getAllLines_fuel fuel' d = Some lines.
Proof.
  intros Hle H. unfold getAllLines_fuel in *.
  destruct (foldl (linesStep fuel d) _ _) as [st|] eqn:Hf; [|discriminate H].
  rewrite (linesStep_foldl_mono _ _ _ _ _ _ Hle Hf). exact H.
Qed.

Lemma lines_fuel_enough d fuel :
  (LINE_FUEL ≤ fuel)%nat → getAllLines_fuel fuel d = Some (getAllLines d).
Proof.
  intros Hle. apply (getAllLines_fuel_mono LINE_FUEL); [done|].
  destruct d; vm_compute; reflexivity.
Qed.

(** ** Geometry: the grid and its lines *)

Lemma isValidCoord_bounds c :
  isValidCoord c = true ↔
  -2 ≤ q c ≤ 2 ∧ -2 ≤ r c ≤ 2 ∧ -2 ≤ q c + r c ≤ 2.
Proof.
  unfold isValidCoord, getS.
  change radius with 2.
  rewrite !andb_true_iff, !Z.leb_le. lia.
Qed.

Lemma valid_iff_grid c : isValidCoord c = true ↔ c ∈ getAllGridCoords.
Proof.
  rewrite isValidCoord_bounds. split.
  - intros (Hq & Hr & Hs). destruct c as [cq cr]; simpl in *.
    assert (cq = -2 ∨ cq = -1 ∨ cq = 0 ∨ cq = 1 ∨ cq = 2) as Hcq by lia.
    assert (cr = -2 ∨ cr = -1 ∨ cr = 0 ∨ cr = 1 ∨ cr = 2) as Hcr by lia.
    destruct Hcq as [?|[?|[?|[?|?]]]]; destruct Hcr as [?|[?|[?|[?|?]]]];
      subst cq cr; try lia; by_compute.
  - intros Hin.
    assert (Forall (λ c, -2 ≤ q c ≤ 2 ∧ -2 ≤ r c ≤ 2 ∧ -2 ≤ q c + r c ≤ 2)
              getAllGridCoords) as Hall.
    { vm_compute. repeat constructor; discriminate. }
    by apply (proj1 (Forall_forall _ _) Hall).
Qed.

Lemma getLine_loop_acc fuel dir current result :
  getLine_loop fuel dir current result
  = (λ line, result ++ line) <$> getLine_loop fuel dir current [].
Proof.
  revert current result.
  induction fuel as [|fuel IH]; intros current result; simpl; [done|].
  destruct (negb (isValidCoord (addCoords current dir))); simpl.
  - by rewrite app_nil_r.
  - rewrite (IH _ (result ++ _)), (IH _ [_]).
    destruct (getLine_loop fuel dir _ []); simpl; [|done].
    by rewrite <- app_assoc.
Qed.

(** [getLine] returns from every start, on or off the grid. *)
Lemma getLine_total start d :
  ∃ line, ∀ fuel, (LINE_FUEL ≤ fuel)%nat →
    getLine_fuel fuel start d = Some line.
Proof.
  assert (∃ line, getLine_fuel LINE_FUEL start d = Some line) as [line H].
  { unfold getLine_fuel.
    assert (∀ fuel dir current result,
              getLine_loop (S fuel) dir current result
              = if negb (isValidCoord (addCoords current dir)) then Some result
                else getLine_loop fuel dir (addCoords current dir)
                       (result ++ [addCoords current dir])) as Hstep by done.
    rewrite (Hstep 5%nat).
    destruct (isValidCoord (addCoords start (dirVector (dirIndex d)))) eqn:Hv;
      cbn [negb]; [|eauto].
    rewrite getLine_loop_acc. apply valid_iff_grid in Hv.
    assert (Forall (λ next, is_Some (getLine_loop 5 (dirVector (dirIndex d)) next []))
              getAllGridCoords) as Hall by (destruct d; by_compute).
    rewrite Forall_forall in Hall. destruct (Hall _ Hv) as [line ->].
    simpl. eauto. }
  exists line. intros fuel Hle. by apply (getLine_loop_mono LINE_FUEL).
Qed.

Lemma straightRunb_spec v line : straightRunb v line = true → straightRun v line.
Proof.
  induction line as [|a [|b rest] IH]; simpl; try done.
  rewrite andb_true_iff, bool_decide_eq_true. intros [-> H]. split; [done|].
  by apply IH.
Qed.

Lemma maximalRunb_spec d line : maximalRunb d line = true → maximalRun d line.
Proof.
  unfold maximalRunb, maximalRun.
  destruct (head line) as [first|]; [|done].
  destruct (last line) as [final|]; [|done].
  rewrite !andb_true_iff, !negb_true_iff. intros [[Hs Hb] Hf].
  exists first, final. repeat split; auto using straightRunb_spec.
Qed.

(** The vector of the opposite direction, as [getAllLines] looks it up, is
    the negated vector. *)
Lemma opposite_vector d :
  dirVector ((dirIndex d + 3) mod 6) = negCoord (dirVector (dirIndex d)).
Proof. by destruct d. Qed.

Lemma grid_coords_NoDup : NoDup getAllGridCoords.
Proof. by_compute. Qed.

Lemma lines_NoDup d : NoDup (concat (getAllLines d)).
Proof. destruct d; by_compute. Qed.

Lemma lines_cover d c : c ∈ concat (getAllLines d) ↔ c ∈ getAllGridCoords.
Proof.
  split; revert c; apply Forall_forall; destruct d; by_compute.
Qed.

Lemma lines_maximal d : Forall (maximalRun d) (getAllLines d).
Proof.
  apply Forall_forall. intros line Hin. apply maximalRunb_spec.
  revert line Hin. apply Forall_forall. destruct d; by_compute.
Qed.

(** C7: for every direction the lines of [getAllLines] are computed within
    the loop bound, partition the valid grid coordinates (each valid
    coordinate occurs exactly once over all lines) and are maximal straight
    runs along the direction; but the coordinates they partition number 19,
    the cells of the radius-2 hexagon, not the 37 that TOTAL_TILES and the
    specification announce. *)
Theorem getAllLines_partition (d : Direction) :
  getAllLines_fuel LINE_FUEL d = Some (getAllLines d) ∧
  concat (getAllLines d) ≡ₚ getAllGridCoords ∧
  NoDup (concat (getAllLines d)) ∧
  (∀ c, isValidCoord c = true ↔ c ∈ concat (getAllLines d)) ∧
  Forall (maximalRun d) (getAllLines d) ∧
  length (concat (getAllLines d)) = 19%nat ∧
  length (concat (getAllLines d)) ≠ TOTAL_TILES.
Proof.
  split; [by apply lines_fuel_enough|].
  split; [apply NoDup_Permutation;
          [apply lines_NoDup | apply grid_coords_NoDup | apply lines_cover]|].
  split; [apply lines_NoDup|].
  split; [intros c; rewrite valid_iff_grid; symmetry; apply lines_cover|].
  split; [apply lines_maximal|].
  split; destruct d; by vm_compute.
Qed.

(** ** Basic facts about coordinates and lookups *)

Lemma coordsEqual_eq a b : coordsEqual a b = true ↔ a = b.
Proof.
  unfold coordsEqual. rewrite andb_true_iff, !Z.eqb_eq.
  destruct a, b; simpl. split; [intros [-> ->]; done | by intros [= -> ->]].
Qed.

Lemma coordsEqual_refl a : coordsEqual a a = true.
Proof. by apply coordsEqual_eq. Qed.

Lemma coordsEqual_neq a b : coordsEqual a b = false ↔ a ≠ b.
Proof.
  rewrite <- coordsEqual_eq. destruct (coordsEqual a b); split; congruence.
Qed.

Lemma getTileAtCoord_Some grid coord t :
  getTileAtCoord grid coord = Some t → t ∈ grid ∧ position t = coord.
Proof.
  intros H. apply find_some in H as [Hin Heq].
  split; [by apply list_elem_of_In | by apply coordsEqual_eq].
Qed.

Lemma getTileAtCoord_None grid coord :
  getTileAtCoord grid coord = None ↔ ∀ t, t ∈ grid → position t ≠ coord.
Proof.
  unfold getTileAtCoord. split.
  - intros H t Hin. apply coordsEqual_neq.
    apply (find_none _ _ H). by apply list_elem_of_In.
  - intros H. destruct (List.find _ grid) as [t|] eqn:Hf; [|done].
    apply find_some in Hf as [Hin Heq].
    apply list_elem_of_In in Hin. apply coordsEqual_eq in Heq.
    by destruct (H t Hin).
Qed.

Lemma hasId_true tiles i : hasId tiles i = true ↔ ∃ t, t ∈ tiles ∧ id t = i.
Proof.
  unfold hasId. rewrite existsb_exists. split.
  - intros (t & Hin & Heq). exists t. split; [by apply list_elem_of_In|].
    by apply String.eqb_eq.
  - intros (t & Hin & Heq). exists t. split; [by apply list_elem_of_In|].
    by apply String.eqb_eq.
Qed.

Lemma hasId_false tiles i : hasId tiles i = false ↔ ∀ t, t ∈ tiles → id t ≠ i.
Proof.
  split.
  - intros H t Hin Heq. assert (hasId tiles i = true) by (apply hasId_true; eauto).
    congruence.
  - intros H. destruct (hasId tiles i) eqn:Hh; [|done].
    apply hasId_true in Hh as (t & Hin & Heq). by destruct (H t Hin).
Qed.

(** ** The terminal value *)

Lemma getNextValue_terminal : getNextValue 1062882 = None.
Proof. reflexivity. Qed.

(** C9: a triplet whose tiles carry the terminal value 1062882 is not merged:
    [mergeTriplet] returns the grid it was given with a score increase of
    zero (and draws no id), whatever the positions of the tiles. *)
Theorem mergeTriplet_terminal_noop (grid triplet : list Tile) e c :
  Forall (λ t, value t = 1062882) triplet →
  mergeTriplet grid triplet e c = ((grid, 0), c).
Proof.
  intros Hall. unfold mergeTriplet.
  destruct triplet as [|t1 [|t2 [|t3 [|t4 rest]]]]; try reflexivity.
  apply Forall_cons in Hall as [Hv _]. rewrite Hv, getNextValue_terminal.
  reflexivity.
Qed.

Lemma mergeTriplet_terminal_noop_witness :
  Forall (λ t, value t = 1062882) terminalTriplet ∧
  mergeTriplet (terminalTriplet ++ rhombus) terminalTriplet sampleEntropy start
  = ((terminalTriplet ++ rhombus, 0), start).
Proof.
  split.
  - repeat constructor.
  - apply (mergeTriplet_terminal_noop (terminalTriplet ++ rhombus)
             terminalTriplet sampleEntropy start).
    repeat constructor.
Defined.

(** ** Termination of the merge loop *)

Lemma mergeTriplet_inert grid triplet e c :
  inert triplet → mergeTriplet grid triplet e c = ((grid, 0), c).
Proof.
  unfold inert, mergeTriplet.
  destruct triplet as [|t1 [|t2 [|t3 [|t4 rest]]]]; try reflexivity.
  by intros ->.
Qed.

Lemma mergePass_inert grid stepScore triplets e c :
  Forall inert triplets →
  mergePass (grid, stepScore) triplets e c = ((grid, stepScore), c).
Proof.
  induction 1 as [|triplet rest Hin _ IH]; [reflexivity|].
  simpl. unfold gbind at 1. unfold passStep.
  destruct (negb (existsb _ triplet)).
  - unfold gbind at 1. rewrite (mergeTriplet_inert _ _ _ _ Hin).
    unfold gret at 1. by rewrite Z.add_0_r.
  - unfold gret at 1. done.
Qed.

Lemma resolveLoop_inert fuel grid totalScore e c :
  findAllTriplets grid ≠ [] → Forall inert (findAllTriplets grid) →
  resolveLoop fuel grid totalScore e c = None.
Proof.
  intros Hne Hin. revert totalScore.
  induction fuel as [|fuel IH]; intros totalScore; [reflexivity|].
  simpl. destruct (findAllTriplets grid) as [|t ts] eqn:Hts; [done|].
  rewrite <- Hts in *. rewrite Hts at 1. simpl.
  rewrite (mergePass_inert _ _ _ _ _ Hin). apply IH.
Qed.

(** C1: on a board holding three mutually adjacent tiles of the terminal
    value the pass loop of [resolveAllMerges] never reaches its fixed point:
    every pass finds the triplet again and merges nothing, so no bound on
    the number of passes lets the call return, and neither does a move that
    slides the tiles into such a triplet. *)
Theorem resolveAllMerges_terminal_diverges (fuel : nat) e c :
  resolveAllMerges fuel terminalTriplet e c = None ∧
  fst (slideGrid terminalTriplet EAST) ≠ terminalTriplet ∧
  snd (slideGrid terminalTriplet EAST) = true ∧
  moveInDirection fuel (stateOf terminalTriplet) EAST e c = None.
Proof.
  split; [|split; [|split]].
  - apply resolveLoop_inert; [by vm_compute | by_compute].
  - by vm_compute.
  - by vm_compute.
  - unfold moveInDirection.
    destruct (slideGrid (grid (stateOf terminalTriplet)) EAST)
      as [movedGrid moved] eqn:Hs.
    vm_compute in Hs. injection Hs as <- <-. simpl negb. cbv iota.
    unfold resolveAllMerges. rewrite resolveLoop_inert; [done| |].
    + by vm_compute.
    + by_compute.
Qed.

(** ** Triplet detection *)

Lemma firstAdjacentPair_shape centerTile l :
  firstAdjacentPair centerTile l = [] ∨
  ∃ a b, firstAdjacentPair centerTile l = [centerTile; a; b] ∧
         a ∈ l ∧ b ∈ l ∧ adjacent (position a) (position b) = true.
Proof.
  induction l as [|tileA rest IH]; simpl; [by left|].
  destruct (List.find _ rest) as [tileB|] eqn:Hf.
  - right. exists tileA, tileB. apply find_some in Hf as [Hin Hadj].
    apply list_elem_of_In in Hin.
    repeat split; [apply elem_of_cons; by left|apply elem_of_cons; by right|done].
  - destruct IH as [IH|(a & b & IH & Ha & Hb & Hadj)]; [by left|].
    right. exists a, b.
    repeat split; [done|apply elem_of_cons; by right..|done].
Qed.

(** What a non-empty answer of [findTripletsAt] consists of: the tile at
    [coord] and two tiles of its value on neighbouring cells that are
    neighbours of one another. *)
Lemma findTripletsAt_shape grid coord :
  findTripletsAt grid coord = [] ∨
  ∃ centerTile a b va vb,
    findTripletsAt grid coord = [centerTile; a; b] ∧
    getTileAtCoord grid coord = Some centerTile ∧
    va ∈ DIRECTION_VECTORS ∧ vb ∈ DIRECTION_VECTORS ∧
    getTileAtCoord grid (addCoords coord va) = Some a ∧
    getTileAtCoord grid (addCoords coord vb) = Some b ∧
    value a = value centerTile ∧ value b = value centerTile ∧
    adjacent (position a) (position b) = true.
Proof.
  unfold findTripletsAt.
  destruct (getTileAtCoord grid coord) as [centerTile|] eqn:Hc; [|by left].
  set (matching := List.filter _ _).
  destruct (length matching <? 2)%nat; [by left|].
  destruct (firstAdjacentPair_shape centerTile matching)
    as [->|(a & b & -> & Ha & Hb & Hadj)]; [by left|].
  right.
  assert (∀ t, t ∈ matching → value t = value centerTile ∧
            ∃ v, v ∈ DIRECTION_VECTORS ∧
                 getTileAtCoord grid (addCoords coord v) = Some t) as Hm.
  { intros t Ht. apply list_elem_of_In, filter_In in Ht as [Ht Hv].
    apply list_elem_of_In, list_elem_of_omap in Ht as (pos & Hpos & Ht).
    split; [by apply Z.eqb_eq|].
    unfold getNeighbors in Hpos. apply list_elem_of_fmap in Hpos as (v & -> & Hv').
    eauto. }
  destruct (Hm a Ha) as (Hva & va & Hina & Hga).
  destruct (Hm b Hb) as (Hvb & vb & Hinb & Hgb).
  exists centerTile, a, b, va, vb. repeat split; done.
Qed.

Lemma findTripletsAt_length3 grid coord :
  length (findTripletsAt grid coord) = 3%nat →
  ∃ centerTile a b,
    findTripletsAt grid coord = [centerTile; a; b] ∧ position centerTile = coord.
Proof.
  destruct (findTripletsAt_shape grid coord)
    as [->|(ct & a & b & va & vb & -> & Hc & _)]; [done|].
  intros _. exists ct, a, b. split; [done|].
  by apply getTileAtCoord_Some in Hc as [_ ?].
Qed.

(** C2 (as stated) fails: on the rhombus the scan reports both triangles,
    which share two tiles. *)
Lemma findAllTriplets_rhombus_overlap : ¬ disjointTriplets (findAllTriplets rhombus).
Proof.
  intros H.
  apply (H 0%nat 1%nat
           [tileAt "a" 2 0 0; tileAt "b" 2 1 0; tileAt "c" 2 0 1]
           [tileAt "d" 2 1 1; tileAt "c" 2 0 1; tileAt "b" 2 1 0]
           (tileAt "b" 2 1 0)); [done|by vm_compute|by vm_compute|set_solver..].
Qed.

Lemma coordKey_inj a b : coordKey a = coordKey b → a = b.
Proof. destruct a, b. unfold coordKey. simpl. congruence. Qed.

Lemma claim_positions (checked : gset (Z * Z)) (triplet : list Tile) k :
  k ∈ foldl (λ s t, {[coordKey (position t)]} ∪ s) checked triplet ↔
  k ∈ checked ∨ ∃ t, t ∈ triplet ∧ k = coordKey (position t).
Proof.
  revert checked. induction triplet as [|x l IH]; intros checked; simpl.
  - set_solver.
  - rewrite IH. set_solver.
Qed.

Lemma scanStep_inv grid acc tile : scanInv acc → scanInv (scanStep grid acc tile).
Proof.
  destruct acc as [checked triplets]. intros [Hclaimed Horder].
  unfold scanStep. destruct (decide (_ ∈ checked)) as [|Hfresh]; [done|].
  destruct (length (findTripletsAt grid (position tile)) =? 3)%nat eqn:Hlen.
  - apply Nat.eqb_eq, findTripletsAt_length3 in Hlen
      as (ct & a & b & Heq & Hpos).
    rewrite Heq. split; cbn [fst snd] in *.
    + intros triplet t Hin Ht. apply claim_positions.
      apply elem_of_app in Hin as [Hin|Hin].
      * left. apply elem_of_union_r. eauto.
      * apply list_elem_of_singleton in Hin as ->. right. eauto.
    + intros i j ti tj Hij Hi Hj.
      destruct (decide (j < length triplets)%nat) as [Hlt|Hge].
      * rewrite lookup_app_l in Hi by lia. rewrite lookup_app_l in Hj by lia.
        eauto.
      * assert (j = length triplets) as ->.
        { apply lookup_lt_Some in Hj. rewrite length_app in Hj. simpl in Hj. lia. }
        rewrite lookup_app_l in Hi by lia.
        rewrite lookup_app_r, Nat.sub_diag in Hj by lia.
        injection Hj as <-. exists ct, a, b. split; [done|].
        intros t Ht Heqpos. apply Hfresh.
        rewrite <- Hpos, <- Heqpos.
        apply (Hclaimed ti t); [|done]. by eapply list_elem_of_lookup_2.
  - split; cbn [fst snd] in *; [|done].
    intros triplet t Hin Ht. apply elem_of_union_r. eauto.
Qed.

Lemma scan_foldl_inv grid tiles acc :
  scanInv acc → scanInv (foldl (scanStep grid) acc tiles).
Proof.
  revert acc. induction tiles as [|t tiles IH]; intros acc H; simpl; [done|].
  apply IH. by apply scanStep_inv.
Qed.

(** C2 (amended): in the list returned by one [findAllTriplets] scan, the
    centre tile of a triplet never lies on a position of an earlier triplet;
    only the two neighbour tiles of a later triplet may be shared with an
    earlier one. *)
Theorem findAllTriplets_centers_unclaimed grid i j ti tj :
  (i < j)%nat →
  findAllTriplets grid !! i = Some ti →
  findAllTriplets grid !! j = Some tj →
  ∃ centerTile a b,
    tj = [centerTile; a; b] ∧ ∀ t, t ∈ ti → position t ≠ position centerTile.
Proof.
  intros Hij Hi Hj.
  assert (scanInv (foldl (scanStep grid) (∅, []) grid)) as [_ H].
  { apply scan_foldl_inv. split; simpl; [set_solver|].
    intros ? ? ? ? _ Hnil. by rewrite lookup_nil in Hnil. }
  by apply (H i j).
Qed.

Lemma findAllTriplets_centers_unclaimed_witness :
  ∃ centerTile a b,
    [tileAt "d" 2 1 1; tileAt "c" 2 0 1; tileAt "b" 2 1 0] = [centerTile; a; b] ∧
    ∀ t, t ∈ [tileAt "a" 2 0 0; tileAt "b" 2 1 0; tileAt "c" 2 0 1] →
         position t ≠ position centerTile.
Proof.
  apply (findAllTriplets_centers_unclaimed rhombus 0 1); [lia|by vm_compute..].
Defined.

(** ** The merged tile lands on a consumed cell *)

Lemma adjacent_true a b :
  adjacent a b = true ↔ ∃ v, v ∈ DIRECTION_VECTORS ∧ addCoords a v = b.
Proof.
  unfold adjacent, getNeighbors. rewrite existsb_exists. split.
  - intros (n & Hin & Heq). apply coordsEqual_eq in Heq as <-.
    apply list_elem_of_In, list_elem_of_fmap in Hin as (v & -> & Hv). eauto.
  - intros (v & Hv & <-). exists (addCoords a v). split; [|apply coordsEqual_refl].
    apply list_elem_of_In, list_elem_of_fmap. eauto.
Qed.

Lemma roundThird_shift x k : roundThird (3 * x + k) = x + roundThird k.
Proof.
  unfold roundThird.
  replace (2 * (3 * x + k) + 3) with (2 * k + 3 + x * 6) by lia.
  rewrite Z.div_add by lia. lia.
Qed.

Lemma centroid_shift c va vb :
  centroid c (addCoords c va) (addCoords c vb)
  = addCoords c (mkHex (roundThird (q va + q vb)) (roundThird (r va + r vb))).
Proof.
  unfold centroid, addCoords. simpl. f_equal.
  - rewrite <- roundThird_shift. f_equal. lia.
  - rewrite <- roundThird_shift. f_equal. lia.
Qed.

(** Two neighbours of [c] that are neighbours of one another: the rounded
    barycentre of the triangle is one of its three corners. *)
Lemma centroid_corner c va vb :
  va ∈ DIRECTION_VECTORS → vb ∈ DIRECTION_VECTORS →
  adjacent (addCoords c va) (addCoords c vb) = true →
  centroid c (addCoords c va) (addCoords c vb)
  ∈ [c; addCoords c va; addCoords c vb].
Proof.
  intros Ha Hb Hadj. apply adjacent_true in Hadj as (vk & Hk & Heq).
  rewrite centroid_shift. destruct c as [cq cr].
  rewrite !elem_of_cons.
  each_direction Ha; each_direction Hb; each_direction Hk;
    unfold addCoords in *; simpl in *;
    try (injection Heq as Hq Hr; exfalso; lia);
    change (roundThird (-2)) with (-1); change (roundThird (-1)) with 0;
    change (roundThird 1) with 0; change (roundThird 2) with 1;
    rewrite ?Z.add_0_r; auto.
Qed.

(** In a list without repeated images under [f], [f] identifies the
    elements. *)
Lemma NoDup_fmap_eq {A B} (f : A → B) (l : list A) x y :
  NoDup (f <$> l) → x ∈ l → y ∈ l → f x = f y → x = y.
Proof.
  induction l as [|a l IH]; intros Hnd Hx Hy Hf; [by apply elem_of_nil in Hx|].
  rewrite fmap_cons in Hnd. apply NoDup_cons in Hnd as [Hnotin Hnd].
  apply elem_of_cons in Hx as [->|Hx]; apply elem_of_cons in Hy as [->|Hy].
  - done.
  - destruct Hnotin. rewrite Hf. by apply list_elem_of_fmap_2.
  - destruct Hnotin. rewrite <- Hf. by apply list_elem_of_fmap_2.
  - by apply IH.
Qed.

Lemma filter_elem_of {A} (f : A → bool) (l : list A) x :
  x ∈ List.filter f l ↔ x ∈ l ∧ f x = true.
Proof. rewrite !list_elem_of_In. apply filter_In. Qed.

(** The tiles of a detected triplet lie on the board, on the centre cell
    and on two of its neighbours that are adjacent to one another. *)
Lemma findTripletsAt_members grid coord t1 t2 t3 :
  findTripletsAt grid coord = [t1; t2; t3] →
  t1 ∈ grid ∧ t2 ∈ grid ∧ t3 ∈ grid ∧
  value t2 = value t1 ∧ value t3 = value t1 ∧
  position t1 = coord ∧
  ∃ va vb, va ∈ DIRECTION_VECTORS ∧ vb ∈ DIRECTION_VECTORS ∧
    position t2 = addCoords coord va ∧ position t3 = addCoords coord vb ∧
    adjacent (addCoords coord va) (addCoords coord vb) = true.
Proof.
  intros H.
  destruct (findTripletsAt_shape grid coord)
    as [Hnil|(ct & a & b & va & vb & Heq & Hc & Hva & Hvb & Ha & Hb & Hval)];
    [congruence|].
  rewrite H in Heq. injection Heq as -> -> ->.
  apply getTileAtCoord_Some in Hc as [? ?].
  apply getTileAtCoord_Some in Ha as [? Hpa].
  apply getTileAtCoord_Some in Hb as [? Hpb].
  destruct Hval as (? & ? & Hadj). rewrite Hpa, Hpb in Hadj.
  repeat split; try done. exists va, vb. repeat split; done.
Qed.

Lemma findTripletsAt_centroid grid coord t1 t2 t3 :
  findTripletsAt grid coord = [t1; t2; t3] →
  centroid (position t1) (position t2) (position t3)
    ∈ [position t1; position t2; position t3].
Proof.
  intros H.
  destruct (findTripletsAt_members _ _ _ _ _ H)
    as (_ & _ & _ & _ & _ & Hp1 & va & vb & Hva & Hvb & Hp2 & Hp3 & Hadj).
  rewrite Hp1, Hp2, Hp3. by apply centroid_corner.
Qed.

(** ** Moves and undo *)

(** The shape of a move that changed some position: the merged, respawned
    board with the pre-move snapshot appended to the history. *)
Lemma moveInDirection_moved fuel st d e c st' c' :
  snd (slideGrid (grid st) d) = true →
  moveInDirection fuel st d e c = Some (st', c') →
  ∃ mergedGrid scoreIncrease c1 newGrid,
    resolveAllMerges fuel (fst (slideGrid (grid st) d)) e c
      = Some ((mergedGrid, scoreIncrease), c1) ∧
    addRandomTile mergedGrid e c1 = Some (newGrid, c') ∧
    st' = mkGameState newGrid
            (score st + scoreIncrease)
            (Z.max (bestScore st) (score st + scoreIncrease))
            ((length (emptyCoordsOf newGrid) =? 0)%nat
               && negb (canMergeAnywhere newGrid))
            (1062882 <=? highestTile newGrid) true
            (history st ++ [mkSnapshot (grid st) (score st)])
            (undosRemaining st).
Proof.
  unfold moveInDirection.
  destruct (slideGrid (grid st) d) as [movedGrid moved]. simpl.
  intros -> H. simpl in H.
  destruct (resolveAllMerges fuel movedGrid e c)
    as [[[mergedGrid scoreIncrease] c1]|] eqn:Hr; [|done].
  simpl in H.
  destruct (addRandomTile mergedGrid e c1) as [[newGrid c2]|] eqn:Ha; [|done].
  simpl in H. injection H as <- <-.
  by exists mergedGrid, scoreIncrease, c1, newGrid.
Qed.

(** C4: undoing a move that changed some position restores the grid and
    the score of the state the move started from, spends one undo and
    clears both terminal flags. *)
Theorem undo_after_move fuel S0 d e c S1 c1 :
  0 < undosRemaining S0 →
  snd (slideGrid (grid S0) d) = true →
  moveInDirection fuel S0 d e c = Some (S1, c1) →
  grid (undoMove S1) = grid S0 ∧
  score (undoMove S1) = score S0 ∧
  undosRemaining (undoMove S1) = undosRemaining S0 - 1 ∧
  isGameOver (undoMove S1) = false ∧
  isWon (undoMove S1) = false ∧
  history (undoMove S1) = history S0.
Proof.
  intros Hundo Hmoved Hmove.
  destruct (moveInDirection_moved _ _ _ _ _ _ _ Hmoved Hmove)
    as (mergedGrid & inc & c' & newGrid & _ & _ & ->).
  unfold undoMove. cbn [canUndo history undosRemaining negb orb].
  rewrite length_app, last_snoc. cbn [length].
  replace (length (history S0) + 1 =? 0)%nat with false
    by (symmetry; apply Nat.eqb_neq; lia).
  replace (undosRemaining S0 <=? 0) with false
    by (symmetry; apply Z.leb_gt; lia).
  cbn [orb grid score undosRemaining isGameOver isWon history snap_grid snap_score].
  repeat split; try done.
  replace (length (history S0) + 1 - 1)%nat with (length (history S0)) by lia.
  by rewrite take_app_length.
Qed.

Lemma undo_after_move_witness :
  ∃ S1 c1,
    moveInDirection 2 (stateOf spreadBoard) EAST sampleEntropy start
      = Some (S1, c1) ∧
    grid (undoMove S1) = spreadBoard ∧
    score (undoMove S1) = 0 ∧
    undosRemaining (undoMove S1) = 3 - 1 ∧
    isGameOver (undoMove S1) = false ∧
    isWon (undoMove S1) = false ∧
    history (undoMove S1) = [].
Proof.
  destruct (moveInDirection 2 (stateOf spreadBoard) EAST sampleEntropy start)
    as [[S1 c1]|] eqn:Hmove; [|by vm_compute in Hmove].
  exists S1, c1. split; [done|].
  apply (undo_after_move 2 (stateOf spreadBoard) EAST sampleEntropy start S1 c1);
    [done|by vm_compute|done].
Defined.

Lemma highestTile_ge (bound : Z) grid :
  0 < bound →
  (bound <=? highestTile grid) = true ↔ ∃ t, t ∈ grid ∧ bound ≤ value t.
Proof.
  intros Hpos. unfold highestTile. rewrite Z.leb_le.
  assert (∀ acc, bound ≤ foldl (λ h t, Z.max h (value t)) acc grid ↔
                 bound ≤ acc ∨ ∃ t, t ∈ grid ∧ bound ≤ value t) as H.
  { induction grid as [|x g IH]; intros acc; simpl.
    - split; [auto|]. intros [?|(t & Ht & _)]; [done|by apply elem_of_nil in Ht].
    - rewrite IH. split.
      + intros [Hm|(t & Ht & Hb)].
        * destruct (Z.max_spec acc (value x)) as [[_ Heq]|[_ Heq]];
            rewrite Heq in Hm; [right; exists x; split; [left|done]|by left].
        * right. exists t. split; [by right|done].
      + intros [Hacc|(t & Ht & Hb)].
        * left. lia.
        * apply elem_of_cons in Ht as [->|Ht]; [left; lia|right; eauto]. }
  rewrite H. split; [intros [?|?]; [lia|done]|auto].
Qed.

(** ** Sliding *)

Lemma filter_sublist {A} (f : A → bool) (l : list A) :
  List.filter f l `sublist_of` l.
Proof.
  induction l as [|x l IH]; simpl; [constructor|].
  destruct (f x); by constructor.
Qed.

Lemma filter_fmap_NoDup {A B} (g : A → B) (f : A → bool) (l : list A) :
  NoDup (g <$> l) → NoDup (g <$> List.filter f l).
Proof.
  intros H. apply (sublist_NoDup (g <$> List.filter f l) (g <$> l)); [done|].
  apply fmap_sublist, filter_sublist.
Qed.

Lemma foldl_placeTile movedGrid moved pairs :
  foldl placeTile (movedGrid, moved) pairs
  = (movedGrid ++ (placed <$> pairs), moved || existsb changed pairs).
Proof.
  revert movedGrid moved.
  induction pairs as [|[t p] pairs IH]; intros movedGrid moved; simpl.
  - by rewrite app_nil_r, orb_false_r.
  - rewrite IH, <- app_assoc. f_equal. unfold changed at 2. simpl.
    by destruct (coordsEqual (position t) p), moved.
Qed.

Lemma slideLine_unfold movedGrid moved line :
  let tilesInLine := omap (λ coord, getTileAtCoord movedGrid coord) line in
  slideLine (movedGrid, moved) line =
    if (length tilesInLine =? 0)%nat then (movedGrid, moved)
    else
      (List.filter (λ tile, negb (hasId tilesInLine (id tile))) movedGrid
         ++ (placed <$> zip tilesInLine line),
       moved || existsb changed (zip tilesInLine line)).
Proof.
  intros tilesInLine. unfold slideLine. fold tilesInLine.
  destruct (length tilesInLine =? 0)%nat; [done|]. apply foldl_placeTile.
Qed.

Lemma getTileAtCoord_unique grid t :
  NoDup (position <$> grid) → t ∈ grid →
  getTileAtCoord grid (position t) = Some t.
Proof.
  intros Hnd Hin.
  destruct (getTileAtCoord grid (position t)) as [t'|] eqn:Hg.
  - apply getTileAtCoord_Some in Hg as [Hin' Hpos].
    f_equal. by apply (NoDup_fmap_eq position grid).
  - rewrite getTileAtCoord_None in Hg. by destruct (Hg t Hin).
Qed.

Section LineTiles.
Variable movedGrid : list Tile.
Variable line : list HexCoord.

Let tilesInLine := omap (λ coord, getTileAtCoord movedGrid coord) line.

Lemma tilesInLine_elem t :
  NoDup (position <$> movedGrid) →
  t ∈ tilesInLine ↔ t ∈ movedGrid ∧ position t ∈ line.
Proof.
  intros Hnd. unfold tilesInLine. rewrite list_elem_of_omap. split.
  - intros (p & Hp & Hg). apply getTileAtCoord_Some in Hg as [? <-]. done.
  - intros [Hin Hp]. exists (position t). split; [done|].
    by apply getTileAtCoord_unique.
Qed.

Lemma tilesInLine_positions : position <$> tilesInLine `sublist_of` line.
Proof.
  unfold tilesInLine. clear tilesInLine.
  induction line as [|p l IH]; simpl; [constructor|].
  destruct (getTileAtCoord movedGrid p) as [t|] eqn:Hg; simpl.
  - apply getTileAtCoord_Some in Hg as [_ ->]. by constructor.
  - by constructor.
Qed.

Lemma tilesInLine_length : (length tilesInLine ≤ length line)%nat.
Proof.
  rewrite <- (length_fmap position tilesInLine).
  apply sublist_length, tilesInLine_positions.
Qed.

Lemma tilesInLine_NoDup : NoDup line → NoDup (position <$> tilesInLine).
Proof.
  intros H. apply (sublist_NoDup _ line); [done|apply tilesInLine_positions].
Qed.
End LineTiles.

Lemma zip_snd_take {A B} (l : list A) (k : list B) :
  (zip l k).*2 = take (length l) k.
Proof.
  revert k. induction l as [|x l IH]; intros [|y k]; simpl; try done.
  by rewrite IH.
Qed.

Lemma zip_fst_short {A B} (l : list A) (k : list B) :
  (length l ≤ length k)%nat → (zip l k).*1 = l.
Proof.
  revert k. induction l as [|x l IH]; intros [|y k] Hle; simpl in *; try done.
  - lia.
  - rewrite IH; [done|lia].
Qed.

Lemma placed_positions pairs : position <$> (placed <$> pairs) = pairs.*2.
Proof. rewrite <- list_fmap_compose. by apply list_fmap_ext. Qed.

Lemma placed_ids pairs : id <$> (placed <$> pairs) = id <$> pairs.*1.
Proof. rewrite <- !list_fmap_compose. by apply list_fmap_ext. Qed.

Lemma slideLine_inv g0 seen acc line :
  NoDup (id <$> g0) → NoDup line →
  Forall (λ p, isValidCoord p = true) line →
  (∀ p, p ∈ line → p ∉ seen) →
  SlideInv g0 seen acc → SlideInv g0 (seen ++ line) (slideLine acc line).
Proof.
  intros Hid0 Hline Hvalid Hdisj [[Hpos Hids Hval] Horigin Hunt Hmoved Hstill].
  destruct acc as [G m]. cbn [fst snd] in *.
  rewrite slideLine_unfold. cbv zeta.
  set (T := omap (λ coord, getTileAtCoord G coord) line).
  assert (∀ t, t ∈ T ↔ t ∈ G ∧ position t ∈ line) as HT
    by (intros t; by apply tilesInLine_elem).
  destruct (length T =? 0)%nat.
  { split; cbn [fst snd]; [done|done| | |done].
    - intros u Hu Hns. apply Hunt; [done|]. intros ?. apply Hns, elem_of_app. auto.
    - intros Hm. destruct (Hmoved Hm) as (u & Hu & Hs & Hne).
      exists u. repeat split; [done| |done]. apply elem_of_app. auto. }
  set (G' := List.filter (λ tile, negb (hasId T (id tile))) G).
  set (P := placed <$> zip T line).
  assert (∀ u, u ∈ G' ↔ u ∈ G ∧ ∀ t, t ∈ T → id t ≠ id u) as HG'.
  { intros u. unfold G'. by rewrite filter_elem_of, negb_true_iff, hasId_false. }
  assert (∀ u, u ∈ G' → position u ∉ line) as HG'line.
  { intros u [Hu Hne]%HG' Hin. by apply (Hne u); [apply HT|]. }
  assert (∀ u, u ∈ G → position u ∉ line → u ∈ G') as HG'back.
  { intros u Hu Hnl. apply HG'. split; [done|].
    intros t [Ht Htl]%HT Heq.
    assert (t = u) as -> by by apply (NoDup_fmap_eq id G). done. }
  assert ((zip T line).*1 = T) as Hfst
    by apply zip_fst_short, tilesInLine_length.
  assert (∀ u, u ∈ P ↔ ∃ t p, (t, p) ∈ zip T line ∧ u = placed (t, p)) as HP.
  { intros u. unfold P. rewrite list_elem_of_fmap. split.
    - intros ([t p] & -> & Hin). eauto.
    - intros (t & p & Hin & ->). eauto. }
  assert (∀ t p, (t, p) ∈ zip T line → t ∈ G ∧ position t ∈ line ∧ p ∈ line)
    as Hzip.
  { intros t p Hin. pose proof (elem_of_zip_l _ _ _ _ Hin) as [? ?]%HT.
    pose proof (elem_of_zip_r _ _ _ _ Hin). done. }
  assert (position <$> P = take (length T) line) as HPpos.
  { unfold P. by rewrite placed_positions, zip_snd_take. }
  assert (id <$> P = id <$> T) as HPid.
  { unfold P. by rewrite placed_ids, Hfst. }
  split; cbn [fst snd].
  - split.
    + rewrite fmap_app. apply NoDup_app. split; [|split].
      * by apply filter_fmap_NoDup.
      * intros x (u & -> & Hu)%list_elem_of_fmap Hx.
        rewrite HPpos in Hx. apply (HG'line u Hu).
        eapply elem_of_sublist; [exact Hx|apply sublist_take].
      * rewrite HPpos. apply (sublist_NoDup _ line); [done|apply sublist_take].
    + rewrite fmap_app. apply NoDup_app. split; [|split].
      * by apply filter_fmap_NoDup.
      * intros x (u & -> & Hu)%list_elem_of_fmap Hx.
        rewrite HPid in Hx. apply list_elem_of_fmap in Hx as (t & Heq & Ht).
        apply HG' in Hu as [_ Hne]. by apply (Hne t).
      * rewrite HPid. apply NoDup_fmap_2_strong.
        -- intros x y [Hx _]%HT [Hy _]%HT Heq.
           by apply (NoDup_fmap_eq id G).
        -- apply (NoDup_fmap_1 position). by apply tilesInLine_NoDup.
    + apply Forall_app. split.
      * apply Forall_forall. intros u [Hu _]%HG'.
        by apply (proj1 (Forall_forall _ _) Hval).
      * apply Forall_forall. intros u (t & p & Hin & ->)%HP.
        destruct (Hzip t p Hin) as (_ & _ & Hp). simpl.
        by apply (proj1 (Forall_forall _ _) Hvalid).
  - intros u [[Hu _]%HG'|(t & p & Hin & ->)%HP]%elem_of_app; [by apply Horigin|].
    destruct (Hzip t p Hin) as (Ht & _ & _). exact (Horigin t Ht).
  - intros u [Hu|(t & p & Hin & ->)%HP]%elem_of_app Hns.
    + apply Hunt; [by apply HG' in Hu as [? _]|].
      intros ?. apply Hns, elem_of_app. auto.
    + destruct (Hzip t p Hin) as (_ & _ & Hp).
      destruct Hns. apply elem_of_app. auto.
  - intros Hm. apply orb_true_iff in Hm as [Hm|Hm].
    + destruct (Hmoved Hm) as (u & Hu & Hs & Hne).
      exists u. split; [|split; [|done]].
      * apply elem_of_app. left. apply HG'back; [done|].
        intros Hl. by apply (Hdisj _ Hl).
      * apply elem_of_app. auto.
    + apply existsb_exists in Hm as ([t p] & Hin%list_elem_of_In & Hch).
      unfold changed in Hch. cbn [fst snd] in Hch.
      apply negb_true_iff, coordsEqual_neq in Hch.
      destruct (Hzip t p Hin) as (Ht & Htl & Hp).
      exists (placed (t, p)). split; [|split].
      * apply elem_of_app. right. apply HP. eauto.
      * apply elem_of_app. auto.
      * intros u0 Hu0 Heq. simpl in *.
        assert (t ∈ g0) as Ht0 by (apply Hunt; [done|by apply Hdisj]).
        assert (u0 = t) as -> by by apply (NoDup_fmap_eq id g0). done.
  - intros [Hm Hnone]%orb_false_iff u
      [[Hu _]%HG'|(t & p & Hin & ->)%HP]%elem_of_app; [by apply Hstill|].
    destruct (Hzip t p Hin) as (Ht & _ & _).
    destruct (Hstill Hm t Ht) as (u0 & Hu0 & Hid & Hp0).
    exists u0. split; [done|]. split; [done|]. simpl. rewrite Hp0.
    assert (changed (t, p) = false) as Hch.
    { destruct (changed (t, p)) eqn:Hc; [|done].
      assert (existsb changed (zip T line) = true) as Hcontra; [|congruence].
      apply existsb_exists. exists (t, p). split; [by apply list_elem_of_In|done]. }
    unfold changed in Hch. by apply negb_false_iff, coordsEqual_eq in Hch.
Qed.

Lemma slide_lines_inv g0 lines : ∀ seen acc,
  NoDup (id <$> g0) → NoDup (seen ++ concat lines) →
  Forall (Forall (λ p, isValidCoord p = true)) lines →
  SlideInv g0 seen acc →
  SlideInv g0 (seen ++ concat lines) (foldl slideLine acc lines).
Proof.
  induction lines as [|line lines IH]; intros seen acc Hid Hnd Hvalid Hinv.
  - simpl. by rewrite app_nil_r.
  - simpl in *. rewrite app_assoc in *.
    apply Forall_cons in Hvalid as [Hv Hvs].
    pose proof Hnd as [[Hs [Hdisj Hl]]%NoDup_app _]%NoDup_app.
    apply IH; [done..|].
    apply slideLine_inv; [done..| |done].
    intros p Hp Hseen. by apply (Hdisj p).
Qed.

Lemma lines_valid d :
  Forall (Forall (λ p, isValidCoord p = true)) (getAllLines d).
Proof. destruct d; by_compute. Qed.

Lemma resetFlags_positions (g : list Tile) : position <$> (resetFlags <$> g) = position <$> g.
Proof. rewrite <- list_fmap_compose. by apply list_fmap_ext. Qed.

Lemma resetFlags_ids (g : list Tile) : id <$> (resetFlags <$> g) = id <$> g.
Proof. rewrite <- list_fmap_compose. by apply list_fmap_ext. Qed.

(** Sliding a board gives a board with the same ids and values, and when
    it reports a move some tile sits on a cell it was not on before. *)
Lemma slideGrid_inv g d :
  wfGrid g →
  SlideInv (resetFlags <$> g) (concat (getAllLines d)) (slideGrid g d).
Proof.
  intros [Hpos Hids Hval]. unfold slideGrid.
  change (map resetFlags g) with (resetFlags <$> g).
  apply (slide_lines_inv _ _ []).
  - by rewrite resetFlags_ids.
  - apply lines_NoDup.
  - apply lines_valid.
  - split; cbn [fst snd].
    + split; [by rewrite resetFlags_positions|by rewrite resetFlags_ids|].
      apply Forall_fmap. by apply (Forall_impl _ _ _ Hval).
    + intros u Hu. exists u. done.
    + done.
    + done.
    + intros _ u Hu. exists u. done.
Qed.

Lemma moveInDirection_not_moved fuel st d e c :
  snd (slideGrid (grid st) d) = false →
  moveInDirection fuel st d e c = Some (st, c).
Proof.
  unfold moveInDirection. destruct (slideGrid (grid st) d) as [movedGrid moved].
  simpl. by intros ->.
Qed.

Lemma unmovedBy_flag g d :
  wfGrid g → unmovedBy g d → snd (slideGrid g d) = false.
Proof.
  intros Hwf Hun. destruct (slideGrid_inv g d Hwf) as [_ _ _ Hmoved _].
  destruct (snd (slideGrid g d)); [|done].
  destruct (Hmoved eq_refl) as (u & Hu & _ & Hne).
  unfold unmovedBy in Hun. rewrite Forall_forall in Hun.
  apply Hun, Exists_exists in Hu as (u0 & Hu0 & Hid & Hpos).
  destruct (Hne (resetFlags u0)); [by apply list_elem_of_fmap_2|done..].
Qed.

(** On a board of the data model the [moved] flag says exactly whether
    some tile changed its cell. *)
Lemma unmovedBy_iff_flag g d :
  wfGrid g → unmovedBy g d ↔ snd (slideGrid g d) = false.
Proof.
  intros Hwf. split; [by apply unmovedBy_flag|].
  intros Hflag. destruct (slideGrid_inv g d Hwf) as [_ _ _ _ Hstill].
  apply Forall_forall. intros u Hu. apply Exists_exists.
  destruct (Hstill Hflag u Hu)
    as (u0 & (t & -> & Ht)%list_elem_of_fmap & Hid & Hpos).
  exists t. done.
Qed.

(** C5: a move whose slide changes no position returns the input state
    itself, with the same cursor into the sources of chance: nothing is
    appended to the history, nothing is spawned or merged, and score, best
    score, flags and undo budget are those of the input.  "Changes no
    position" is the [moved] flag of the slide staying false or, on a board
    of the data model, every tile of the slid grid lying on the cell it
    occupied before. *)
Theorem noop_move_returns_state fuel st d e c :
  snd (slideGrid (grid st) d) = false ∨
    (wfGrid (grid st) ∧ unmovedBy (grid st) d) →
  moveInDirection fuel st d e c = Some (st, c).
Proof.
  intros [Hflag|[Hwf Hun]]; apply moveInDirection_not_moved; [done|].
  by apply unmovedBy_flag.
Qed.

Lemma noop_move_returns_state_witness :
  findAllTriplets packedTriplet ≠ [] ∧
  moveInDirection 1 (stateOf packedTriplet) EAST sampleEntropy start
  = Some (stateOf packedTriplet, start).
Proof.
  split; [by vm_compute|].
  apply (noop_move_returns_state 1 (stateOf packedTriplet) EAST sampleEntropy start).
  right. split; [split; by_compute|by_compute].
Defined.

(** ** The board invariant *)

Lemma idsBelow_mono e c c' g :
  (stamps c ≤ stamps c')%nat → idsBelow e c g → idsBelow e c' g.
Proof.
  intros Hle H u Hu. destruct (H u Hu) as (k & Hk & Heq).
  exists k. split; [lia|done].
Qed.

Section FreshIds.
Variable e : Entropy.
Hypothesis nextId_inj : Inj (=) (=) (nextId e).

Lemma mergeTriplet_inv c g a b x g' s c' :
  wfGrid g → idsBelow e c g →
  a ∈ g → b ∈ g → x ∈ g →
  centroid (position a) (position b) (position x)
    ∈ [position a; position b; position x] →
  mergeTriplet g [a; b; x] e c = ((g', s), c') →
  wfGrid g' ∧ idsBelow e c' g' ∧ (stamps c ≤ stamps c')%nat ∧
  ∀ u, u ∈ g' → u ∈ g ∨ ∃ k, (stamps c ≤ k)%nat ∧ id u = nextId e k.
Proof.
  intros [Hpos Hids Hval] Hbelow Ha Hb Hx Hcorner. unfold mergeTriplet.
  destruct (getNextValue (value a)) as [nextValue|].
  2:{ intros [= <- <- <-]. repeat split; auto. }
  unfold gbind, freshId, gret. intros [= <- <- <-]. cbn [stamps].
  set (filtered := List.filter (λ tile, negb (hasId [a; b; x] (id tile))) g).
  set (center := centroid (position a) (position b) (position x)) in *.
  assert (∀ u, u ∈ filtered → u ∈ g ∧ ∀ t, t ∈ [a; b; x] → id t ≠ id u) as Hf.
  { intros u Hu. apply filter_elem_of in Hu as [Hu Hid].
    apply negb_true_iff in Hid. by rewrite hasId_false in Hid. }
  assert (∃ y, y ∈ [a; b; x] ∧ y ∈ g ∧ position y = center) as (y & Hy & Hyg & Hyc).
  { rewrite !elem_of_cons in Hcorner.
    destruct Hcorner as [Hc|[Hc|[Hc|Hc]]]; [..|by apply elem_of_nil in Hc].
    - exists a. split; [set_solver|done].
    - exists b. split; [set_solver|done].
    - exists x. split; [set_solver|done]. }
  split; [split|split; [|split]].
  - rewrite fmap_app. apply NoDup_app. split; [by apply filter_fmap_NoDup|].
    split; [|apply NoDup_singleton].
    intros p (u & -> & Hu)%list_elem_of_fmap Hp.
    apply list_elem_of_singleton in Hp. simpl in Hp.
    destruct (Hf u Hu) as [Hug Hne].
    assert (u = y) as -> by (apply (NoDup_fmap_eq position g); congruence).
    by apply (Hne y).
  - rewrite fmap_app. apply NoDup_app. split; [by apply filter_fmap_NoDup|].
    split; [|apply NoDup_singleton].
    intros i (u & -> & Hu)%list_elem_of_fmap Hi.
    apply list_elem_of_singleton in Hi. simpl in Hi.
    destruct (Hf u Hu) as [Hug _].
    destruct (Hbelow u Hug) as (k & Hk & Heq).
    rewrite Heq in Hi. apply nextId_inj in Hi. lia.
  - apply Forall_app. split.
    + apply Forall_forall. intros u [Hu _]%Hf.
      by apply (proj1 (Forall_forall _ _) Hval).
    + apply Forall_singleton. simpl. fold center. rewrite <- Hyc.
      by apply (proj1 (Forall_forall _ _) Hval).
  - intros u [[Hu _]%Hf| ->%list_elem_of_singleton]%elem_of_app.
    + destruct (Hbelow u Hu) as (k & Hk & Heq). exists k. simpl. split; [lia|done].
    + exists (stamps c). simpl. split; [lia|done].
  - lia.
  - intros u [[Hu _]%Hf| ->%list_elem_of_singleton]%elem_of_app; [by left|].
    right. exists (stamps c). simpl. split; [lia|done].
Qed.

(** A tile of [g0] whose id is still on the working grid is still there
    itself: fresh ids never collide with those of [g0]. *)
Lemma present_by_id g0 c0 newGrid stepScore c t :
  wfGrid g0 → idsBelow e c0 g0 →
  passInv e g0 c0 (newGrid, stepScore) c →
  t ∈ g0 → hasId newGrid (id t) = true → t ∈ newGrid.
Proof.
  intros Hwf0 Hbelow0 (_ & _ & _ & Hsrc) Ht0 Hhas. cbn [fst] in Hsrc.
  apply hasId_true in Hhas as (u & Hu & Heq).
  destruct (Hsrc u Hu) as [Hu0|(k & Hk & Hidk)].
  - assert (u = t) as -> by (by apply (NoDup_fmap_eq id g0); [apply Hwf0|..]).
    done.
  - destruct (Hbelow0 t Ht0) as (k' & Hk' & Hidk').
    rewrite Hidk, Hidk' in Heq. apply nextId_inj in Heq. lia.
Qed.

Lemma not_alreadyMerged newGrid triplet t :
  existsb (λ t, negb (hasId newGrid (id t))) triplet = false →
  t ∈ triplet → hasId newGrid (id t) = true.
Proof.
  intros Hgone Ht. destruct (hasId newGrid (id t)) eqn:Hh; [done|].
  assert (existsb (λ t, negb (hasId newGrid (id t))) triplet = true)
    as Hcontra; [|congruence].
  apply existsb_exists. exists t.
  split; [by apply list_elem_of_In|by rewrite Hh].
Qed.

Lemma passStep_inv g0 c0 acc c triplet coord acc' c' :
  wfGrid g0 → idsBelow e c0 g0 →
  length triplet = 3%nat → findTripletsAt g0 coord = triplet →
  passInv e g0 c0 acc c →
  passStep acc triplet e c = (acc', c') →
  passInv e g0 c0 acc' c'.
Proof.
  intros Hwf0 Hbelow0 Hlen Hfind Hinv.
  destruct acc as [newGrid stepScore].
  pose proof Hinv as (Hwf & Hbelow & Hle & Hsrc). cbn [fst] in *.
  destruct triplet as [|a [|b [|x [|? ?]]]]; try done.
  unfold passStep.
  destruct (existsb (λ t, negb (hasId newGrid (id t))) [a; b; x]) eqn:Hgone;
    cbn [negb].
  { intros [= <- <-]. done. }
  destruct (findTripletsAt_members _ _ _ _ _ Hfind)
    as (Ha0 & Hb0 & Hx0 & _).
  assert (∀ t, t ∈ [a; b; x] → t ∈ g0 → t ∈ newGrid) as Hstill.
  { intros t Ht Ht0. apply (present_by_id g0 c0 newGrid stepScore c); try done.
    by apply (not_alreadyMerged newGrid [a; b; x]). }
  unfold gbind.
  destruct (mergeTriplet newGrid [a; b; x] e c) as [[mergedGrid inc] c1] eqn:Hm.
  unfold gret. intros [= <- <-].
  destruct (mergeTriplet_inv c newGrid a b x mergedGrid inc c1)
    as (Hwf1 & Hbelow1 & Hle1 & Hsrc1); try done.
  - apply Hstill; [set_solver|done].
  - apply Hstill; [set_solver|done].
  - apply Hstill; [set_solver|done].
  - by apply (findTripletsAt_centroid g0 coord).
  - split; [done|]. split; [done|]. split; [cbn; lia|].
    intros u Hu. destruct (Hsrc1 u Hu) as [Hold|(k & Hk & Hidk)].
    + by apply Hsrc.
    + right. exists k. split; [lia|done].
Qed.

Lemma mergePass_inv g0 c0 triplets : ∀ acc c acc' c',
  wfGrid g0 → idsBelow e c0 g0 →
  Forall (λ triplet, length triplet = 3%nat ∧
            ∃ coord, findTripletsAt g0 coord = triplet) triplets →
  passInv e g0 c0 acc c →
  mergePass acc triplets e c = (acc', c') →
  passInv e g0 c0 acc' c'.
Proof.
  induction triplets as [|triplet rest IH];
    intros acc c acc' c' Hwf0 Hb0 Hall Hinv; simpl.
  - unfold gret. by intros [= <- <-].
  - apply Forall_cons in Hall as [[Hlen [coord Hfind]] Hall].
    unfold gbind at 1.
    destruct (passStep acc triplet e c) as [acc1 c1] eqn:Hstep.
    intros Hrest. apply (IH acc1 c1); try done.
    by apply (passStep_inv g0 c0 acc c triplet coord).
Qed.
End FreshIds.

(** Every triplet of a scan is the answer of [findTripletsAt] at some cell. *)
Lemma findAllTriplets_sound grid :
  Forall (λ triplet, length triplet = 3%nat ∧
            ∃ coord, findTripletsAt grid coord = triplet)
    (findAllTriplets grid).
Proof.
  unfold findAllTriplets.
  assert (∀ tiles acc,
            Forall (λ triplet, length triplet = 3%nat ∧
                      ∃ coord, findTripletsAt grid coord = triplet) acc.2 →
            Forall (λ triplet, length triplet = 3%nat ∧
                      ∃ coord, findTripletsAt grid coord = triplet)
              (foldl (scanStep grid) acc tiles).2) as H.
  { induction tiles as [|t tiles IH]; intros [checked triplets] Hacc; [done|].
    simpl. apply IH. destruct (decide _); [done|].
    destruct (length (findTripletsAt grid (position t)) =? 3)%nat eqn:Hlen;
      [|done].
    cbn [snd] in *. apply Forall_app. split; [done|].
    apply Forall_singleton. apply Nat.eqb_eq in Hlen. eauto. }
  apply H. constructor.
Qed.

Section Reachable.
Variable e : Entropy.
Hypothesis nextId_inj : Inj (=) (=) (nextId e).

Lemma boardInv_mono c c' g :
  (stamps c ≤ stamps c')%nat → boardInv e c g → boardInv e c' g.
Proof. intros Hle [? ?]. split; [done|by apply (idsBelow_mono e c)]. Qed.

Lemma resolveLoop_inv fuel : ∀ g total c g' s c',
  boardInv e c g →
  resolveLoop fuel g total e c = Some ((g', s), c') →
  boardInv e c' g' ∧ (stamps c ≤ stamps c')%nat.
Proof.
  induction fuel as [|fuel IH]; intros g total c g' s c' [Hwf Hbelow]; [done|].
  simpl. destruct (length (findAllTriplets g) =? 0)%nat.
  { intros [= <- <- <-]. done. }
  destruct (mergePass (g, 0) (findAllTriplets g) e c)
    as [[newGrid stepScore] c1] eqn:Hpass.
  intros Hloop.
  destruct (mergePass_inv e nextId_inj g c (findAllTriplets g)
              (g, 0) c (newGrid, stepScore) c1)
    as (Hwf1 & Hbelow1 & Hle1 & _); try done.
  { apply findAllTriplets_sound. }
  { split; [done|]. split; [done|]. split; [lia|]. intros u Hu. by left. }
  destruct (IH newGrid (total + stepScore) c1 g' s c') as [Hinv Hle2];
    [by split|done|].
  split; [done|lia].
Qed.

Lemma emptyCoordsOf_elem g p :
  p ∈ emptyCoordsOf g ↔
  isValidCoord p = true ∧ ∀ t, t ∈ g → position t ≠ p.
Proof.
  unfold emptyCoordsOf. rewrite filter_elem_of, <- valid_iff_grid.
  rewrite negb_true_iff. split; intros [Hv Hfree]; (split; [done|]).
  - intros t Ht Heq.
    assert (existsb (λ tile, coordsEqual (position tile) p) g = true)
      as Hcontra; [|congruence].
    apply existsb_exists. exists t.
    split; [by apply list_elem_of_In|by apply coordsEqual_eq].
  - destruct (existsb _ g) eqn:Hex; [|done].
    apply existsb_exists in Hex as (t & Ht%list_elem_of_In & Heq%coordsEqual_eq).
    by destruct (Hfree t Ht).
Qed.

Lemma addRandomTile_inv c g g' c' :
  boardInv e c g → addRandomTile g e c = Some (g', c') →
  boardInv e c' g' ∧ (stamps c ≤ stamps c')%nat.
Proof.
  intros [[Hpos Hids Hval] Hbelow]. unfold addRandomTile.
  destruct (length (emptyCoordsOf g) =? 0)%nat.
  { intros [= <- <-]. done. }
  unfold mathRandom, freshId. cbn [draws stamps].
  destruct (lookupZ (emptyCoordsOf g) _) as [p|] eqn:Hlook; [|done].
  simpl. intros [= <- <-]. cbn [stamps].
  assert (p ∈ emptyCoordsOf g) as [Hvalid Hfree]%emptyCoordsOf_elem.
  { unfold lookupZ in Hlook. destruct (_ <? 0); [done|].
    by eapply list_elem_of_lookup_2. }
  split; [|lia]. split; [split|].
  - rewrite fmap_app. apply NoDup_app. split; [done|].
    split; [|apply NoDup_singleton].
    intros p' (u & -> & Hu)%list_elem_of_fmap Hp%list_elem_of_singleton.
    by apply (Hfree u).
  - rewrite fmap_app. apply NoDup_app. split; [done|].
    split; [|apply NoDup_singleton].
    intros i (u & -> & Hu)%list_elem_of_fmap Hi%list_elem_of_singleton.
    simpl in Hi. destruct (Hbelow u Hu) as (k & Hk & Heq).
    rewrite Heq in Hi. apply nextId_inj in Hi. lia.
  - apply Forall_app. split; [done|]. by apply Forall_singleton.
  - intros u [Hu| ->%list_elem_of_singleton]%elem_of_app.
    + destruct (Hbelow u Hu) as (k & Hk & Heq). exists k. simpl.
      split; [lia|done].
    + exists (stamps c). simpl. split; [lia|done].
Qed.

Lemma addRandomTiles_inv n : ∀ c g g' c',
  boardInv e c g → addRandomTiles n g e c = Some (g', c') →
  boardInv e c' g' ∧ (stamps c ≤ stamps c')%nat.
Proof.
  induction n as [|n IH]; intros c g g' c' Hinv; simpl.
  { intros [= <- <-]. done. }
  destruct (addRandomTile g e c) as [[g1 c1]|] eqn:Hadd; [|done]. simpl.
  intros Hrest.
  destruct (addRandomTile_inv _ _ _ _ Hinv Hadd) as [Hinv1 Hle1].
  destruct (IH _ _ _ _ Hinv1 Hrest) as [Hinv2 Hle2]. split; [done|lia].
Qed.
Lemma slideGrid_boardInv c g d :
  boardInv e c g → boardInv e c (fst (slideGrid g d)).
Proof.
  intros [Hwf Hbelow]. destruct (slideGrid_inv g d Hwf) as [Hwf' Horigin _ _ _].
  split; [done|]. intros u Hu.
  destruct (Horigin u Hu) as (u0 & (t & -> & Ht)%list_elem_of_fmap & Hid & _).
  destruct (Hbelow t Ht) as (k & Hk & Heq). exists k. split; [done|].
  by rewrite <- Hid.
Qed.

Lemma stateInv_mono c c' st :
  (stamps c ≤ stamps c')%nat → stateInv e c st → stateInv e c' st.
Proof.
  intros Hle [Hg Hh]. split; [by apply (boardInv_mono c)|].
  apply (Forall_impl _ _ _ Hh). intros snap. by apply boardInv_mono.
Qed.

Lemma initializeGameState_inv c st c' :
  initializeGameState e c = Some (st, c') → stateInv e c' st.
Proof.
  unfold initializeGameState.
  destruct (addRandomTiles 5 initializeGrid e c) as [[g c1]|] eqn:Hadd; [|done].
  simpl. intros [= <- <-].
  destruct (addRandomTiles_inv 5 c initializeGrid g c1) as [Hinv _]; [|done|].
  - split; [split; [constructor..]|]. intros u Hu. by apply elem_of_nil in Hu.
  - split; [done|constructor].
Qed.

Lemma moveInDirection_inv fuel st d c st' c' :
  stateInv e c st → moveInDirection fuel st d e c = Some (st', c') →
  stateInv e c' st'.
Proof.
  intros [Hg Hh] Hmove.
  destruct (snd (slideGrid (grid st) d)) eqn:Hmoved.
  - destruct (moveInDirection_moved _ _ _ _ _ _ _ Hmoved Hmove)
      as (mergedGrid & inc & c1 & newGrid & Hres & Hadd & ->).
    destruct (resolveLoop_inv fuel _ _ _ _ _ _ (slideGrid_boardInv c _ d Hg) Hres)
      as [Hinv1 Hle1].
    destruct (addRandomTile_inv _ _ _ _ Hinv1 Hadd) as [Hinv2 Hle2].
    assert (stamps c ≤ stamps c')%nat as Hle by lia.
    split; cbn [grid history]; [done|].
    apply Forall_app. split.
    + apply (Forall_impl _ _ _ Hh). intros snap. by apply boardInv_mono.
    + apply Forall_singleton. simpl. by apply (boardInv_mono c).
  - rewrite (moveInDirection_not_moved _ _ _ _ _ Hmoved) in Hmove.
    by injection Hmove as <- <-.
Qed.

Lemma undoMove_inv c st : stateInv e c st → stateInv e c (undoMove st).
Proof.
  intros [Hg Hh]. unfold undoMove.
  destruct (_ || _); [done|].
  destruct (last (history st)) as [lastState|] eqn:Hlast; [|done].
  split; cbn [grid history].
  - apply last_Some_elem_of in Hlast.
    by apply (proj1 (Forall_forall _ _) Hh).
  - by apply Forall_take.
Qed.

Lemma resetGame_inv c st st' c' :
  resetGame st e c = Some (st', c') → stateInv e c' st'.
Proof.
  unfold resetGame.
  destruct (initializeGameState e c) as [[st1 c1]|] eqn:Hinit; [|done].
  simpl. intros [= <- <-].
  by destruct (initializeGameState_inv _ _ _ Hinit).
Qed.

Lemma reachable_inv st c : reachable e st c → stateInv e c st.
Proof.
  induction 1 as [c st c' Hinit|fuel st c d st' c' _ IH Hmove|st c _ IH
                 |st c st' c' _ _ Hreset|st c undoLimit _ IH].
  - by apply (initializeGameState_inv c).
  - by apply (moveInDirection_inv fuel st d c).
  - by apply undoMove_inv.
  - by apply (resetGame_inv c st).
  - done.
Qed.

Lemma wfGrid_count g :
  wfGrid g → (length g ≤ length getAllGridCoords)%nat.
Proof.
  intros [Hpos _ Hval]. rewrite <- (length_fmap position g).
  apply submseteq_length, NoDup_submseteq; [done|].
  intros p (u & -> & Hu)%list_elem_of_fmap. apply valid_iff_grid.
  by apply (proj1 (Forall_forall _ _) Hval).
Qed.

(** C8: provided the id template never produces an id twice, in every
    game state produced from [initializeGameState] by moves, undos and
    resets, whatever the spawn draws, no two tiles share a position, every
    tile is on a valid grid coordinate, and the number of tiles does not
    exceed 37; it does not even exceed the 19 coordinates the grid has.
    Without the proviso the invariant fails: a repeated id can put two
    tiles on one cell. *)
Theorem reachable_board_invariant st c :
  reachable e st c →
  NoDup (position <$> grid st) ∧
  Forall (λ t, isValidCoord (position t) = true) (grid st) ∧
  (length (grid st) ≤ TOTAL_TILES)%nat ∧
  (length (grid st) ≤ length getAllGridCoords)%nat.
Proof.
  intros [[Hwf _] _]%reachable_inv.
  pose proof (wfGrid_count _ Hwf) as Hcount.
  destruct Hwf as [Hpos _ Hval]. repeat split; try done.
  change (length getAllGridCoords) with 19%nat in Hcount.
  unfold TOTAL_TILES. lia.
Qed.

End Reachable.

Lemma sampleEntropy_inj : Inj (=) (=) (nextId sampleEntropy).
Proof.
  intros a b H. simpl in H. injection H as H. by apply (inj pretty).
Qed.

Lemma reachable_board_invariant_witness :
  ∃ st c st' c',
    initializeGameState sampleEntropy start = Some (st, c) ∧
    moveInDirection 3 st NORTHEAST sampleEntropy c = Some (st', c') ∧
    NoDup (position <$> grid st') ∧
    Forall (λ t, isValidCoord (position t) = true) (grid st') ∧
    (length (grid st') ≤ TOTAL_TILES)%nat ∧
    (length (grid st') ≤ length getAllGridCoords)%nat.
Proof.
  destruct (initializeGameState sampleEntropy start) as [[st c]|] eqn:Hinit;
    [|by vm_compute in Hinit].
  destruct (moveInDirection 3 st NORTHEAST sampleEntropy c) as [[st' c']|] eqn:Hmove.
  2:{ vm_compute in Hinit. injection Hinit as <- <-. by vm_compute in Hmove. }
  exists st, c, st', c'. split; [done|]. split; [done|].
  apply (reachable_board_invariant sampleEntropy sampleEntropy_inj st' c').
  apply (reach_move sampleEntropy 3 st c NORTHEAST); [|done].
  by apply (reach_init sampleEntropy start).
Defined.

(** *** The spawn step always finds its cell

    With [Math.random()] in [0, 1), as its contract says, the drawn index
    lies inside [emptyCoords]; the [None] of [addRandomTile] does not
    occur. *)

Lemma randomIndex_range (u : Q) (n : nat) :
  (0 <= u)%Q → (u < 1)%Q → (0 < n)%nat →
  0 ≤ Qfloor (u * inject_Z (Z.of_nat n)) < Z.of_nat n.
Proof.
  intros H0 H1 Hn.
  assert (0 < inject_Z (Z.of_nat n))%Q as Hpos
    by (rewrite <- (Zlt_Qlt 0); lia).
  split.
  - change 0 with (Qfloor 0). apply Qfloor_resp_le.
    apply Qmult_le_0_compat; [done|by apply Qlt_le_weak].
  - rewrite Zlt_Qlt. eapply Qle_lt_trans; [apply Qfloor_le|].
    rewrite <- (Qmult_1_l (inject_Z (Z.of_nat n))) at 2.
    by apply Qmult_lt_compat_r.
Qed.

Lemma addRandomTile_total e c g :
  unitRange e → ∃ g' c', addRandomTile g e c = Some (g', c').
Proof.
  intros Hunit. unfold addRandomTile.
  destruct (length (emptyCoordsOf g) =? 0)%nat eqn:Hlen; [eauto|].
  apply Nat.eqb_neq in Hlen.
  unfold mathRandom, freshId. cbn [draws stamps].
  destruct (Hunit (draws c)) as [H0 H1].
  destruct (randomIndex_range (random e (draws c)) (length (emptyCoordsOf g)))
    as [Hlo Hhi]; [done|done|lia|].
  unfold lookupZ. replace (_ <? 0) with false by (symmetry; apply Z.ltb_ge; lia).
  destruct (emptyCoordsOf g !! _) as [p|] eqn:Hlook; simpl; [eauto|].
  apply lookup_ge_None in Hlook. lia.
Qed.

(** ** Merging one triplet *)

Lemma adjacent_neq a b : adjacent a b = true → a ≠ b.
Proof.
  intros (v & Hv & <-)%adjacent_true Heq. destruct a as [aq ar].
  each_direction Hv; unfold addCoords in Heq; simpl in Heq;
    injection Heq as Hq Hr; lia.
Qed.

Lemma adjacent_sym a b : adjacent a b = true → adjacent b a = true.
Proof.
  intros (v & Hv & <-)%adjacent_true. apply adjacent_true.
  exists (negCoord v). destruct a as [aq ar].
  split; [each_direction Hv; by_compute|].
  unfold addCoords, negCoord. simpl. f_equal; lia.
Qed.

Lemma adjacent_neighbors a b : adjacent a b = true ↔ b ∈ getNeighbors a.
Proof.
  rewrite adjacent_true. unfold getNeighbors.
  change (map (λ dir, addCoords a dir) DIRECTION_VECTORS)
    with ((λ dir, addCoords a dir) <$> DIRECTION_VECTORS).
  rewrite list_elem_of_fmap. split.
  - intros (v & Hv & <-). eauto.
  - intros (v & -> & Hv). eauto.
Qed.

Lemma getNeighbors_NoDup a : NoDup (getNeighbors a).
Proof.
  unfold getNeighbors.
  change (map (λ dir, addCoords a dir) DIRECTION_VECTORS)
    with ((λ dir, addCoords a dir) <$> DIRECTION_VECTORS).
  apply NoDup_fmap_2; [|by_compute].
  intros [xq xr] [yq yr] Heq. unfold addCoords in Heq. simpl in Heq.
  injection Heq as Hq Hr. f_equal; lia.
Qed.

Lemma hasId_self tiles t : t ∈ tiles → hasId tiles (id t) = true.
Proof. intros H. apply hasId_true. eauto. Qed.

Lemma three_distinct t1 t2 t3 :
  mutuallyAdjacent (position t1) (position t2) (position t3) →
  NoDup (position <$> [t1; t2; t3]).
Proof.
  intros (H12%adjacent_neq & H13%adjacent_neq & H23%adjacent_neq).
  simpl. repeat constructor; set_solver.
Qed.

Lemma mergeTriplet_three t1 t2 t3 V V' e c grid :
  value t1 = V → getNextValue V = Some V' →
  mergeTriplet grid [t1; t2; t3] e c
  = ((survivors t1 t2 t3 grid ++ [mergedTile t1 t2 t3 V' e c], 3 * V),
     afterMerge c).
Proof.
  intros Hv Hnext. unfold mergeTriplet. rewrite Hv, Hnext.
  unfold gbind, freshId, gret, survivors, mergedTile, afterMerge.
  by rewrite (Z.mul_comm V 3).
Qed.

Lemma survivors_Permutation t1 t2 t3 grid :
  mutuallyAdjacent (position t1) (position t2) (position t3) →
  NoDup (id <$> grid) → t1 ∈ grid → t2 ∈ grid → t3 ∈ grid →
  grid ≡ₚ [t1; t2; t3] ++ survivors t1 t2 t3 grid.
Proof.
  intros Hadj Hids H1 H2 H3.
  assert (∀ t, t ∈ [t1; t2; t3] → t ∈ grid) as Hsub by set_solver.
  assert (∀ u, u ∈ survivors t1 t2 t3 grid ↔
               u ∈ grid ∧ ∀ t, t ∈ [t1; t2; t3] → id t ≠ id u) as Hsurv.
  { intros u. unfold survivors.
    by rewrite filter_elem_of, negb_true_iff, hasId_false. }
  apply NoDup_Permutation.
  - by apply (NoDup_fmap_1 id).
  - apply NoDup_app. split; [|split].
    + apply (NoDup_fmap_1 position). by apply three_distinct.
    + intros t Ht [_ Hne]%Hsurv. by apply (Hne t).
    + apply (sublist_NoDup _ grid); [by apply (NoDup_fmap_1 id)|].
      apply filter_sublist.
  - intros u. rewrite elem_of_app, Hsurv. split.
    + intros Hu. destruct (hasId [t1; t2; t3] (id u)) eqn:Hh.
      * left. apply hasId_true in Hh as (t & Ht & Heq).
        assert (t = u) as <- by (apply (NoDup_fmap_eq id grid); auto). done.
      * right. split; [done|]. by apply hasId_false.
    + intros [Ht|[Hu _]]; auto.
Qed.

Lemma passStep_three t1 t2 t3 V V' e c grid stepScore :
  value t1 = V → getNextValue V = Some V' →
  t1 ∈ grid → t2 ∈ grid → t3 ∈ grid →
  passStep (grid, stepScore) [t1; t2; t3] e c
  = ((survivors t1 t2 t3 grid ++ [mergedTile t1 t2 t3 V' e c],
      stepScore + 3 * V), afterMerge c).
Proof.
  intros Hv Hnext H1 H2 H3. unfold passStep. cbn [existsb].
  rewrite !hasId_self by done. cbn [negb orb].
  unfold gbind. by rewrite (mergeTriplet_three t1 t2 t3 V V').
Qed.

(** *** A board of exactly three mutually adjacent equal tiles *)

Lemma scanStep_hit grid checked triplets tile triplet :
  coordKey (position tile) ∉ checked →
  findTripletsAt grid (position tile) = triplet → length triplet = 3%nat →
  scanStep grid (checked, triplets) tile
  = (foldl (λ s t, {[coordKey (position t)]} ∪ s)
       ({[coordKey (position tile)]} ∪ checked) triplet,
     triplets ++ [triplet]).
Proof.
  intros Hfresh Hfind Hlen. unfold scanStep.
  rewrite decide_False by done. by rewrite Hfind, Hlen.
Qed.

Lemma scanStep_skip grid checked triplets tile :
  coordKey (position tile) ∈ checked →
  scanStep grid (checked, triplets) tile = (checked, triplets).
Proof. intros Hin. unfold scanStep. by rewrite decide_True. Qed.

Lemma findTripletsAt_three t1 t2 t3 V :
  value t1 = V → value t2 = V → value t3 = V →
  mutuallyAdjacent (position t1) (position t2) (position t3) →
  findTripletsAt [t1; t2; t3] (position t1) = [t1; t2; t3] ∨
  findTripletsAt [t1; t2; t3] (position t1) = [t1; t3; t2].
Proof.
  intros Hv1 Hv2 Hv3 Hadj. pose proof (three_distinct _ _ _ Hadj) as Hnd.
  destruct Hadj as (H12 & H13 & H23).
  unfold findTripletsAt.
  rewrite getTileAtCoord_unique by (done || set_solver).
  set (found := omap (λ pos, getTileAtCoord [t1; t2; t3] pos)
                  (getNeighbors (position t1))).
  set (matching := List.filter (λ tile, value tile =? value t1) found).
  assert (matching ≡ₚ [t2; t3]) as Hperm.
  { apply NoDup_Permutation.
    - apply (sublist_NoDup _ found); [|apply filter_sublist].
      apply (NoDup_fmap_1 position), tilesInLine_NoDup, getNeighbors_NoDup.
    - apply (NoDup_fmap_1 position). simpl in *. by apply NoDup_cons in Hnd as [_ ?].
    - intros u. unfold matching, found.
      rewrite filter_elem_of, tilesInLine_elem, <- adjacent_neighbors, Z.eqb_eq
        by done.
      rewrite !elem_of_cons, elem_of_nil. split.
      + intros [[[->|[->|[->|[]]]] Ha] _]; auto.
        by apply adjacent_neq in Ha.
      + intros [->|[->|[]]]; (split; [split; [auto|done]|congruence]). }
  apply Permutation_sym, Permutation_length_2_inv in Hperm as [-> | ->].
  - left. simpl. by rewrite H23.
  - right. simpl. by rewrite (adjacent_sym _ _ H23).
Qed.

Lemma findTripletsAt_few grid coord :
  (length grid < 3)%nat → findTripletsAt grid coord = [].
Proof.
  intros Hlen.
  destruct (findTripletsAt_shape grid coord)
    as [->|(ct & a & b & va & vb & _ & Hc & Hva & Hvb & Ha & Hb & _ & _ & Hadj)];
    [done|].
  apply getTileAtCoord_Some in Hc as [Hc Hpc].
  apply getTileAtCoord_Some in Ha as [Ha Hpa].
  apply getTileAtCoord_Some in Hb as [Hb Hpb].
  assert (NoDup [ct; a; b]) as Hnd.
  { assert (adjacent (position ct) (position a) = true) as Hca.
    { apply adjacent_true. exists va. by rewrite Hpc, Hpa. }
    assert (adjacent (position ct) (position b) = true) as Hcb.
    { apply adjacent_true. exists vb. by rewrite Hpc, Hpb. }
    apply (NoDup_fmap_1 position), three_distinct. done. }
  assert ([ct; a; b] ⊆+ grid) as Hsub
    by (apply NoDup_submseteq; [done|set_solver]).
  apply submseteq_length in Hsub. simpl in Hsub. lia.
Qed.

Lemma findAllTriplets_few grid :
  (length grid < 3)%nat → findAllTriplets grid = [].
Proof.
  intros Hlen. pose proof (findAllTriplets_sound grid) as Hsound.
  destruct (findAllTriplets grid) as [|triplet rest]; [done|].
  apply Forall_cons in Hsound as [[Hl [coord Hf]] _].
  rewrite findTripletsAt_few in Hf by done. by subst.
Qed.

Lemma centroid_swap p1 p2 p3 : centroid p1 p3 p2 = centroid p1 p2 p3.
Proof. unfold centroid. f_equal; f_equal; lia. Qed.

Lemma resolveAllMerges_three t1 t2 t3 V V' e c fuel :
  value t1 = V → value t2 = V → value t3 = V →
  mutuallyAdjacent (position t1) (position t2) (position t3) →
  getNextValue V = Some V' →
  (2 ≤ fuel)%nat →
  resolveAllMerges fuel [t1; t2; t3] e c
  = Some (([mergedTile t1 t2 t3 V' e c], 3 * V), afterMerge c).
Proof.
  intros Hv1 Hv2 Hv3 Hadj Hnext Hfuel.
  destruct fuel as [|[|fuel]]; [lia..|].
  assert (∃ triplet,
            findAllTriplets [t1; t2; t3] = [triplet] ∧
            passStep ([t1; t2; t3], 0) triplet e c
            = (([mergedTile t1 t2 t3 V' e c], 0 + 3 * V), afterMerge c))
    as (triplet & Hscan & Hstep).
  { assert (∀ triplet,
              findTripletsAt [t1; t2; t3] (position t1) = triplet →
              (∀ t, t ∈ [t1; t2; t3] → t ∈ triplet) → length triplet = 3%nat →
              findAllTriplets [t1; t2; t3] = [triplet]) as Hscan.
    { intros triplet Hfind Hall Hlen. unfold findAllTriplets. cbn [foldl].
      rewrite (scanStep_hit _ _ _ _ triplet) by (done || set_solver).
      rewrite !scanStep_skip; [done|..];
        apply claim_positions; right; [exists t3|exists t2];
        (split; [apply Hall; set_solver|done]). }
    destruct (findTripletsAt_three t1 t2 t3 V) as [Hfind|Hfind]; try done.
    - exists [t1; t2; t3]. split; [apply Hscan; [done|set_solver|done]|].
      rewrite (passStep_three t1 t2 t3 V V') by (done || set_solver).
      unfold survivors. cbn [List.filter].
      by rewrite !hasId_self by set_solver.
    - exists [t1; t3; t2]. split; [apply Hscan; [done|set_solver|done]|].
      rewrite (passStep_three t1 t3 t2 V V') by (done || set_solver).
      unfold survivors, mergedTile. cbn [List.filter].
      rewrite !hasId_self by set_solver. by rewrite centroid_swap. }
  unfold resolveAllMerges. cbn [resolveLoop]. rewrite Hscan. cbn [length Nat.eqb].
  cbn [mergePass]. unfold gbind at 1. rewrite Hstep. unfold gret at 1.
  rewrite findAllTriplets_few by (simpl; lia). cbn [length Nat.eqb].
  reflexivity.
Qed.

Lemma indexOf_Some v l i : indexOf v l = Some i → l !! i = Some v.
Proof.
  revert i. induction l as [|x l IH]; intros i; simpl; [done|].
  destruct (x =? v) eqn:Hx.
  - intros [= <-]. apply Z.eqb_eq in Hx. by subst.
  - destruct (indexOf v l) as [j|]; simpl; [|done].
    intros [= <-]. by apply IH.
Qed.

(** [getNextValue] steps to the following entry of the progression. *)
Lemma getNextValue_Some V V' :
  getNextValue V = Some V' →
  ∃ i, TILE_VALUES !! i = Some V ∧ TILE_VALUES !! S i = Some V'.
Proof.
  unfold getNextValue.
  destruct (indexOf V TILE_VALUES) as [i|] eqn:Hi; [|done].
  destruct (i =? _)%nat; [done|]. intros H. exists i.
  split; [by apply indexOf_Some|]. by rewrite Nat.add_1_r in H.
Qed.

(** ** When the merge loop returns

    On a board of the data model a pass that merges anything removes two
    tiles, so the loop of [resolveAllMerges] returns within as many passes
    as the board has tiles, unless it comes to a board all of whose
    triplets are inert; from there it never returns. *)

Lemma resolveLoop_mono fuel : ∀ fuel' g total e c res,
  (fuel ≤ fuel')%nat →
  resolveLoop fuel g total e c = Some res →
  resolveLoop fuel' g total e c = Some res.
Proof.
  induction fuel as [|fuel IH]; intros fuel' g total e c res Hle; [done|].
  destruct fuel' as [|fuel']; [lia|]. simpl.
  destruct (length (findAllTriplets g) =? 0)%nat; [done|].
  destruct (mergePass (g, 0) (findAllTriplets g) e c) as [[newGrid stepScore] c1].
  apply IH. lia.
Qed.

Lemma triplet_adjacent grid coord a b x :
  findTripletsAt grid coord = [a; b; x] →
  mutuallyAdjacent (position a) (position b) (position x).
Proof.
  intros H.
  destruct (findTripletsAt_members _ _ _ _ _ H)
    as (_ & _ & _ & _ & _ & Hp1 & va & vb & Hva & Hvb & Hp2 & Hp3 & Hadj).
  rewrite Hp1, Hp2, Hp3.
  split; [|split; [|done]]; apply adjacent_true; eauto.
Qed.

Lemma passStep_inert grid stepScore triplet e c :
  inert triplet → ∃ s, passStep (grid, stepScore) triplet e c = ((grid, s), c).
Proof.
  intros Hin. unfold passStep. destruct (negb _); [|by exists stepScore].
  unfold gbind. rewrite (mergeTriplet_inert _ _ _ _ Hin). unfold gret. eauto.
Qed.

Section MergeTermination.
Variable e : Entropy.
Hypothesis nextId_inj : Inj (=) (=) (nextId e).

Lemma passStep_length g0 c0 acc c triplet coord acc' c' :
  wfGrid g0 → idsBelow e c0 g0 →
  length triplet = 3%nat → findTripletsAt g0 coord = triplet →
  passInv e g0 c0 acc c →
  passStep acc triplet e c = (acc', c') →
  (length acc'.1 ≤ length acc.1)%nat ∧
  (¬ inert triplet → acc.1 = g0 → (length acc'.1 < length g0)%nat).
Proof.
  intros Hwf0 Hbelow0 Hlen Hfind Hinv.
  destruct acc as [newGrid stepScore].
  pose proof Hinv as (Hwf & _). cbn [fst] in *.
  destruct triplet as [|a [|b [|x [|? ?]]]]; try done.
  destruct (findTripletsAt_members _ _ _ _ _ Hfind) as (Ha0 & Hb0 & Hx0 & _).
  unfold passStep.
  destruct (existsb (λ t, negb (hasId newGrid (id t))) [a; b; x]) eqn:Hgone;
    cbn [negb].
  { unfold gret. intros [= <- <-]. cbn [fst]. split; [done|].
    intros _ ->. apply existsb_exists in Hgone as (t & Ht%list_elem_of_In & Hno).
    apply negb_true_iff in Hno.
    rewrite hasId_self in Hno; [done|]. set_solver. }
  assert (∀ t, t ∈ [a; b; x] → t ∈ g0 → t ∈ newGrid) as Hstill.
  { intros t Ht Ht0. apply (present_by_id e nextId_inj g0 c0 newGrid stepScore c);
      try done.
    by apply (not_alreadyMerged newGrid [a; b; x]). }
  unfold gbind.
  destruct (getNextValue (value a)) as [V'|] eqn:Hnext.
  2:{ rewrite (mergeTriplet_inert newGrid [a; b; x]) by done.
      unfold gret. intros [= <- <-]. cbn [fst]. split; [done|].
      intros Hni. by destruct Hni. }
  rewrite (mergeTriplet_three a b x (value a) V' e c newGrid eq_refl Hnext).
  unfold gret. intros [= <- <-]. cbn [fst].
  pose proof (survivors_Permutation a b x newGrid
                (triplet_adjacent _ _ _ _ _ Hfind) (wf_ids _ Hwf)) as Hperm.
  apply Permutation_length in Hperm;
    [|apply Hstill; [set_solver|done]..].
  rewrite length_app in Hperm. cbn [length] in Hperm.
  rewrite length_app. cbn [length].
  split; [lia|]. intros _ <-. lia.
Qed.

Lemma mergePass_progress g0 c0 triplets : ∀ acc c acc' c',
  wfGrid g0 → idsBelow e c0 g0 →
  Forall (λ triplet, length triplet = 3%nat ∧
            ∃ coord, findTripletsAt g0 coord = triplet) triplets →
  passInv e g0 c0 acc c →
  mergePass acc triplets e c = (acc', c') →
  (length acc'.1 ≤ length acc.1)%nat ∧
  (¬ Forall inert triplets → acc.1 = g0 → (length acc'.1 < length g0)%nat).
Proof.
  induction triplets as [|triplet rest IH];
    intros acc c acc' c' Hwf0 Hb0 Hall Hinv; simpl.
  - unfold gret. intros [= <- <-]. split; [done|]. intros Hni. by destruct Hni.
  - apply Forall_cons in Hall as [[Hlen [coord Hfind]] Hall].
    unfold gbind at 1.
    destruct (passStep acc triplet e c) as [acc1 c1] eqn:Hstep.
    intros Hrest.
    pose proof (passStep_inv e nextId_inj g0 c0 acc c triplet coord acc1 c1
                  Hwf0 Hb0 Hlen Hfind Hinv Hstep) as Hinv1.
    destruct (passStep_length g0 c0 acc c triplet coord acc1 c1
                Hwf0 Hb0 Hlen Hfind Hinv Hstep) as [Hle1 Hlt1].
    destruct (IH acc1 c1 acc' c' Hwf0 Hb0 Hall Hinv1 Hrest) as [Hle2 Hlt2].
    split; [lia|]. intros Hni Hg0.
    destruct (decide (inert triplet)) as [Hin|Hnin].
    + destruct acc as [g s].
      destruct (passStep_inert g s triplet e c Hin) as [s' Hsame].
      rewrite Hsame in Hstep. injection Hstep as <- <-.
      apply Hlt2; [|done]. intros Hrest_inert. apply Hni. by constructor.
    + specialize (Hlt1 Hnin Hg0). lia.
Qed.

(** The merge loop either returns within [S (length g)] passes or never. *)
Lemma resolveLoop_returns_or_never n : ∀ g total c,
  (length g ≤ n)%nat → boardInv e c g →
  (∃ res, resolveLoop (S n) g total e c = Some res) ∨
  (∀ fuel, resolveLoop fuel g total e c = None).
Proof.
  induction n as [|n IH]; intros g total c Hlen [Hwf Hbelow].
  - left. destruct g; [|simpl in Hlen; lia]. simpl. eauto.
  - destruct (findAllTriplets g) as [|t ts] eqn:Hts.
    { left. simpl. rewrite Hts. simpl. eauto. }
    destruct (decide (Forall inert (findAllTriplets g))) as [Hin|Hnin].
    { right. intros fuel. apply resolveLoop_inert; [by rewrite Hts|done]. }
    destruct (mergePass (g, 0) (findAllTriplets g) e c)
      as [[newGrid stepScore] c1] eqn:Hpass.
    assert (passInv e g c (g, 0) c) as Hinv0.
    { split; [done|]. split; [done|]. split; [lia|]. intros u Hu. by left. }
    destruct (mergePass_inv e nextId_inj g c (findAllTriplets g)
                (g, 0) c (newGrid, stepScore) c1)
      as (Hwf1 & Hbelow1 & _); try done; [apply findAllTriplets_sound|].
    destruct (mergePass_progress g c (findAllTriplets g)
                (g, 0) c (newGrid, stepScore) c1) as [_ Hlt]; try done;
      [apply findAllTriplets_sound|].
    specialize (Hlt Hnin eq_refl). cbn [fst] in *.
    assert (∀ fuel, resolveLoop (S fuel) g total e c
                    = resolveLoop fuel newGrid (total + stepScore) e c1) as Hstep.
    { intros fuel. simpl. rewrite Hts at 1. simpl. by rewrite Hpass. }
    destruct (IH newGrid (total + stepScore) c1) as [[res Hres]|Hnever];
      [lia|by split|..].
    + left. exists res. by rewrite Hstep.
    + right. intros [|fuel]; [done|]. by rewrite Hstep.
Qed.

(** On a board of the data model [resolveAllMerges] either returns for
    every bound above the number of tiles or for none. *)
Lemma resolveAllMerges_returns_or_never g c :
  boardInv e c g →
  (∃ res, ∀ fuel, (length g < fuel)%nat →
     resolveAllMerges fuel g e c = Some res) ∨
  (∀ fuel, resolveAllMerges fuel g e c = None).
Proof.
  intros Hinv. unfold resolveAllMerges.
  destruct (resolveLoop_returns_or_never (length g) g 0 c) as [[res Hres]|Hnever];
    [done|done|..].
  - left. exists res. intros fuel Hfuel.
    apply (resolveLoop_mono (S (length g))); [lia|done].
  - by right.
Qed.

(** A move returns exactly when its merge loop does: the slide and the
    spawn step always return. *)
Lemma moveInDirection_returns_or_never st d c :
  boardInv e c (grid st) → unitRange e →
  (∃ res, ∀ fuel, (length (slideGrid (grid st) d).1 < fuel)%nat →
     moveInDirection fuel st d e c = Some res) ∨
  (∀ fuel, moveInDirection fuel st d e c = None).
Proof.
  intros Hinv Hunit.
  destruct (snd (slideGrid (grid st) d)) eqn:Hmoved.
  2:{ left. exists (st, c). intros fuel _. by apply moveInDirection_not_moved. }
  pose proof (slideGrid_boardInv e c (grid st) d Hinv) as Hslid.
  assert (∀ fuel, moveInDirection fuel st d e c =
            match resolveAllMerges fuel (slideGrid (grid st) d).1 e c with
            | Some ((mergedGrid, scoreIncrease), c1) =>
                match addRandomTile mergedGrid e c1 with
                | Some (newGrid, c2) =>
                    Some (mkGameState newGrid
                            (score st + scoreIncrease)
                            (Z.max (bestScore st) (score st + scoreIncrease))
                            ((length (emptyCoordsOf newGrid) =? 0)%nat
                               && negb (canMergeAnywhere newGrid))
                            (1062882 <=? highestTile newGrid) true
                            (history st ++ [mkSnapshot (grid st) (score st)])
                            (undosRemaining st), c2)
                | None => None
                end
            | None => None
            end) as Hunfold.
  { intros fuel. unfold moveInDirection.
    destruct (slideGrid (grid st) d) as [movedGrid moved].
    cbn [fst snd] in *. subst moved. cbn [negb].
    destruct (resolveAllMerges fuel movedGrid e c) as [[[g1 s1] c1]|]; [|done].
    simpl. by destruct (addRandomTile g1 e c1) as [[g2 c2]|]. }
  destruct (resolveAllMerges_returns_or_never _ c Hslid) as [[res Hres]|Hnever].
  - left. destruct res as [[mergedGrid scoreIncrease] c1].
    destruct (addRandomTile_total e c1 mergedGrid Hunit) as (newGrid & c2 & Hadd).
    eexists. intros fuel Hfuel. rewrite Hunfold, (Hres fuel Hfuel), Hadd. done.
  - right. intros fuel. by rewrite Hunfold, Hnever.
Qed.

End MergeTermination.

(** * Further properties of the code *)

(** ** core/hexUtils.ts *)

(** X1: [getAllGridCoords] lists exactly the coordinates that
    [isValidCoord] accepts, each of them once. *)
Theorem getAllGridCoords_exact :
  NoDup getAllGridCoords ∧
  ∀ c, c ∈ getAllGridCoords ↔ isValidCoord c = true.
Proof.
  split; [apply grid_coords_NoDup|]. intros c. symmetry. apply valid_iff_grid.
Qed.

Lemma hexDistance_neighbor a v :
  v ∈ DIRECTION_VECTORS → hexDistance a (addCoords a v) = 1.
Proof.
  intros Hv. destruct a as [aq ar].
  each_direction Hv; unfold hexDistance, getS, addCoords; simpl; lia.
Qed.

Lemma hexDistance_one a b :
  hexDistance a b = 1 → ∃ v, v ∈ DIRECTION_VECTORS ∧ addCoords a v = b.
Proof.
  destruct a as [aq ar], b as [bq br].
  unfold hexDistance, getS, addCoords. simpl. intros H.
  assert (bq - aq = -1 ∨ bq - aq = 0 ∨ bq - aq = 1) as Hq by lia.
  assert (br - ar = -1 ∨ br - ar = 0 ∨ br - ar = 1) as Hr by lia.
  exists (mkHex (bq - aq) (br - ar)). split.
  - destruct Hq as [Hq|[Hq|Hq]]; destruct Hr as [Hr|[Hr|Hr]];
      rewrite Hq, Hr; try lia; by_compute.
  - simpl. f_equal; lia.
Qed.

(** X2: [hexDistance] is a metric on the coordinates, and the six
    coordinates of [getNeighbors] are exactly those at distance one. *)
Theorem hexDistance_metric a b c :
  0 ≤ hexDistance a b ∧
  (hexDistance a b = 0 ↔ a = b) ∧
  hexDistance a b = hexDistance b a ∧
  hexDistance a c ≤ hexDistance a b + hexDistance b c ∧
  (b ∈ getNeighbors a ↔ hexDistance a b = 1).
Proof.
  split; [unfold hexDistance; lia|]. split; [|split; [|split]].
  - destruct a as [aq ar], b as [bq br]. unfold hexDistance, getS. simpl.
    split; [intros H; f_equal; lia|intros [= -> ->]; lia].
  - unfold hexDistance, getS. f_equal; [f_equal|]; lia.
  - assert (∀ x y, Z.abs (q x - q y) ≤ hexDistance x y ∧
                   Z.abs (r x - r y) ≤ hexDistance x y ∧
                   Z.abs (getS x - getS y) ≤ hexDistance x y) as Hbound
      by (intros; unfold hexDistance; lia).
    pose proof (Hbound a b) as Hab. pose proof (Hbound b c) as Hbc.
    remember (hexDistance a b) as D1 eqn:HD1.
    remember (hexDistance b c) as D2 eqn:HD2. clear HD1 HD2 Hbound.
    unfold hexDistance, getS in *. lia.
  - rewrite <- adjacent_neighbors, adjacent_true. split.
    + intros (v & Hv & <-). by apply hexDistance_neighbor.
    + apply hexDistance_one.
Qed.

(** X3: the grid is the ball of radius [floor(GRID_SIZE / 2)] around the
    origin: a coordinate is valid exactly when its distance to (0, 0) is at
    most the radius. *)
Theorem isValidCoord_ball c :
  isValidCoord c = true ↔ hexDistance c origin ≤ radius.
Proof.
  rewrite isValidCoord_bounds. change radius with 2.
  unfold hexDistance, getS, origin. simpl. lia.
Qed.

(** X4: from a valid start [getLine] returns, within the loop bound, the
    straight run that begins at the start, stays on the grid, stops at the
    last cell before the border and holds at most five cells. *)
Theorem getLine_from_valid start d :
  isValidCoord start = true →
  (∀ fuel, (LINE_FUEL ≤ fuel)%nat →
     getLine_fuel fuel start d = Some (getLine start d)) ∧
  head (getLine start d) = Some start ∧
  straightRun (dirVector (dirIndex d)) (getLine start d) ∧
  Forall (λ p, isValidCoord p = true) (getLine start d) ∧
  (∃ final, last (getLine start d) = Some final ∧
     isValidCoord (addCoords final (dirVector (dirIndex d))) = false) ∧
  (length (getLine start d) ≤ 5)%nat.
Proof.
  intros Hvalid%valid_iff_grid.
  assert (Forall (λ p, lineFromb d p = true) getAllGridCoords) as Hall
    by (destruct d; by_compute).
  rewrite Forall_forall in Hall. specialize (Hall _ Hvalid).
  unfold lineFromb in Hall.
  rewrite !andb_true_iff, !bool_decide_eq_true in Hall.
  destruct Hall as [[[[[Hfuel Hhead] Hrun] Hval] Hlast] Hlen].
  split; [|split; [done|split; [by apply straightRunb_spec|split; [|split]]]].
  - intros fuel Hle. by apply (getLine_loop_mono LINE_FUEL).
  - apply Forall_forall. intros p Hp%list_elem_of_In.
    by apply (proj1 (forallb_forall _ _) Hval).
  - destruct (last (getLine start d)) as [final|]; [|done].
    exists final. split; [done|]. by apply negb_true_iff.
  - done.
Qed.

Lemma getLine_from_valid_witness :
  getLine (mkHex 0 0) EAST = [mkHex 0 0; mkHex (-1) 0; mkHex (-2) 0] ∧
  (length (getLine (mkHex 0 0) EAST) ≤ 5)%nat.
Proof.
  split; [by vm_compute|].
  apply (getLine_from_valid (mkHex 0 0) EAST). by vm_compute.
Defined.

(** ** core/constants.ts *)

Lemma getNextValue_iff v v' :
  getNextValue v = Some v' ↔ v ∈ TILE_VALUES ∧ v ≠ 1062882 ∧ v' = 3 * v.
Proof.
  split.
  - intros H. pose proof H as (i & Hi & Hi')%getNextValue_Some.
    split; [by eapply list_elem_of_lookup_2|].
    do 13 (destruct i as [|i]; [simpl in Hi, Hi'; injection Hi as <-;
                                 first [discriminate H
                                       |injection Hi' as <-; split; [done|lia]]|]).
    done.
  - intros (Hin & Hne & ->). unfold TILE_VALUES in Hin.
    repeat (apply elem_of_cons in Hin as [->|Hin]); try done.
    by apply elem_of_nil in Hin.
Qed.

(** X5: [getNextValue] is defined exactly on the progression values below
    the terminal one, and triples them; on 1062882 and on any number
    outside the progression it is undefined. *)
Theorem getNextValue_triples v v' :
  getNextValue v = Some v' ↔ v ∈ TILE_VALUES ∧ v ≠ 1062882 ∧ v' = 3 * v.
Proof. apply getNextValue_iff. Qed.

Lemma getNextValue_triples_witness :
  354294 ∈ TILE_VALUES ∧ getNextValue 354294 = Some (3 * 354294).
Proof.
  split; [by_compute|].
  apply (getNextValue_triples 354294 (3 * 354294)).
  split; [by_compute|]. split; [done|done].
Defined.

(** ** core/mergeLogic.ts: detection *)

Lemma findAllTriplets_reports_triples_aux g triplet :
  triplet ∈ findAllTriplets g →
  ∃ a b x, triplet = [a; b; x] ∧ a ∈ g ∧ b ∈ g ∧ x ∈ g ∧
    value b = value a ∧ value x = value a ∧
    mutuallyAdjacent (position a) (position b) (position x).
Proof.
  intros Hin.
  pose proof (proj1 (Forall_forall _ _) (findAllTriplets_sound g) _ Hin)
    as [Hlen [coord Hfind]].
  destruct triplet as [|a [|b [|x [|? ?]]]]; try done.
  destruct (findTripletsAt_members _ _ _ _ _ Hfind)
    as (Ha & Hb & Hx & Hvb & Hvx & _).
  exists a, b, x. do 6 (split; [done|]). by apply (triplet_adjacent g coord).
Qed.

(** X6: every triplet that [findAllTriplets] reports consists of three
    tiles of the board that carry one value and are pairwise adjacent. *)
Theorem findAllTriplets_reports_triples g triplet :
  triplet ∈ findAllTriplets g →
  ∃ a b x, triplet = [a; b; x] ∧ a ∈ g ∧ b ∈ g ∧ x ∈ g ∧
    value b = value a ∧ value x = value a ∧
    mutuallyAdjacent (position a) (position b) (position x).
Proof. apply findAllTriplets_reports_triples_aux. Qed.

Lemma findAllTriplets_reports_triples_witness :
  ∃ a b x,
    [tileAt "a" 2 0 0; tileAt "b" 2 1 0; tileAt "c" 2 0 1] = [a; b; x] ∧
    a ∈ rhombus ∧ b ∈ rhombus ∧ x ∈ rhombus ∧
    value b = value a ∧ value x = value a ∧
    mutuallyAdjacent (position a) (position b) (position x).
Proof.
  apply (findAllTriplets_reports_triples rhombus). by_compute.
Defined.

Lemma firstAdjacentPair_complete centerTile l b x :
  b ∈ l → x ∈ l → adjacent (position b) (position x) = true →
  firstAdjacentPair centerTile l ≠ [].
Proof.
  intros Hb Hx Hadj. induction l as [|t rest IH]; [by apply elem_of_nil in Hb|].
  simpl. destruct (List.find _ rest) as [tileB|] eqn:Hfind; [done|].
  assert (∀ y, y ∈ rest → adjacent (position t) (position y) = false) as Hnone.
  { intros y Hy. apply (find_none _ _ Hfind). by apply list_elem_of_In. }
  apply elem_of_cons in Hb as [->|Hb]; apply elem_of_cons in Hx as [->|Hx].
  - by apply adjacent_neq in Hadj.
  - rewrite (Hnone x Hx) in Hadj. done.
  - apply adjacent_sym in Hadj. rewrite (Hnone b Hb) in Hadj. done.
  - by apply IH.
Qed.

Lemma findTripletsAt_complete g a b x :
  NoDup (position <$> g) → a ∈ g → b ∈ g → x ∈ g →
  value b = value a → value x = value a →
  mutuallyAdjacent (position a) (position b) (position x) →
  length (findTripletsAt g (position a)) = 3%nat.
Proof.
  intros Hnd Ha Hb Hx Hvb Hvx (Hab & Hax & Hbx).
  destruct (findTripletsAt_shape g (position a))
    as [Hnil|(ct & t2 & t3 & _ & _ & -> & _)]; [|done].
  exfalso. revert Hnil. unfold findTripletsAt.
  rewrite getTileAtCoord_unique by done.
  set (matching := List.filter _ _).
  assert (∀ t, t ∈ g → value t = value a →
               adjacent (position a) (position t) = true → t ∈ matching) as Hm.
  { intros t Ht Hv Hadj. unfold matching.
    apply filter_elem_of. split; [|by apply Z.eqb_eq].
    apply tilesInLine_elem; [done|]. split; [done|].
    by apply adjacent_neighbors. }
  pose proof (Hm b Hb Hvb Hab) as Hbm. pose proof (Hm x Hx Hvx Hax) as Hxm.
  assert (2 ≤ length matching)%nat as Hlen.
  { assert ([b; x] ⊆+ matching) as Hsub.
    { apply NoDup_submseteq; [|set_solver].
      apply adjacent_neq in Hbx. repeat constructor; set_solver. }
    by apply submseteq_length in Hsub. }
  replace (length matching <? 2)%nat with false
    by (symmetry; apply Nat.ltb_ge; lia).
  by apply (firstAdjacentPair_complete a matching b x).
Qed.

Lemma scan_keeps_triplets grid tiles acc :
  acc.2 ≠ [] → (foldl (scanStep grid) acc tiles).2 ≠ [].
Proof.
  revert acc. induction tiles as [|t tiles IH]; intros [checked triplets] H;
    [done|].
  simpl. apply IH. destruct (decide _); [done|].
  destruct (_ =? 3)%nat; [|done]. cbn [snd] in *. by destruct triplets.
Qed.

Lemma scan_finds grid a : ∀ tiles checked,
  NoDup (position <$> tiles) →
  (∀ t, t ∈ tiles → coordKey (position t) ∉ checked) →
  a ∈ tiles → length (findTripletsAt grid (position a)) = 3%nat →
  (foldl (scanStep grid) (checked, []) tiles).2 ≠ [].
Proof.
  induction tiles as [|t tiles IH]; intros checked Hnd Hfresh Ha Hlen;
    [by apply elem_of_nil in Ha|].
  rewrite fmap_cons in Hnd. apply NoDup_cons in Hnd as [Hnotin Hnd].
  simpl. rewrite decide_False by (apply Hfresh; by left).
  destruct (length (findTripletsAt grid (position t)) =? 3)%nat eqn:Ht.
  - by apply scan_keeps_triplets.
  - apply elem_of_cons in Ha as [->|Ha].
    { apply Nat.eqb_neq in Ht. done. }
    apply IH; try done. intros t' Ht' Hin.
    apply elem_of_union in Hin as [Hin%elem_of_singleton|Hin].
    + apply coordKey_inj in Hin. apply Hnotin. rewrite <- Hin.
      by apply list_elem_of_fmap_2.
    + apply (Hfresh t'); [by right|done].
Qed.

Lemma canMergeAnywhere_spec g :
  NoDup (position <$> g) → canMergeAnywhere g = true ↔ hasTriple g.
Proof.
  intros Hnd. unfold canMergeAnywhere. rewrite Nat.ltb_lt. split.
  - intros Hlen. destruct (findAllTriplets g) as [|triplet rest] eqn:Hts;
      [simpl in Hlen; lia|].
    destruct (findAllTriplets_reports_triples_aux g triplet)
      as (a & b & x & _ & H); [rewrite Hts; by left|].
    by exists a, b, x.
  - intros (a & b & x & Ha & Hb & Hx & Hvb & Hvx & Hadj).
    assert (findAllTriplets g ≠ []) as Hne.
    { apply (scan_finds g a); [done|set_solver|done|].
      by apply (findTripletsAt_complete g a b x). }
    destruct (findAllTriplets g); [done|simpl; lia].
Qed.

(** X7: on a board without two tiles on one cell, [canMergeAnywhere] holds
    exactly when the board has three pairwise adjacent tiles of one
    value. *)
Theorem canMergeAnywhere_iff g :
  NoDup (position <$> g) → canMergeAnywhere g = true ↔ hasTriple g.
Proof. apply canMergeAnywhere_spec. Qed.

Lemma canMergeAnywhere_iff_witness :
  NoDup (position <$> rhombus) ∧
  (canMergeAnywhere rhombus = true ↔ hasTriple rhombus).
Proof.
  split; [by_compute|]. apply (canMergeAnywhere_iff rhombus). by_compute.
Defined.

(** ** core/mergeLogic.ts: what the merge loop does to a board *)

Lemma sumZ_app l k : sumZ (l ++ k) = sumZ l + sumZ k.
Proof. unfold sumZ. induction l as [|x l IH]; simpl; lia. Qed.

Lemma sumZ_Permutation l k : l ≡ₚ k → sumZ l = sumZ k.
Proof. unfold sumZ. induction 1; simpl; lia. Qed.

Lemma totalValue_app g h : totalValue (g ++ h) = totalValue g + totalValue h.
Proof. unfold totalValue. by rewrite fmap_app, sumZ_app. Qed.

Lemma totalValue_Permutation g h : g ≡ₚ h → totalValue g = totalValue h.
Proof. intros H. unfold totalValue. apply sumZ_Permutation. by rewrite H. Qed.

Lemma progression_bounds v : v ∈ TILE_VALUES → 2 ≤ v ≤ 1062882.
Proof.
  unfold TILE_VALUES. intros Hin.
  repeat (apply elem_of_cons in Hin as [->|Hin]); try lia.
  by apply elem_of_nil in Hin.
Qed.

Lemma totalValue_nonneg g : valuesInProgression g → 0 ≤ totalValue g.
Proof.
  unfold valuesInProgression, totalValue, sumZ.
  induction 1 as [|t g Ht _ IH]; [rewrite fmap_nil; simpl; lia|].
  rewrite fmap_cons. simpl. apply progression_bounds in Ht. lia.
Qed.

Lemma accounts_refl g s c : valuesInProgression g → accounts g s c g s c.
Proof. intros Hv. unfold accounts. repeat split; try done; lia. Qed.

Lemma accounts_trans g s c g1 s1 c1 g2 s2 c2 :
  accounts g s c g1 s1 c1 → accounts g1 s1 c1 g2 s2 c2 →
  accounts g s c g2 s2 c2.
Proof.
  intros (Ht1 & Hs1 & Hl1 & Hd1 & Hsc1 & Hv1) (Ht2 & Hs2 & Hl2 & Hd2 & Hsc2 & Hv2).
  unfold accounts. repeat split; try done; try congruence; lia.
Qed.

Section MergeAccounting.
Variable e : Entropy.
Hypothesis nextId_inj : Inj (=) (=) (nextId e).

(** A step of a pass either leaves grid, score and cursor alone or merges
    three tiles present on the working grid. *)
Lemma passStep_cases g0 c0 acc c triplet coord acc' c' :
  wfGrid g0 → idsBelow e c0 g0 →
  length triplet = 3%nat → findTripletsAt g0 coord = triplet →
  passInv e g0 c0 acc c →
  passStep acc triplet e c = (acc', c') →
  (acc'.1 = acc.1 ∧ acc'.2 = acc.2 ∧ c' = c) ∨
  (∃ a b x V',
     triplet = [a; b; x] ∧ a ∈ acc.1 ∧ b ∈ acc.1 ∧ x ∈ acc.1 ∧
     value b = value a ∧ value x = value a ∧
     getNextValue (value a) = Some V' ∧
     acc.1 ≡ₚ [a; b; x] ++ survivors a b x acc.1 ∧
     acc'.1 = survivors a b x acc.1 ++ [mergedTile a b x V' e c] ∧
     acc'.2 = acc.2 + 3 * value a ∧ c' = afterMerge c).
Proof.
  intros Hwf0 Hbelow0 Hlen Hfind Hinv.
  destruct acc as [newGrid stepScore].
  pose proof Hinv as (Hwf & _). cbn [fst snd] in *.
  destruct triplet as [|a [|b [|x [|? ?]]]]; try done.
  destruct (findTripletsAt_members _ _ _ _ _ Hfind)
    as (Ha0 & Hb0 & Hx0 & Hvb & Hvx & _).
  unfold passStep.
  destruct (existsb (λ t, negb (hasId newGrid (id t))) [a; b; x]) eqn:Hgone;
    cbn [negb].
  { unfold gret. intros [= <- <-]. by left. }
  assert (∀ t, t ∈ [a; b; x] → t ∈ g0 → t ∈ newGrid) as Hstill.
  { intros t Ht Ht0. apply (present_by_id e nextId_inj g0 c0 newGrid stepScore c);
      try done.
    by apply (not_alreadyMerged newGrid [a; b; x]). }
  unfold gbind.
  destruct (getNextValue (value a)) as [V'|] eqn:Hnext.
  2:{ rewrite (mergeTriplet_inert newGrid [a; b; x]) by done.
      unfold gret. intros [= <- <-]. left. cbn [fst snd].
      split; [done|]. split; [lia|done]. }
  rewrite (mergeTriplet_three a b x (value a) V' e c newGrid eq_refl Hnext).
  unfold gret. intros [= <- <-]. right. cbn [fst snd].
  exists a, b, x, V'.
  assert (a ∈ newGrid) by (apply Hstill; [set_solver|done]).
  assert (b ∈ newGrid) by (apply Hstill; [set_solver|done]).
  assert (x ∈ newGrid) by (apply Hstill; [set_solver|done]).
  do 7 (split; [done|]). split; [|done].
  apply survivors_Permutation; try done; [by apply (triplet_adjacent g0 coord)|].
  apply Hwf.
Qed.

Lemma passStep_accounts g0 c0 acc c triplet coord acc' c' :
  wfGrid g0 → idsBelow e c0 g0 →
  length triplet = 3%nat → findTripletsAt g0 coord = triplet →
  passInv e g0 c0 acc c → valuesInProgression acc.1 →
  passStep acc triplet e c = (acc', c') →
  accounts acc.1 acc.2 c acc'.1 acc'.2 c'.
Proof.
  intros Hwf0 Hb0 Hlen Hfind Hinv Hvals Hstep.
  destruct (passStep_cases g0 c0 acc c triplet coord acc' c'
              Hwf0 Hb0 Hlen Hfind Hinv Hstep)
    as [(-> & -> & ->)|(a & b & x & V' & _ & Ha & Hb & Hx & Hvb & Hvx & Hnext
                        & Hperm & -> & -> & ->)].
  { by apply accounts_refl. }
  apply getNextValue_iff in Hnext as (Hin & Hne & ->).
  pose proof (progression_bounds _ Hin) as Hbound.
  pose proof (totalValue_Permutation _ _ Hperm) as Htot.
  pose proof (Permutation_length Hperm) as Hlength.
  rewrite totalValue_app in Htot. rewrite length_app in Hlength.
  unfold accounts, afterMerge. cbn [stamps draws].
  rewrite totalValue_app, length_app. cbn [length].
  replace (totalValue [a; b; x]) with (3 * value a) in Htot
    by (unfold totalValue, sumZ; simpl; lia).
  replace (totalValue [mergedTile a b x (3 * value a) e c]) with (3 * value a)
    by (unfold totalValue, sumZ; simpl; lia).
  cbn [length] in Hlength.
  split; [lia|]. split; [lia|]. split; [lia|]. split; [done|]. split; [lia|].
  apply Forall_app. split.
  - apply Forall_forall. intros t [Ht _]%filter_elem_of.
    by apply (proj1 (Forall_forall _ _) Hvals).
  - apply Forall_singleton. simpl.
    assert (getNextValue (value a) = Some (3 * value a)) as Hn.
    { apply getNextValue_iff. by repeat split. }
    apply getNextValue_Some in Hn as (i & _ & Hi).
    by eapply list_elem_of_lookup_2.
Qed.

Lemma mergePass_accounts g0 c0 triplets : ∀ acc c acc' c',
  wfGrid g0 → idsBelow e c0 g0 →
  Forall (λ triplet, length triplet = 3%nat ∧
            ∃ coord, findTripletsAt g0 coord = triplet) triplets →
  passInv e g0 c0 acc c → valuesInProgression acc.1 →
  mergePass acc triplets e c = (acc', c') →
  accounts acc.1 acc.2 c acc'.1 acc'.2 c'.
Proof.
  induction triplets as [|triplet rest IH];
    intros acc c acc' c' Hwf0 Hb0 Hall Hinv Hvals; simpl.
  - unfold gret. intros [= <- <-]. by apply accounts_refl.
  - apply Forall_cons in Hall as [[Hlen [coord Hfind]] Hall].
    unfold gbind at 1.
    destruct (passStep acc triplet e c) as [acc1 c1] eqn:Hstep.
    intros Hrest.
    pose proof (passStep_inv e nextId_inj g0 c0 acc c triplet coord acc1 c1
                  Hwf0 Hb0 Hlen Hfind Hinv Hstep) as Hinv1.
    pose proof (passStep_accounts g0 c0 acc c triplet coord acc1 c1
                  Hwf0 Hb0 Hlen Hfind Hinv Hvals Hstep) as Hacc1.
    eapply accounts_trans; [exact Hacc1|].
    apply IH; try done. apply Hacc1.
Qed.

Lemma resolveLoop_accounts fuel : ∀ g total c g' s c',
  boardInv e c g → valuesInProgression g →
  resolveLoop fuel g total e c = Some ((g', s), c') →
  accounts g total c g' s c'.
Proof.
  induction fuel as [|fuel IH]; intros g total c g' s c' [Hwf Hbelow] Hvals;
    [done|].
  simpl. destruct (length (findAllTriplets g) =? 0)%nat.
  { intros [= <- <- <-]. by apply accounts_refl. }
  destruct (mergePass (g, 0) (findAllTriplets g) e c)
    as [[newGrid stepScore] c1] eqn:Hpass.
  intros Hloop.
  assert (passInv e g c (g, 0) c) as Hinv0.
  { split; [done|]. split; [done|]. split; [lia|]. intros u Hu. by left. }
  pose proof (mergePass_inv e nextId_inj g c (findAllTriplets g)
                (g, 0) c (newGrid, stepScore) c1 Hwf Hbelow
                (findAllTriplets_sound g) Hinv0 Hpass)
    as (Hwf1 & Hbelow1 & _).
  pose proof (mergePass_accounts g c (findAllTriplets g)
                (g, 0) c (newGrid, stepScore) c1 Hwf Hbelow
                (findAllTriplets_sound g) Hinv0 Hvals Hpass) as Hacc1.
  cbn [fst snd] in *.
  pose proof (IH newGrid (total + stepScore) c1 g' s c') as Hacc2.
  destruct Hacc1 as (Ht1 & Hs1 & Hl1 & Hd1 & Hsc1 & Hv1).
  destruct Hacc2 as (Ht2 & Hs2 & Hl2 & Hd2 & Hsc2 & Hv2); [by split|done|done|].
  unfold accounts. repeat split; try done; try congruence; lia.
Qed.

End MergeAccounting.

Lemma resolveLoop_fixed_point fuel : ∀ g total e c g' s c',
  resolveLoop fuel g total e c = Some ((g', s), c') →
  findAllTriplets g' = [].
Proof.
  induction fuel as [|fuel IH]; intros g total e c g' s c'; [done|].
  simpl. destruct (length (findAllTriplets g) =? 0)%nat eqn:Hlen.
  - intros [= <- _ _]. apply Nat.eqb_eq in Hlen. by apply nil_length_inv.
  - destruct (mergePass (g, 0) (findAllTriplets g) e c) as [[newGrid stepScore] c1].
    apply IH.
Qed.

(** X8: when [resolveAllMerges] returns, the board it returns holds no
    triplet any more; and a board that holds none is returned at once,
    unchanged, with score 0 and nothing drawn. *)
Theorem resolveAllMerges_fixed_point fuel g e c :
  (∀ g' s c', resolveAllMerges fuel g e c = Some ((g', s), c') →
     findAllTriplets g' = [] ∧ canMergeAnywhere g' = false) ∧
  (findAllTriplets g = [] →
     resolveAllMerges (S fuel) g e c = Some ((g, 0), c)).
Proof.
  split.
  - intros g' s c' H. apply resolveLoop_fixed_point in H.
    split; [done|]. unfold canMergeAnywhere. by rewrite H.
  - intros H. unfold resolveAllMerges. simpl. by rewrite H.
Qed.

Section MergeReturns.
Variable e : Entropy.
Hypothesis nextId_inj : Inj (=) (=) (nextId e).

(** X9: on a board of the data model with progression values, the merge
    loop keeps the sum of the tile values: each merge (one id drawn)
    replaces three tiles of value V by one of value 3 V, so the board loses
    two tiles and the score gains at least 6 per merge; none of the random
    numbers that decide spawns is consumed and the values stay in the
    progression. *)
Theorem resolveAllMerges_conserves fuel g c g' s c' :
  boardInv e c g → valuesInProgression g →
  resolveAllMerges fuel g e c = Some ((g', s), c') →
  totalValue g' = totalValue g ∧
  (stamps c ≤ stamps c')%nat ∧
  (length g' + 2 * (stamps c' - stamps c) = length g)%nat ∧
  draws c' = draws c ∧
  6 * Z.of_nat (stamps c' - stamps c) ≤ s ∧
  valuesInProgression g'.
Proof.
  intros Hinv Hvals Hres.
  destruct (resolveLoop_accounts e nextId_inj fuel g 0 c g' s c' Hinv Hvals Hres)
    as (? & ? & ? & ? & ? & ?).
  repeat split; try done; lia.
Qed.

(** Three terminal tiles weigh at least three times the terminal value. *)
Lemma inert_triplet_weight g :
  wfGrid g → valuesInProgression g →
  findAllTriplets g ≠ [] → Forall inert (findAllTriplets g) →
  3 * 1062882 ≤ totalValue g.
Proof.
  intros Hwf Hvals Hne Hinert.
  destruct (findAllTriplets g) as [|triplet rest] eqn:Hts; [done|].
  apply Forall_cons in Hinert as [Hin _].
  destruct (findAllTriplets_reports_triples_aux g triplet)
    as (a & b & x & -> & Ha & Hb & Hx & Hvb & Hvx & Hadj);
    [rewrite Hts; by left|].
  simpl in Hin. unfold valuesInProgression in Hvals.
  rewrite Forall_forall in Hvals.
  assert (value a = 1062882) as Hterm.
  { destruct (decide (value a = 1062882)) as [|Hne']; [done|].
    assert (getNextValue (value a) = Some (3 * value a)) as Hn
      by (apply getNextValue_iff; repeat split; auto).
    congruence. }
  assert ([a; b; x] ⊆+ g) as Hsub.
  { apply NoDup_submseteq; [|set_solver].
    apply (NoDup_fmap_1 position). by apply three_distinct. }
  apply submseteq_Permutation in Hsub as [others Hperm].
  rewrite (totalValue_Permutation _ _ Hperm), totalValue_app.
  assert (0 ≤ totalValue others).
  { apply totalValue_nonneg. apply Forall_forall. intros t Ht.
    apply Hvals. rewrite Hperm. apply elem_of_app. by right. }
  replace (totalValue [a; b; x]) with (value a + (value b + value x))
    by (unfold totalValue, sumZ; simpl; lia).
  lia.
Qed.

Lemma resolveLoop_returns n : ∀ g total c,
  (length g ≤ n)%nat → boardInv e c g → valuesInProgression g →
  totalValue g < 3 * 1062882 →
  ∃ res, resolveLoop (S n) g total e c = Some res.
Proof.
  induction n as [|n IH]; intros g total c Hlen [Hwf Hbelow] Hvals Htot.
  - destruct g; [|simpl in Hlen; lia]. simpl. eauto.
  - destruct (findAllTriplets g) as [|t ts] eqn:Hts.
    { simpl. rewrite Hts. simpl. eauto. }
    destruct (decide (Forall inert (findAllTriplets g))) as [Hin|Hnin].
    { pose proof (inert_triplet_weight g Hwf Hvals) as Hweight.
      rewrite Hts in Hweight at 1. specialize (Hweight ltac:(done) Hin). lia. }
    destruct (mergePass (g, 0) (findAllTriplets g) e c)
      as [[newGrid stepScore] c1] eqn:Hpass.
    assert (passInv e g c (g, 0) c) as Hinv0.
    { split; [done|]. split; [done|]. split; [lia|]. intros u Hu. by left. }
    pose proof (mergePass_inv e nextId_inj g c (findAllTriplets g)
                  (g, 0) c (newGrid, stepScore) c1 Hwf Hbelow
                  (findAllTriplets_sound g) Hinv0 Hpass)
      as (Hwf1 & Hbelow1 & _).
    pose proof (mergePass_accounts e nextId_inj g c (findAllTriplets g)
                  (g, 0) c (newGrid, stepScore) c1 Hwf Hbelow
                  (findAllTriplets_sound g) Hinv0 Hvals Hpass)
      as (Ht1 & _ & _ & _ & _ & Hv1).
    destruct (mergePass_progress e nextId_inj g c (findAllTriplets g)
                (g, 0) c (newGrid, stepScore) c1 Hwf Hbelow
                (findAllTriplets_sound g) Hinv0 Hpass) as [_ Hlt].
    specialize (Hlt Hnin eq_refl). cbn [fst snd] in *.
    destruct (IH newGrid (total + stepScore) c1) as [res Hres];
      [lia|by split|done|lia|].
    exists res. rewrite <- Hres. simpl. rewrite Hts at 1. simpl.
    by rewrite Hpass.
Qed.

(** X10: on a board of the data model whose values belong to the
    progression and sum to less than three terminal tiles,
    [resolveAllMerges] returns, within as many passes as the board has
    tiles (plus the pass that finds nothing). *)
Theorem resolveAllMerges_returns g c :
  boardInv e c g → valuesInProgression g → totalValue g < 3 * 1062882 →
  ∃ res, ∀ fuel, (length g < fuel)%nat →
    resolveAllMerges fuel g e c = Some res.
Proof.
  intros Hinv Hvals Htot.
  destruct (resolveLoop_returns (length g) g 0 c) as [res Hres]; try done.
  exists res. intros fuel Hfuel. unfold resolveAllMerges.
  apply (resolveLoop_mono (S (length g))); [lia|done].
Qed.

End MergeReturns.

(** ** Sample board of the sample id source *)

Lemma minted_boardInv : boardInv sampleEntropy mintedCursor minted.
Proof.
  split; [split; by_compute|].
  intros u Hu. unfold minted in Hu.
  repeat (apply elem_of_cons in Hu as [->|Hu]); [..|by apply elem_of_nil in Hu].
  - exists 0%nat. split; [simpl; lia|by vm_compute].
  - exists 1%nat. split; [simpl; lia|by vm_compute].
  - exists 2%nat. split; [simpl; lia|by vm_compute].
  - exists 3%nat. split; [simpl; lia|by vm_compute].
Qed.

Lemma minted_values : valuesInProgression minted.
Proof. by_compute. Qed.

Lemma resolveAllMerges_conserves_witness :
  ∃ g' s c',
    resolveAllMerges 2 minted sampleEntropy mintedCursor = Some ((g', s), c') ∧
    totalValue g' = totalValue minted ∧
    (stamps mintedCursor ≤ stamps c')%nat ∧
    (length g' + 2 * (stamps c' - stamps mintedCursor) = length minted)%nat ∧
    draws c' = draws mintedCursor ∧
    6 * Z.of_nat (stamps c' - stamps mintedCursor) ≤ s ∧
    valuesInProgression g'.
Proof.
  destruct (resolveAllMerges 2 minted sampleEntropy mintedCursor)
    as [[[g' s] c']|] eqn:Hres; [|by vm_compute in Hres].
  exists g', s, c'. split; [done|].
  apply (resolveAllMerges_conserves sampleEntropy sampleEntropy_inj 2 minted
           mintedCursor g' s c' minted_boardInv minted_values Hres).
Defined.

Lemma resolveAllMerges_returns_witness :
  ∃ res, ∀ fuel, (length minted < fuel)%nat →
    resolveAllMerges fuel minted sampleEntropy mintedCursor = Some res.
Proof.
  apply (resolveAllMerges_returns sampleEntropy sampleEntropy_inj minted
           mintedCursor minted_boardInv minted_values).
  by vm_compute.
Defined.

(** ** core/game.ts: empty cells, valid moves and the spawn *)

Lemma emptyCoordsOf_nil g : emptyCoordsOf g = [] ↔ fullBoard g.
Proof.
  split.
  - intros Hnil p Hp.
    destruct (getTileAtCoord g p) as [t|] eqn:Hg.
    + apply getTileAtCoord_Some in Hg as [? ?]. eauto.
    + assert (p ∈ emptyCoordsOf g) as Hin.
      { apply emptyCoordsOf_elem. split; [done|].
        by apply getTileAtCoord_None. }
      rewrite Hnil in Hin. by apply elem_of_nil in Hin.
  - intros Hfull. destruct (emptyCoordsOf g) as [|p rest] eqn:He; [done|].
    assert (p ∈ emptyCoordsOf g) as [Hp Hfree]%emptyCoordsOf_elem
      by (rewrite He; by left).
    destruct (Hfull p Hp) as (t & Ht & Hpos). by destruct (Hfree t Ht).
Qed.

Lemma fullBoard_length g : fullBoard g → (19 ≤ length g)%nat.
Proof.
  intros Hfull. rewrite <- (length_fmap position g).
  change 19%nat with (length getAllGridCoords).
  apply submseteq_length, NoDup_submseteq.
  - apply grid_coords_NoDup.
  - intros p Hp%valid_iff_grid. destruct (Hfull p Hp) as (t & Ht & <-).
    apply list_elem_of_fmap. eauto.
Qed.

(** X11: on a board with at most one tile per cell, [hasValidMoves] is
    false exactly when every cell of the grid carries a tile and no three
    pairwise adjacent tiles share a value. *)
Theorem hasValidMoves_iff g :
  NoDup (position <$> g) →
  hasValidMoves g = false ↔ fullBoard g ∧ ¬ hasTriple g.
Proof.
  intros Hnd. unfold hasValidMoves. rewrite <- emptyCoordsOf_nil.
  rewrite <- (canMergeAnywhere_spec g Hnd).
  destruct (emptyCoordsOf g) as [|p rest]; simpl.
  - destruct (canMergeAnywhere g); naive_solver.
  - naive_solver.
Qed.

Lemma hasValidMoves_iff_witness :
  NoDup (position <$> deadBoard) ∧
  (hasValidMoves deadBoard = false ↔ fullBoard deadBoard ∧ ¬ hasTriple deadBoard).
Proof.
  split; [by_compute|]. apply (hasValidMoves_iff deadBoard). by_compute.
Defined.

(** What [addRandomTile] does when the random numbers lie in [0, 1). *)
Lemma addRandomTile_cases g e c :
  unitRange e →
  (fullBoard g ∧ addRandomTile g e c = Some (g, c)) ∨
  ∃ t,
    addRandomTile g e c
      = Some (g ++ [t], mkCursor (S (S (draws c))) (S (stamps c))) ∧
    position t ∈ emptyCoordsOf g ∧
    (value t = 2 ∨ value t = 6) ∧
    id t = nextId e (stamps c) ∧
    isNew t = Some true ∧ isMerged t = Some false.
Proof.
  intros Hunit. unfold addRandomTile.
  destruct (length (emptyCoordsOf g) =? 0)%nat eqn:Hlen.
  { left. apply Nat.eqb_eq, nil_length_inv in Hlen.
    split; [by apply emptyCoordsOf_nil|done]. }
  right. apply Nat.eqb_neq in Hlen.
  unfold mathRandom, freshId. cbn [draws stamps].
  destruct (Hunit (draws c)) as [H0 H1].
  pose proof (randomIndex_range (random e (draws c)) (length (emptyCoordsOf g))
                H0 H1 ltac:(lia)) as [Hlo Hhi].
  set (i := Qfloor (random e (draws c) * inject_Z (Z.of_nat (length (emptyCoordsOf g))))) in *.
  unfold lookupZ. destruct (i <? 0) eqn:Hneg; [lia|].
  destruct (emptyCoordsOf g !! Z.to_nat i) as [p|] eqn:Hp.
  2:{ apply lookup_ge_None in Hp. lia. }
  simpl. eexists. split; [reflexivity|]. simpl.
  split; [by eapply list_elem_of_lookup_2|].
  split; [|done].
  destruct (Qlt_le_dec _ _); auto.
Qed.

(** X12: with random numbers in [0, 1), [addRandomTile] returns the board
    unchanged and consumes nothing when every cell is taken; otherwise it
    appends exactly one tile, of value 2 or 6, flagged new, on a cell of the
    grid that carried no tile, with the next id, and consumes two random
    numbers (position and value). *)
Theorem addRandomTile_spawns g e c :
  unitRange e →
  (fullBoard g ∧ addRandomTile g e c = Some (g, c)) ∨
  ∃ t,
    addRandomTile g e c
      = Some (g ++ [t], mkCursor (S (S (draws c))) (S (stamps c))) ∧
    isValidCoord (position t) = true ∧
    (∀ u, u ∈ g → position u ≠ position t) ∧
    (value t = 2 ∨ value t = 6) ∧
    id t = nextId e (stamps c) ∧
    isNew t = Some true ∧ isMerged t = Some false.
Proof.
  intros Hunit.
  destruct (addRandomTile_cases g e c Hunit)
    as [?|(t & Hadd & [Hv Hfree]%emptyCoordsOf_elem & Hrest)]; [by left|].
  right. exists t. done.
Qed.

Lemma sampleEntropy_unit : unitRange sampleEntropy.
Proof. intros n. by split. Qed.

Lemma addRandomTile_spawns_witness :
  ∃ t,
    addRandomTile rhombus sampleEntropy start
      = Some (rhombus ++ [t], mkCursor 2 1) ∧
    isValidCoord (position t) = true ∧
    (∀ u, u ∈ rhombus → position u ≠ position t) ∧
    (value t = 2 ∨ value t = 6) ∧
    id t = nextId sampleEntropy 0 ∧
    isNew t = Some true ∧ isMerged t = Some false.
Proof.
  destruct (addRandomTile_spawns rhombus sampleEntropy start sampleEntropy_unit)
    as [[_ Hfull]|H]; [by vm_compute in Hfull|exact H].
Defined.

Lemma addRandomTiles_cases e n : ∀ g c,
  unitRange e → (length g + n ≤ 19)%nat →
  ∃ news,
    addRandomTiles n g e c
      = Some (g ++ news, mkCursor (draws c + 2 * n) (stamps c + n)) ∧
    length news = n ∧
    id <$> news = (λ i, nextId e (stamps c + i)) <$> seq 0 n ∧
    Forall (λ t, (value t = 2 ∨ value t = 6) ∧
                 isValidCoord (position t) = true ∧
                 isNew t = Some true ∧ isMerged t = Some false) news ∧
    NoDup (position <$> news) ∧
    ∀ t u, t ∈ news → u ∈ g → position u ≠ position t.
Proof.
  induction n as [|n IH]; intros g c Hunit Hlen.
  { exists []. simpl. rewrite app_nil_r, !Nat.add_0_r. destruct c.
    repeat split; try done; try constructor. intros t u Ht. by apply elem_of_nil in Ht. }
  destruct (addRandomTile_cases g e c Hunit)
    as [[Hfull%fullBoard_length _]|(t & Hadd & [Hv Hfree]%emptyCoordsOf_elem
                                    & Hval & Hid & Hnew & Hmerged)]; [lia|].
  destruct (IH (g ++ [t]) (mkCursor (S (S (draws c))) (S (stamps c))) Hunit)
    as (news & Hrest & Hn & Hids & Hall & Hnd & Hsep).
  { rewrite length_app. simpl. lia. }
  exists (t :: news). cbn [draws stamps] in *. split; [|split; [|split; [|split; [|split]]]].
  - simpl. rewrite Hadd. simpl. rewrite Hrest, <- app_assoc. simpl.
    do 2 f_equal. f_equal; lia.
  - simpl. by rewrite Hn.
  - rewrite fmap_cons, Hids, Hid. cbn [seq]. rewrite fmap_cons, Nat.add_0_r. f_equal.
    rewrite <- fmap_S_seq, <- list_fmap_compose. apply list_fmap_ext.
    intros i x _. simpl. f_equal. lia.
  - by constructor.
  - rewrite fmap_cons. apply NoDup_cons. split; [|done].
    intros (t' & Heq & Ht')%list_elem_of_fmap.
    apply (Hsep t' t Ht'); [|done]. apply elem_of_app. right. by left.
  - intros t' u [->|Ht']%elem_of_cons Hu; [by apply Hfree|].
    apply (Hsep t' u Ht'). apply elem_of_app. by left.
Qed.

(** X13: with random numbers in [0, 1), [initializeGameState] returns a
    state of five tiles, each of value 2 or 6 and flagged new, on five
    different cells of the grid, carrying the next five ids in order, and
    consumes ten random numbers; the scores are 0, no flag is set, the
    history is empty, three undos are granted and the board has a valid
    move. *)
Theorem initializeGameState_start e c :
  unitRange e →
  ∃ st,
    initializeGameState e c
      = Some (st, mkCursor (draws c + 10) (stamps c + 5)) ∧
    length (grid st) = 5%nat ∧
    id <$> grid st = (λ i, nextId e (stamps c + i)) <$> seq 0 5 ∧
    Forall (λ t, (value t = 2 ∨ value t = 6) ∧
                 isValidCoord (position t) = true ∧
                 isNew t = Some true ∧ isMerged t = Some false) (grid st) ∧
    NoDup (position <$> grid st) ∧
    score st = 0 ∧ bestScore st = 0 ∧
    isGameOver st = false ∧ isWon st = false ∧
    canUndo st = false ∧ history st = [] ∧ undosRemaining st = 3 ∧
    hasValidMoves (grid st) = true.
Proof.
  intros Hunit.
  destruct (addRandomTiles_cases e 5 initializeGrid c Hunit)
    as (news & Hadd & Hn & Hids & Hall & Hnd & _); [simpl; lia|].
  unfold initializeGameState. rewrite Hadd. simpl.
  eexists. split; [reflexivity|]. simpl.
  repeat split; try done.
  unfold hasValidMoves.
  destruct (emptyCoordsOf news) as [|p rest] eqn:He; [|done].
  apply emptyCoordsOf_nil, fullBoard_length in He. lia.
Qed.

Lemma initializeGameState_start_witness :
  ∃ st,
    initializeGameState sampleEntropy start = Some (st, mkCursor 10 5) ∧
    length (grid st) = 5%nat ∧
    id <$> grid st = ["id0"; "id1"; "id2"; "id3"; "id4"] ∧
    hasValidMoves (grid st) = true.
Proof.
  destruct (initializeGameState_start sampleEntropy start sampleEntropy_unit)
    as (st & Hinit & Hlen & Hids & _ & _ & _ & _ & _ & _ & _ & _ & _ & Hmoves).
  exists st. split; [exact Hinit|]. split; [exact Hlen|].
  split; [|exact Hmoves]. rewrite Hids. by vm_compute.
Defined.

(** ** core/game.ts: the slide, line by line *)

Lemma getTileAtCoord_iff G p t :
  NoDup (position <$> G) →
  getTileAtCoord G p = Some t ↔ t ∈ G ∧ position t = p.
Proof.
  intros Hnd. split; [apply getTileAtCoord_Some|].
  intros [Hin <-]. by apply getTileAtCoord_unique.
Qed.

Lemma getTileAtCoord_ext G G' p :
  NoDup (position <$> G') →
  (∀ t, position t = p → t ∈ G ↔ t ∈ G') →
  getTileAtCoord G p = getTileAtCoord G' p.
Proof.
  intros H' Hext.
  destruct (getTileAtCoord G p) as [t|] eqn:Hg.
  - apply getTileAtCoord_Some in Hg as [Hin Hp]. symmetry.
    apply getTileAtCoord_iff; [done|]. split; [by apply Hext|done].
  - symmetry. apply getTileAtCoord_None. intros t Ht Hp.
    rewrite getTileAtCoord_None in Hg. apply (Hg t); [by apply Hext|done].
Qed.

Lemma tilesOn_cons G p l :
  tilesOn G (p :: l) =
    match getTileAtCoord G p with
    | Some t => t :: tilesOn G l
    | None => tilesOn G l
    end.
Proof. done. Qed.

Lemma tilesOn_positions_back G l :
  NoDup (position <$> G) → (∀ t, t ∈ l → t ∈ G) →
  tilesOn G (position <$> l) = l.
Proof.
  intros Hnd. induction l as [|t l IH]; intros Hin; [done|].
  rewrite fmap_cons, tilesOn_cons.
  rewrite getTileAtCoord_unique; [|done|apply Hin; by left].
  f_equal. apply IH. intros u Hu. apply Hin. by right.
Qed.

Lemma tilesOn_empty G l :
  (∀ t p, t ∈ G → p ∈ l → position t ≠ p) → tilesOn G l = [].
Proof.
  intros H. induction l as [|p l IH]; [done|]. rewrite tilesOn_cons.
  assert (getTileAtCoord G p = None) as ->.
  { apply getTileAtCoord_None. intros t Ht. apply H; [done|by left]. }
  apply IH. intros t p' Ht Hp'. apply H; [done|by right].
Qed.

Lemma tilesOn_ext G G' l :
  (∀ p, p ∈ l → getTileAtCoord G p = getTileAtCoord G' p) →
  tilesOn G l = tilesOn G' l.
Proof.
  intros H. induction l as [|p l IH]; [done|]. rewrite !tilesOn_cons.
  rewrite H by (by left). rewrite IH; [done|]. intros p' Hp'. apply H. by right.
Qed.

Lemma tilesOn_app G l k : tilesOn G (l ++ k) = tilesOn G l ++ tilesOn G k.
Proof.
  induction l as [|p l IH]; [done|].
  rewrite <- app_comm_cons, !tilesOn_cons, IH.
  by destruct (getTileAtCoord G p).
Qed.

Lemma tilesOn_elem G line t :
  NoDup (position <$> G) →
  t ∈ tilesOn G line ↔ t ∈ G ∧ position t ∈ line.
Proof. apply tilesInLine_elem. Qed.

Lemma tilesOn_length G line : (length (tilesOn G line) ≤ length line)%nat.
Proof. apply tilesInLine_length. Qed.

Lemma elem_of_concat {A} (x : A) (ls : list (list A)) :
  x ∈ concat ls ↔ ∃ l, l ∈ ls ∧ x ∈ l.
Proof.
  rewrite list_elem_of_In, in_concat.
  split; intros (l & H1 & H2); exists l; split; by apply list_elem_of_In.
Qed.

Lemma filter_split {A} (f : A → bool) (l : list A) :
  List.filter (λ x, negb (f x)) l ++ List.filter f l ≡ₚ l.
Proof.
  induction l as [|x l IH]; [done|]. simpl. destruct (f x); simpl.
  - rewrite <- Permutation_middle. by constructor.
  - by constructor.
Qed.

Lemma placed_keys (T : list Tile) (line : list HexCoord) :
  (length T ≤ length line)%nat →
  tileKey <$> (placed <$> zip T line) = tileKey <$> T.
Proof.
  intros Hlen. rewrite <- (zip_fst_short T line Hlen) at 2.
  rewrite <- !list_fmap_compose. apply list_fmap_ext. by intros i [t p] _.
Qed.

Lemma slideLine_grid G m line :
  (slideLine (G, m) line).1 =
    if (length (tilesOn G line) =? 0)%nat then G
    else List.filter (λ tile, negb (hasId (tilesOn G line) (id tile))) G
           ++ (placed <$> zip (tilesOn G line) line).
Proof.
  rewrite slideLine_unfold. cbv zeta. unfold tilesOn.
  by destruct (_ =? _)%nat.
Qed.

Lemma slideLine_wf G m line :
  wfGrid G → NoDup line → Forall (λ p, isValidCoord p = true) line →
  wfGrid (slideLine (G, m) line).1.
Proof.
  intros Hwf Hline Hvalid.
  assert ((slideLine (G, m) line).1 = (slideLine (G, false) line).1) as ->
    by (by rewrite !slideLine_grid).
  destruct (slideLine_inv G [] (G, false) line) as [Hwf' _ _ _ _]; try done.
  - apply Hwf.
  - intros p _ Hp. by apply elem_of_nil in Hp.
  - split; cbn [fst snd]; try done.
    + intros u Hu. by exists u.
    + intros _ u Hu. by exists u.
Qed.

Lemma slideLine_keys G m line :
  wfGrid G → NoDup line →
  tileKey <$> (slideLine (G, m) line).1 ≡ₚ tileKey <$> G.
Proof.
  intros [Hpos Hids _] Hline. rewrite slideLine_grid.
  set (T := tilesOn G line).
  destruct (length T =? 0)%nat; [done|].
  assert (∀ t, t ∈ T ↔ t ∈ G ∧ position t ∈ line) as HT
    by (intros t; by apply tilesOn_elem).
  rewrite fmap_app, placed_keys by apply tilesOn_length.
  rewrite <- fmap_app. apply fmap_Permutation.
  rewrite <- (filter_split (λ tile, hasId T (id tile)) G) at 2.
  apply Permutation_app_head, NoDup_Permutation.
  - apply (NoDup_fmap_1 position). by apply tilesInLine_NoDup.
  - apply (NoDup_fmap_1 id). by apply filter_fmap_NoDup.
  - intros t. rewrite filter_elem_of, hasId_true. split.
    + intros Ht. split; [by apply HT|eauto].
    + intros [Ht (t' & Ht' & Hid)].
      assert (t' = t) as <-; [|done].
      apply (NoDup_fmap_eq id G); [done|by apply HT|done|done].
Qed.

Lemma slideLine_flags G m line :
  flagsCleared G → flagsCleared (slideLine (G, m) line).1.
Proof.
  unfold flagsCleared. rewrite !Forall_forall. intros Hflags u.
  rewrite slideLine_grid. destruct (_ =? _)%nat; [by apply Hflags|].
  intros [[Hu _]%filter_elem_of|([t p] & -> & Hin)%list_elem_of_fmap]%elem_of_app;
    [by apply Hflags|].
  apply elem_of_zip_l in Hin. unfold tilesOn in Hin.
  apply list_elem_of_omap in Hin as (p' & _ & [Ht _]%getTileAtCoord_Some).
  destruct (Hflags t Ht) as [Hn Hm]. simpl. by rewrite Hn, Hm.
Qed.

Section OneLine.
Variable G : list Tile.
Variable m : bool.
Variable line : list HexCoord.
Hypothesis Hwf : wfGrid G.
Hypothesis Hline : NoDup line.
Hypothesis Hvalid : Forall (λ p, isValidCoord p = true) line.

Let T := tilesOn G line.
Let F := List.filter (λ tile, negb (hasId T (id tile))) G.
Let P := placed <$> zip T line.

Lemma kept_off_line u : u ∈ F ↔ u ∈ G ∧ position u ∉ line.
Proof.
  destruct Hwf as [Hpos Hids _].
  unfold F. rewrite filter_elem_of, negb_true_iff, hasId_false. split.
  - intros [Hu Hne]. split; [done|]. intros Hin.
    apply (Hne u); [|done]. by apply tilesOn_elem.
  - intros [Hu Hnl]. split; [done|]. intros t [Ht Htl]%tilesOn_elem Heq; [|done].
    assert (t = u) as -> by by apply (NoDup_fmap_eq id G). done.
Qed.

Lemma placed_on_line : position <$> P = take (length T) line.
Proof. unfold P. by rewrite placed_positions, zip_snd_take. Qed.

Lemma slideLine_outside p :
  p ∉ line →
  getTileAtCoord (slideLine (G, m) line).1 p = getTileAtCoord G p.
Proof.
  intros Hp. pose proof (slideLine_wf G m line Hwf Hline Hvalid) as Hwf'.
  symmetry. apply getTileAtCoord_ext; [apply Hwf'|].
  intros t Ht. rewrite slideLine_grid. fold T.
  destruct (length T =? 0)%nat; [done|]. fold F P.
  rewrite elem_of_app, kept_off_line. split.
  - intros Hin. left. split; [done|]. by rewrite Ht.
  - intros [[Hin _]|Hin]; [done|]. destruct Hp.
    rewrite <- Ht. eapply elem_of_sublist; [|apply (sublist_take _ (length T))].
    rewrite <- placed_on_line. apply list_elem_of_fmap. eauto.
Qed.

Lemma slideLine_inside :
  tilesOn (slideLine (G, m) line).1 line = P.
Proof.
  pose proof (slideLine_wf G m line Hwf Hline Hvalid) as Hwf'.
  revert Hwf'. rewrite slideLine_grid. fold T.
  destruct (length T =? 0)%nat eqn:Hlen.
  { intros _. apply Nat.eqb_eq, nil_length_inv in Hlen.
    unfold P. fold T. by rewrite Hlen. }
  fold F P. intros Hwf'.
  rewrite <- (take_drop (length T) line) at 1.
  rewrite tilesOn_app, <- placed_on_line.
  rewrite tilesOn_positions_back; [|apply Hwf'|].
  2:{ intros t Ht. apply elem_of_app. by right. }
  rewrite tilesOn_empty; [by rewrite app_nil_r|].
  intros t p [[_ Hoff]%kept_off_line|Hin]%elem_of_app Hp Heq.
  - apply Hoff. rewrite Heq.
    eapply elem_of_sublist; [exact Hp|apply sublist_drop].
  - rewrite <- (take_drop (length T) line) in Hline.
    apply NoDup_app in Hline as (_ & Hdisj & _).
    apply (Hdisj p); [|done]. rewrite <- Heq, <- placed_on_line.
    apply list_elem_of_fmap. eauto.
Qed.

Lemma slideLine_order g0 finished :
  (∀ p, p ∈ line → p ∉ concat finished) →
  SlideOrder g0 finished G →
  SlideOrder g0 (finished ++ [line]) (slideLine (G, m) line).1.
Proof.
  intros Hdisj [_ Hkeys Hflags Hdone Hrest].
  assert (T = tilesOn g0 line) as HT0.
  { apply tilesOn_ext. intros p Hp. apply Hrest. by apply Hdisj. }
  split.
  - by apply slideLine_wf.
  - by rewrite slideLine_keys.
  - by apply slideLine_flags.
  - apply Forall_app. split.
    + apply Forall_forall. intros L HL.
      destruct (proj1 (Forall_forall _ _) Hdone L HL) as [Hk Hp].
      assert (tilesOn (slideLine (G, m) line).1 L = tilesOn G L) as HeqL.
      { apply tilesOn_ext. intros p Hp'. apply slideLine_outside.
        intros Hpl. apply (Hdisj p Hpl). apply elem_of_concat. eauto. }
      unfold packedOn. by rewrite HeqL.
    + constructor; [|constructor]. unfold packedOn.
      rewrite slideLine_inside. split.
      * unfold P. rewrite placed_keys by apply tilesOn_length. by rewrite HT0.
      * rewrite placed_on_line. f_equal. unfold P.
        rewrite length_fmap, <- (length_fmap fst (zip T line)).
        f_equal. symmetry. apply zip_fst_short, tilesOn_length.
  - intros p Hp. rewrite concat_app in Hp. simpl in Hp. rewrite app_nil_r in Hp.
    apply not_elem_of_app in Hp as [Hp1 Hp2].
    rewrite slideLine_outside by done. by apply Hrest.
Qed.
End OneLine.

Lemma slide_lines_order g0 lines : ∀ finished acc,
  NoDup (concat finished ++ concat lines) →
  Forall (Forall (λ p, isValidCoord p = true)) lines →
  SlideOrder g0 finished acc.1 →
  SlideOrder g0 (finished ++ lines) (foldl slideLine acc lines).1.
Proof.
  induction lines as [|line lines IH]; intros finished [G m] Hnd Hvalid Hso.
  - simpl. by rewrite app_nil_r.
  - simpl foldl. cbn [concat fst] in *.
    apply Forall_cons in Hvalid as [Hv Hvs].
    replace (finished ++ line :: lines) with ((finished ++ [line]) ++ lines)
      by (by rewrite <- app_assoc).
    pose proof Hnd as (_ & Hdisj & [Hl _]%NoDup_app)%NoDup_app.
    apply IH; [|done|].
    + rewrite concat_app. simpl. by rewrite app_nil_r, <- app_assoc.
    + apply slideLine_order; [apply Hso|done|done| |done].
      intros p Hp Hf. apply (Hdisj p Hf). apply elem_of_app. by left.
Qed.

Lemma getTileAtCoord_resetFlags g p :
  getTileAtCoord (resetFlags <$> g) p = resetFlags <$> getTileAtCoord g p.
Proof.
  unfold getTileAtCoord. induction g as [|t g IH]; [done|].
  rewrite fmap_cons. cbn [List.find resetFlags position].
  destruct (coordsEqual (position t) p); [done|]. apply IH.
Qed.

Lemma tilesOn_resetFlags g L :
  tilesOn (resetFlags <$> g) L = resetFlags <$> tilesOn g L.
Proof.
  induction L as [|p L IH]; [done|].
  rewrite !tilesOn_cons, getTileAtCoord_resetFlags, IH.
  by destruct (getTileAtCoord g p).
Qed.

Lemma resetFlags_keys (g : list Tile) :
  tileKey <$> (resetFlags <$> g) = tileKey <$> g.
Proof. rewrite <- list_fmap_compose. by apply list_fmap_ext. Qed.

Lemma slideGrid_order g d :
  wfGrid g →
  SlideOrder (resetFlags <$> g) (getAllLines d) (slideGrid g d).1.
Proof.
  intros [Hpos Hids Hval]. unfold slideGrid.
  change (map resetFlags g) with (resetFlags <$> g).
  apply (slide_lines_order _ _ [] (_, false)).
  - change (NoDup (concat (getAllLines d))). apply lines_NoDup.
  - apply lines_valid.
  - split; cbn [fst].
    + split; [by rewrite resetFlags_positions|by rewrite resetFlags_ids|].
      apply Forall_fmap. by apply (Forall_impl _ _ _ Hval).
    + done.
    + apply Forall_fmap, Forall_forall. by intros.
    + constructor.
    + done.
Qed.

Lemma slideGrid_lines g d L :
  wfGrid g → L ∈ getAllLines d →
  tileKey <$> tilesOn (slideGrid g d).1 L = tileKey <$> tilesOn g L ∧
  packedOn (slideGrid g d).1 L.
Proof.
  intros Hwf HL. destruct (slideGrid_order g d Hwf) as [_ _ _ Hdone _].
  destruct (proj1 (Forall_forall _ _) Hdone L HL) as [Hk Hp].
  split; [|done]. by rewrite Hk, tilesOn_resetFlags, resetFlags_keys.
Qed.

Lemma keys_totalValue a b :
  tileKey <$> a ≡ₚ tileKey <$> b → totalValue a = totalValue b.
Proof.
  intros H. unfold totalValue. apply sumZ_Permutation.
  assert (∀ g : list Tile, value <$> g = snd <$> (tileKey <$> g)) as Hv.
  { intros g. rewrite <- list_fmap_compose. by apply list_fmap_ext. }
  rewrite !Hv. by apply fmap_Permutation.
Qed.

Lemma keys_length (a b : list Tile) :
  tileKey <$> a ≡ₚ tileKey <$> b → length a = length b.
Proof. intros H%Permutation_length. by rewrite !length_fmap in H. Qed.

Lemma keys_values a b :
  tileKey <$> a ≡ₚ tileKey <$> b →
  valuesInProgression b → valuesInProgression a.
Proof.
  unfold valuesInProgression. rewrite !Forall_forall. intros H Hb t Ht.
  assert (tileKey t ∈ tileKey <$> b) as (u & Heq & Hu)%list_elem_of_fmap.
  { rewrite <- H. apply list_elem_of_fmap. eauto. }
  unfold tileKey in Heq. injection Heq as _ Hv. rewrite Hv. by apply Hb.
Qed.

(** X15: a slide neither creates nor destroys tiles.  The slid board is a
    board of the data model holding, up to order, the same ids with the same
    values; so the number of tiles and the sum of the values are kept, and
    every display flag is cleared. *)
Theorem slideGrid_conserves g d :
  wfGrid g →
  wfGrid (slideGrid g d).1 ∧
  tileKey <$> (slideGrid g d).1 ≡ₚ tileKey <$> g ∧
  length (slideGrid g d).1 = length g ∧
  totalValue (slideGrid g d).1 = totalValue g ∧
  flagsCleared (slideGrid g d).1.
Proof.
  intros Hwf. destruct (slideGrid_order g d Hwf) as [Hwf' Hkeys Hflags _ _].
  rewrite resetFlags_keys in Hkeys.
  split; [done|]. split; [done|].
  split; [by apply keys_length|]. split; [by apply keys_totalValue|done].
Qed.

Lemma slideGrid_conserves_witness :
  wfGrid (slideGrid spreadBoard EAST).1 ∧
  tileKey <$> (slideGrid spreadBoard EAST).1 ≡ₚ tileKey <$> spreadBoard ∧
  length (slideGrid spreadBoard EAST).1 = length spreadBoard ∧
  totalValue (slideGrid spreadBoard EAST).1 = totalValue spreadBoard ∧
  flagsCleared (slideGrid spreadBoard EAST).1.
Proof. apply (slideGrid_conserves spreadBoard EAST). split; by_compute. Defined.

(** X16: on every line of the direction, the slide keeps the tiles of the
    line (by id and value) in their order along the line and puts them on
    the first cells of the line without a gap. *)
Theorem slideGrid_packs g d L :
  wfGrid g → L ∈ getAllLines d →
  tileKey <$> tilesOn (slideGrid g d).1 L = tileKey <$> tilesOn g L ∧
  packedOn (slideGrid g d).1 L.
Proof. apply slideGrid_lines. Qed.

Lemma slideGrid_packs_witness :
  tileKey <$> tilesOn (slideGrid spreadBoard EAST).1 (getLine (mkHex 2 0) EAST)
    = tileKey <$> tilesOn spreadBoard (getLine (mkHex 2 0) EAST) ∧
  packedOn (slideGrid spreadBoard EAST).1 (getLine (mkHex 2 0) EAST).
Proof.
  apply (slideGrid_packs spreadBoard EAST (getLine (mkHex 2 0) EAST));
    [split; by_compute|by_compute].
Defined.

Lemma fmap_eq_transfer {A B C} (f : A → B) (h : A → C) (l k : list A) :
  f <$> l = f <$> k →
  (∀ x y, x ∈ l → y ∈ k → f x = f y → h x = h y) →
  h <$> l = h <$> k.
Proof.
  revert k. induction l as [|x l IH]; intros [|y k] Heq Hh; try done.
  rewrite !fmap_cons in *. injection Heq as Hxy Heq. f_equal.
  - apply Hh; [by left|by left|done].
  - apply IH; [done|]. intros x' y' Hx' Hy'. apply Hh; by right.
Qed.

Lemma slideGrid_flag_packed g d :
  wfGrid g →
  snd (slideGrid g d) = false ↔ ∀ L, L ∈ getAllLines d → packedOn g L.
Proof.
  intros Hwf. rewrite <- (unmovedBy_iff_flag g d Hwf).
  destruct (slideGrid_order g d Hwf) as [Hwf' _ _ _ _].
  unfold unmovedBy. rewrite Forall_forall. split.
  - intros Hun L HL. destruct (slideGrid_lines g d L Hwf HL) as [Hk Hp].
    unfold packedOn in *.
    assert (length (tilesOn g L) = length (tilesOn (slideGrid g d).1 L)) as Hlen.
    { apply (f_equal length) in Hk. by rewrite !length_fmap in Hk. }
    rewrite Hlen, <- Hp.
    apply (fmap_eq_transfer tileKey position); [done|].
    intros t u [Ht _]%tilesOn_elem [Hu _]%tilesOn_elem Heq;
      [|apply Hwf'|apply Hwf].
    destruct (proj1 (Exists_exists _ _) (Hun u Hu)) as (u0 & Hu0 & Hid & Hpos).
    assert (u0 = t) as ->; [|done].
    apply (NoDup_fmap_eq id g); [apply Hwf|done|done|].
    unfold tileKey in Heq. injection Heq as Heq _. congruence.
  - intros Hpacked u Hu. apply Exists_exists.
    assert (position u ∈ concat (getAllLines d)) as (L & HL & HuL)%elem_of_concat.
    { apply lines_cover, valid_iff_grid.
      by apply (proj1 (Forall_forall _ _) (wf_valid _ Hwf')). }
    destruct (slideGrid_lines g d L Hwf HL) as [Hk Hp].
    pose proof (Hpacked L HL) as Hpg. unfold packedOn in *.
    assert (length (tilesOn g L) = length (tilesOn (slideGrid g d).1 L)) as Hlen.
    { apply (f_equal length) in Hk. by rewrite !length_fmap in Hk. }
    rewrite Hlen, <- Hp in Hpg.
    assert (u ∈ tilesOn (slideGrid g d).1 L) as (i & Hi)%list_elem_of_lookup_1.
    { apply tilesOn_elem; [apply Hwf'|done]. }
    apply (f_equal (.!! i)) in Hk, Hpg.
    rewrite !list_lookup_fmap, Hi in Hk. rewrite !list_lookup_fmap, Hi in Hpg.
    destruct (tilesOn g L !! i) as [t|] eqn:Ht; [|done].
    cbn [fmap option_fmap option_map] in Hk, Hpg.
    exists t. split.
    + apply list_elem_of_lookup_2, tilesOn_elem in Ht as [Ht _]; [done|apply Hwf].
    + unfold tileKey in Hk. split; congruence.
Qed.

Lemma fullBoard_unmoved g d :
  wfGrid g → fullBoard g → snd (slideGrid g d) = false.
Proof.
  intros Hwf Hfull. apply slideGrid_flag_packed; [done|]. intros L HL.
  unfold packedOn.
  assert (position <$> tilesOn g L = L) as Hall.
  { assert (Forall (λ p, isValidCoord p = true) L) as Hv
      by exact (proj1 (Forall_forall _ _) (lines_valid d) L HL).
    clear HL. induction L as [|p L IH]; [done|].
    apply Forall_cons in Hv as [Hp Hv]. rewrite tilesOn_cons.
    destruct (Hfull p Hp) as (t & Ht & Hpos).
    rewrite <- Hpos at 1. rewrite getTileAtCoord_unique; [|apply Hwf|done].
    rewrite fmap_cons, IH by done. by rewrite Hpos. }
  pose proof (f_equal length Hall) as Hlen. rewrite length_fmap in Hlen.
  by rewrite Hall, Hlen, firstn_all.
Qed.

(** X17: on a board of the data model, a slide reports no movement exactly
    when on every line of the direction the tiles already stand on the first
    cells of the line; so a full board never moves and sliding a second time
    in the same direction moves nothing. *)
Theorem slideGrid_moved_iff g d :
  wfGrid g →
  (snd (slideGrid g d) = false ↔ ∀ L, L ∈ getAllLines d → packedOn g L) ∧
  (fullBoard g → snd (slideGrid g d) = false) ∧
  snd (slideGrid (slideGrid g d).1 d) = false.
Proof.
  intros Hwf. split; [by apply slideGrid_flag_packed|]. split.
  - by apply fullBoard_unmoved.
  - destruct (slideGrid_order g d Hwf) as [Hwf' _ _ _ _].
    apply slideGrid_flag_packed; [done|]. intros L HL.
    by apply slideGrid_lines.
Qed.

Lemma slideGrid_moved_iff_witness :
  (snd (slideGrid packedTriplet EAST) = false ↔
     ∀ L, L ∈ getAllLines EAST → packedOn packedTriplet L) ∧
  (fullBoard packedTriplet → snd (slideGrid packedTriplet EAST) = false) ∧
  snd (slideGrid (slideGrid packedTriplet EAST).1 EAST) = false.
Proof. apply (slideGrid_moved_iff packedTriplet EAST). split; by_compute. Defined.

(** ** core/game.ts: what a move does *)

Lemma wf_full g : wfGrid g → (19 ≤ length g)%nat → fullBoard g.
Proof.
  intros [Hpos _ Hval] Hlen p Hp%valid_iff_grid.
  assert (position <$> g ≡ₚ getAllGridCoords) as Hperm.
  { apply submseteq_length_Permutation.
    - apply NoDup_submseteq; [done|].
      intros x (u & -> & Hu)%list_elem_of_fmap. apply valid_iff_grid.
      by apply (proj1 (Forall_forall _ _) Hval).
    - rewrite length_fmap. exact Hlen. }
  rewrite <- Hperm in Hp. apply list_elem_of_fmap in Hp as (t & -> & Ht). eauto.
Qed.

Lemma totalValue_singleton t : totalValue [t] = value t.
Proof. unfold totalValue, sumZ. simpl. lia. Qed.

Lemma addRandomTile_shape g e c g' c' :
  addRandomTile g e c = Some (g', c') →
  g' = g ∨ ∃ t, g' = g ++ [t] ∧ (value t = 2 ∨ value t = 6).
Proof.
  unfold addRandomTile.
  destruct (length (emptyCoordsOf g) =? 0)%nat; [intros [= <- <-]; by left|].
  unfold mathRandom, freshId. cbn [draws stamps].
  destruct (lookupZ _ _) as [p|]; [|done]. simpl. intros [= <- <-].
  right. eexists. split; [done|]. simpl. destruct (Qlt_le_dec _ _); auto.
Qed.

Lemma addRandomTiles_shape e n : ∀ g c g' c',
  addRandomTiles n g e c = Some (g', c') →
  ∃ news, g' = g ++ news ∧ (length news ≤ n)%nat ∧
    Forall (λ t, value t = 2 ∨ value t = 6) news.
Proof.
  induction n as [|n IH]; intros g c g' c'; simpl.
  { intros [= <- <-]. exists []. by rewrite app_nil_r. }
  destruct (addRandomTile g e c) as [[g1 c1]|] eqn:Hadd; [|done]. simpl.
  intros (news & -> & Hlen & Hall)%IH.
  destruct (addRandomTile_shape _ _ _ _ _ Hadd) as [->|(t & -> & Ht)].
  - exists news. split; [done|]. split; [lia|done].
  - exists (t :: news). rewrite <- app_assoc. split; [done|].
    split; [simpl; lia|by constructor].
Qed.

Lemma initializeGameState_shape e c st c' :
  initializeGameState e c = Some (st, c') →
  ∃ g, st = mkGameState g 0 0 false false false [] 3 ∧ (length g ≤ 5)%nat ∧
    Forall (λ t, value t = 2 ∨ value t = 6) g.
Proof.
  unfold initializeGameState.
  destruct (addRandomTiles 5 initializeGrid e c) as [[g c1]|] eqn:Hadd; [|done].
  simpl. intros [= <- <-].
  apply addRandomTiles_shape in Hadd as (news & -> & Hlen & Hall).
  exists news. done.
Qed.

Lemma small_values_progression g :
  Forall (λ t, value t = 2 ∨ value t = 6) g → valuesInProgression g.
Proof.
  intros H. eapply Forall_impl; [exact H|]. intros t [->| ->]; by_compute.
Qed.

Lemma roomy_has_moves g : (length g < 19)%nat → hasValidMoves g = true.
Proof.
  intros Hlen. unfold hasValidMoves.
  destruct (emptyCoordsOf g) as [|p rest] eqn:He; [|done].
  apply emptyCoordsOf_nil, fullBoard_length in He. lia.
Qed.

Section MoveAccounting.
Variable e : Entropy.
Hypothesis nextId_inj : Inj (=) (=) (nextId e).

(** X18: a move that slides some tile, on a board of the data model with
    progression values and random numbers in [0, 1), always finds a free
    cell afterwards: the new board is the merged board followed by exactly
    one spawned tile of value 2 or 6.  The sum of the values grows by the
    value of that tile, each merge removes two tiles and scores at least 6,
    two random numbers are consumed (position and value of the spawn), and
    the previous board and score are pushed on the history. *)
Theorem moveInDirection_effect fuel st d c st' c' :
  boardInv e c (grid st) → valuesInProgression (grid st) → unitRange e →
  snd (slideGrid (grid st) d) = true →
  moveInDirection fuel st d e c = Some (st', c') →
  ∃ merged t inc merges,
    grid st' = merged ++ [t] ∧
    (value t = 2 ∨ value t = 6) ∧ isNew t = Some true ∧
    isValidCoord (position t) = true ∧
    (∀ u, u ∈ merged → position u ≠ position t) ∧
    totalValue (grid st') = totalValue (grid st) + value t ∧
    (length (grid st') + 2 * merges = length (grid st) + 1)%nat ∧
    draws c' = (draws c + 2)%nat ∧ stamps c' = (stamps c + merges + 1)%nat ∧
    score st' = score st + inc ∧ 6 * Z.of_nat merges ≤ inc ∧
    bestScore st' = Z.max (bestScore st) (score st') ∧
    canUndo st' = true ∧
    history st' = history st ++ [mkSnapshot (grid st) (score st)] ∧
    undosRemaining st' = undosRemaining st.
Proof.
  intros [Hwf Hbelow] Hvals Hunit Hmoved Hmove.
  destruct (moveInDirection_moved _ _ _ _ _ _ _ Hmoved Hmove)
    as (mergedGrid & inc & c1 & newGrid & Hres & Hadd & ->).
  destruct (slideGrid_order (grid st) d Hwf) as [Hwf1 Hkeys _ _ _].
  rewrite resetFlags_keys in Hkeys.
  pose proof (slideGrid_boardInv e c (grid st) d (conj Hwf Hbelow)) as Hinv1.
  pose proof (keys_values _ _ Hkeys Hvals) as Hvals1.
  destruct (resolveLoop_accounts e nextId_inj fuel _ 0 c mergedGrid inc c1
              Hinv1 Hvals1 Hres) as (Htot & Hle & Hlen & Hdraws & Hinc & Hvals2).
  rewrite (keys_length _ _ Hkeys) in Hlen.
  rewrite (keys_totalValue _ _ Hkeys) in Htot.
  assert (¬ fullBoard mergedGrid) as Hroom.
  { intros Hfull%fullBoard_length.
    assert (fullBoard (grid st)) as Hf0 by (apply wf_full; [done|lia]).
    by rewrite (fullBoard_unmoved _ d Hwf Hf0) in Hmoved. }
  destruct (addRandomTile_cases mergedGrid e c1 Hunit)
    as [[Hfull _]|(t & Hadd' & [Hv Hfree]%emptyCoordsOf_elem
                   & Hval & Hid & Hnew & _)]; [done|].
  rewrite Hadd' in Hadd. injection Hadd as <- <-.
  exists mergedGrid, t, inc, (stamps c1 - stamps c)%nat.
  cbn [grid score bestScore canUndo history undosRemaining draws stamps].
  rewrite totalValue_app, totalValue_singleton, length_app. simpl.
  repeat split; try done; lia.
Qed.

(** X21: a move on a board of the data model whose values belong to the
    progression and sum to less than three terminal tiles returns, for every
    bound above the number of tiles, when the random numbers lie in
    [0, 1). *)
Theorem moveInDirection_returns st d c :
  boardInv e c (grid st) → valuesInProgression (grid st) → unitRange e →
  totalValue (grid st) < 3 * 1062882 →
  ∃ res, ∀ fuel, (length (grid st) < fuel)%nat →
    moveInDirection fuel st d e c = Some res.
Proof.
  intros [Hwf Hbelow] Hvals Hunit Htot.
  destruct (slideGrid_order (grid st) d Hwf) as [Hwf1 Hkeys _ _ _].
  rewrite resetFlags_keys in Hkeys.
  rewrite <- (keys_length _ _ Hkeys).
  destruct (moveInDirection_returns_or_never e nextId_inj st d c
              (conj Hwf Hbelow) Hunit) as [H|Hnever]; [done|].
  exfalso.
  destruct (snd (slideGrid (grid st) d)) eqn:Hmoved.
  2:{ specialize (Hnever 0%nat). by rewrite moveInDirection_not_moved in Hnever. }
  destruct (resolveLoop_returns e nextId_inj (length (slideGrid (grid st) d).1)
              (slideGrid (grid st) d).1 0 c) as [[[g1 s1] c1] Hres].
  - done.
  - apply slideGrid_boardInv. by split.
  - by apply (keys_values _ _ Hkeys).
  - by rewrite (keys_totalValue _ _ Hkeys).
  - destruct (addRandomTile_total e c1 g1 Hunit) as (g2 & c2 & Hadd).
    specialize (Hnever (S (length (slideGrid (grid st) d).1))).
    unfold moveInDirection, resolveAllMerges in Hnever.
    destruct (slideGrid (grid st) d) as [movedGrid moved].
    cbn [fst snd] in *. subst moved. cbn [negb] in Hnever.
    rewrite Hres in Hnever. simpl in Hnever. rewrite Hadd in Hnever. done.
Qed.

End MoveAccounting.

Lemma moveInDirection_effect_witness :
  ∃ st' c',
    moveInDirection 3 (stateOf minted) EAST sampleEntropy mintedCursor
      = Some (st', c') ∧
    ∃ merged t inc merges,
      grid st' = merged ++ [t] ∧
      (value t = 2 ∨ value t = 6) ∧ isNew t = Some true ∧
      isValidCoord (position t) = true ∧
      (∀ u, u ∈ merged → position u ≠ position t) ∧
      totalValue (grid st') = totalValue minted + value t ∧
      (length (grid st') + 2 * merges = length minted + 1)%nat ∧
      draws c' = 2%nat ∧ stamps c' = (4 + merges + 1)%nat ∧
      score st' = 0 + inc ∧ 6 * Z.of_nat merges ≤ inc ∧
      bestScore st' = Z.max 0 (score st') ∧
      canUndo st' = true ∧
      history st' = [mkSnapshot minted 0] ∧
      undosRemaining st' = 3.
Proof.
  destruct (moveInDirection 3 (stateOf minted) EAST sampleEntropy mintedCursor)
    as [[st' c']|] eqn:Hmove; [|by vm_compute in Hmove].
  exists st', c'. split; [done|].
  apply (moveInDirection_effect sampleEntropy sampleEntropy_inj 3
           (stateOf minted) EAST mintedCursor st' c'
           minted_boardInv minted_values sampleEntropy_unit);
    [by vm_compute|done].
Defined.

Lemma moveInDirection_returns_witness :
  ∃ res, ∀ fuel, (length minted < fuel)%nat →
    moveInDirection fuel (stateOf minted) EAST sampleEntropy mintedCursor
    = Some res.
Proof.
  apply (moveInDirection_returns sampleEntropy sampleEntropy_inj
           (stateOf minted) EAST mintedCursor
           minted_boardInv minted_values sampleEntropy_unit).
  by vm_compute.
Defined.

(** ** core/game.ts: bookkeeping of the reachable states *)

Lemma initial_bookInv g best undos :
  0 ≤ best → Forall (λ t, value t = 2 ∨ value t = 6) g →
  bookInv (mkGameState g 0 best false false false [] undos).
Proof.
  intros Hbest Hall. split; cbn [grid score bestScore canUndo history].
  - by apply small_values_progression.
  - constructor.
  - lia.
  - constructor.
  - done.
Qed.

Lemma moved_state_bookInv st newGrid inc over won :
  bookInv st → valuesInProgression newGrid → 0 ≤ inc →
  bookInv (mkGameState newGrid (score st + inc)
             (Z.max (bestScore st) (score st + inc)) over won true
             (history st ++ [mkSnapshot (grid st) (score st)])
             (undosRemaining st)).
Proof.
  intros [Hv Hhv Hs Hhs Hc] Hnew Hinc.
  split; cbn [grid score bestScore canUndo history].
  - done.
  - apply Forall_app. split; [done|]. by constructor.
  - lia.
  - apply Forall_app. split.
    + eapply Forall_impl; [exact Hhs|]. intros snap ?. simpl in *. lia.
    + constructor; [|done]. simpl. lia.
  - split; [intros _|done]. by destruct (history st).
Qed.

Lemma undoMove_bookInv st : bookInv st → bookInv (undoMove st).
Proof.
  intros Hbk. pose proof Hbk as [Hv Hhv Hs Hhs Hc]. unfold undoMove.
  destruct (_ || _); [done|].
  destruct (last (history st)) as [lastState|] eqn:Hlast; [|done].
  apply last_Some_elem_of in Hlast.
  split; cbn [grid score bestScore canUndo history].
  - by apply (proj1 (Forall_forall _ _) Hhv).
  - by apply Forall_take.
  - by apply (proj1 (Forall_forall _ _) Hhs).
  - by apply Forall_take.
  - rewrite Nat.ltb_lt. destruct (take _ _); simpl; split; try done; lia.
Qed.

Lemma undoMove_snoc st older snap :
  history st = older ++ [snap] → canUndo st = true → 0 < undosRemaining st →
  undoMove st =
    mkGameState (snap_grid snap) (snap_score snap) (bestScore st) false false
      (0 <? length older)%nat older (undosRemaining st - 1).
Proof.
  intros Hh Hc Hu. unfold undoMove. rewrite Hh, Hc, last_snoc, length_app.
  simpl. replace (length older + 1 =? 0)%nat with false
    by (symmetry; apply Nat.eqb_neq; lia).
  replace (undosRemaining st <=? 0) with false by (symmetry; apply Z.leb_gt; lia).
  simpl. replace (length older + 1 - 1)%nat with (length older) by lia.
  by rewrite take_app_length.
Qed.

Lemma undoMove_blocked st :
  canUndo st = false ∨ history st = [] ∨ undosRemaining st ≤ 0 →
  undoMove st = st.
Proof.
  unfold undoMove. intros [->|[->|Hu]]; [done|by rewrite orb_true_r|].
  apply Z.leb_le in Hu. rewrite Hu. by rewrite orb_true_r.
Qed.

Section Bookkeeping.
Variable e : Entropy.
Hypothesis nextId_inj : Inj (=) (=) (nextId e).

Lemma moveInDirection_bookInv fuel st d c st' c' :
  stateInv e c st → bookInv st →
  moveInDirection fuel st d e c = Some (st', c') → bookInv st'.
Proof.
  intros [[Hwf Hbelow] _] Hbk Hmove.
  destruct (snd (slideGrid (grid st) d)) eqn:Hmoved.
  2:{ rewrite moveInDirection_not_moved in Hmove by done.
      by injection Hmove as <- <-. }
  destruct (moveInDirection_moved _ _ _ _ _ _ _ Hmoved Hmove)
    as (mergedGrid & inc & c1 & newGrid & Hres & Hadd & ->).
  destruct (slideGrid_order (grid st) d Hwf) as [Hwf1 Hkeys _ _ _].
  rewrite resetFlags_keys in Hkeys.
  pose proof (slideGrid_boardInv e c (grid st) d (conj Hwf Hbelow)) as Hinv1.
  pose proof (keys_values _ _ Hkeys (bk_values _ Hbk)) as Hvals1.
  destruct (resolveLoop_accounts e nextId_inj fuel _ 0 c mergedGrid inc c1
              Hinv1 Hvals1 Hres) as (_ & _ & _ & _ & Hinc & Hvals2).
  apply moved_state_bookInv; [done| |lia].
  destruct (addRandomTile_shape _ _ _ _ _ Hadd) as [->|(t & -> & Ht)]; [done|].
  apply Forall_app. split; [done|]. constructor; [|done].
  destruct Ht as [->| ->]; by_compute.
Qed.

Lemma reachable_bookInv st c : reachable e st c → bookInv st.
Proof.
  intros Hreach.
  induction Hreach as [c st c' Hinit|fuel st c d st' c' Hr IH Hmove|st c _ IH
                      |st c st' c' _ IH Hreset|st c undoLimit _ IH].
  - apply initializeGameState_shape in Hinit as (g & -> & _ & Hall).
    by apply initial_bookInv.
  - apply (moveInDirection_bookInv fuel st d c st' c'); [|done|done].
    by apply (reachable_inv e nextId_inj).
  - by apply undoMove_bookInv.
  - unfold resetGame in Hreset.
    destruct (initializeGameState e c) as [[fresh c1]|] eqn:Hinit; [|done].
    simpl in Hreset. injection Hreset as <- <-.
    apply initializeGameState_shape in Hinit as (g & -> & _ & Hall).
    cbn [grid score isGameOver isWon canUndo history undosRemaining].
    apply initial_bookInv; [|done]. destruct IH as [_ _ ? _ _]. lia.
  - destruct IH. by split.
Qed.

(** X19: in every state the engine can reach (ids never reused), all values
    on the board and in the snapshots belong to the progression, the score
    lies between 0 and the best score, so does the score of every snapshot,
    and [canUndo] is set exactly when the history is not empty. *)
Theorem reachable_bookkeeping st c :
  reachable e st c →
  valuesInProgression (grid st) ∧
  0 ≤ score st ≤ bestScore st ∧
  (canUndo st = true ↔ history st ≠ []) ∧
  Forall (λ snap, valuesInProgression (snap_grid snap) ∧
                  0 ≤ snap_score snap ≤ bestScore st) (history st).
Proof.
  intros [Hv Hhv Hs Hhs Hc]%reachable_bookInv.
  split; [done|]. split; [done|]. split; [done|].
  apply Forall_and. done.
Qed.

(** X14: in a reachable state [undoMove] does nothing exactly when the
    history is empty or no undo is left; otherwise it restores the board
    and score of the last snapshot, removes that snapshot, clears both
    terminal flags, keeps the best score and uses up one undo. *)
Theorem undoMove_reachable st c :
  reachable e st c →
  (undoMove st = st ↔ history st = [] ∨ undosRemaining st ≤ 0) ∧
  (undoMove st ≠ st →
   ∃ older snap,
     history st = older ++ [snap] ∧
     undoMove st =
       mkGameState (snap_grid snap) (snap_score snap) (bestScore st)
         false false (0 <? length older)%nat older (undosRemaining st - 1)).
Proof.
  intros [_ _ _ _ Hc]%reachable_bookInv.
  assert (history st = [] ∨ ∃ older snap, history st = older ++ [snap])
    as [Hh|(older & snap & Hh)]
    by (destruct (history st) using rev_ind; eauto).
  - assert (undoMove st = st) as Heq by (apply undoMove_blocked; auto).
    split; [split; auto|]. done.
  - assert (canUndo st = true) as Hcan.
    { apply Hc. rewrite Hh. by destruct older. }
    destruct (decide (undosRemaining st ≤ 0)) as [Hu|Hu].
    + assert (undoMove st = st) as Heq by (apply undoMove_blocked; auto).
      split; [split; auto|]. done.
    + pose proof (undoMove_snoc st older snap Hh Hcan ltac:(lia)) as Heq.
      split; [|intros _; eauto]. split.
      * intros Hsame. rewrite Hsame in Heq.
        apply (f_equal undosRemaining) in Heq. simpl in Heq. lia.
      * intros [Hnil|?]; [|lia]. rewrite Hh in Hnil. by destruct older.
Qed.

End Bookkeeping.

Lemma reachable_bookkeeping_witness :
  ∃ st c st' c',
    initializeGameState sampleEntropy start = Some (st, c) ∧
    moveInDirection 3 st NORTHEAST sampleEntropy c = Some (st', c') ∧
    valuesInProgression (grid st') ∧
    0 ≤ score st' ≤ bestScore st' ∧
    (canUndo st' = true ↔ history st' ≠ []) ∧
    Forall (λ snap, valuesInProgression (snap_grid snap) ∧
                    0 ≤ snap_score snap ≤ bestScore st') (history st').
Proof.
  destruct (initializeGameState sampleEntropy start) as [[st c]|] eqn:Hinit;
    [|by vm_compute in Hinit].
  destruct (moveInDirection 3 st NORTHEAST sampleEntropy c) as [[st' c']|] eqn:Hmove.
  2:{ vm_compute in Hinit. injection Hinit as <- <-. by vm_compute in Hmove. }
  exists st, c, st', c'. split; [done|]. split; [done|].
  apply (reachable_bookkeeping sampleEntropy sampleEntropy_inj st' c').
  apply (reach_move sampleEntropy 3 st c NORTHEAST st' c'); [|done].
  by apply (reach_init sampleEntropy start).
Defined.

Lemma undoMove_reachable_witness :
  ∃ st c st' c',
    initializeGameState sampleEntropy start = Some (st, c) ∧
    moveInDirection 3 st NORTHEAST sampleEntropy c = Some (st', c') ∧
    (undoMove st' = st' ↔ history st' = [] ∨ undosRemaining st' ≤ 0) ∧
    (undoMove st' ≠ st' →
     ∃ older snap,
       history st' = older ++ [snap] ∧
       undoMove st' =
         mkGameState (snap_grid snap) (snap_score snap) (bestScore st')
           false false (0 <? length older)%nat older (undosRemaining st' - 1)).
Proof.
  destruct (initializeGameState sampleEntropy start) as [[st c]|] eqn:Hinit;
    [|by vm_compute in Hinit].
  destruct (moveInDirection 3 st NORTHEAST sampleEntropy c) as [[st' c']|] eqn:Hmove.
  2:{ vm_compute in Hinit. injection Hinit as <- <-. by vm_compute in Hmove. }
  exists st, c, st', c'. split; [done|]. split; [done|].
  apply (undoMove_reachable sampleEntropy sampleEntropy_inj st' c').
  apply (reach_move sampleEntropy 3 st c NORTHEAST st' c'); [|done].
  by apply (reach_init sampleEntropy start).
Defined.

(** ** stores/gameStore.ts: the flags and the undo budget *)

Lemma flags_truth newGrid :
  (length (emptyCoordsOf newGrid) =? 0)%nat && negb (canMergeAnywhere newGrid)
  = negb (hasValidMoves newGrid).
Proof. unfold hasValidMoves. by destruct (emptyCoordsOf newGrid). Qed.

Lemma undoLimit_nonneg m : 0 ≤ undoLimit (GAME_MODES m).
Proof. by destruct m. Qed.

Lemma fresh_storeInv g best undos m :
  (length g ≤ 5)%nat → Forall (λ t, value t = 2 ∨ value t = 6) g →
  0 ≤ undos ≤ undoLimit (GAME_MODES m) →
  storeInv (mkStore (mkGameState g 0 best false false false [] undos) m).
Proof.
  intros Hlen Hall Hundos.
  split; cbn [storeState gameMode grid isWon isGameOver undosRemaining history].
  - split; [done|]. intros (t & Ht & Hbig).
    destruct (proj1 (Forall_forall _ _) Hall t Ht); lia.
  - rewrite roomy_has_moves; [done|lia].
  - done.
  - constructor.
Qed.

Lemma reset_storeInv st m e c newState c' :
  resetGame st e c = Some (newState, c') →
  storeInv (mkStore (setUndos newState (undoLimit (GAME_MODES m))) m).
Proof.
  unfold resetGame.
  destruct (initializeGameState e c) as [[fresh c1]|] eqn:Hinit; [|done].
  simpl. intros [= <- <-].
  apply initializeGameState_shape in Hinit as (g & -> & Hlen & Hall).
  unfold setUndos. cbn [grid score bestScore isGameOver isWon canUndo history].
  apply fresh_storeInv; [done|done|]. pose proof (undoLimit_nonneg m). lia.
Qed.

Lemma storeMove_inv fuel s d e c s' c' :
  storeInv s → storeMove fuel s d e c = Some (s', c') → storeInv s'.
Proof.
  intros Hinv. unfold storeMove. destruct s as [st m].
  cbn [storeState gameMode] in *.
  destruct (isGameOver st || isWon st) eqn:Hgate; [by intros [= <- <-]|].
  apply orb_false_iff in Hgate as [Hover Hwon].
  destruct (moveInDirection fuel st d e c) as [[newState c1]|] eqn:Hmove; [|done].
  simpl. intros [= <- <-].
  destruct (snd (slideGrid (grid st) d)) eqn:Hmoved.
  2:{ rewrite moveInDirection_not_moved in Hmove by done.
      by injection Hmove as <- <-. }
  destruct (moveInDirection_moved _ _ _ _ _ _ _ Hmoved Hmove)
    as (mergedGrid & inc & c2 & newGrid & _ & _ & ->).
  destruct Hinv as [Hw Ho Hu Hh].
  cbn [storeState gameMode grid isWon isGameOver undosRemaining history] in *.
  split; cbn [storeState gameMode grid isWon isGameOver undosRemaining history].
  - apply (highestTile_ge 1062882). lia.
  - apply flags_truth.
  - done.
  - apply Forall_app. split; [done|]. constructor; [|done]. simpl. split.
    + intros t Ht. destruct (decide (value t < 1062882)); [done|]. exfalso.
      assert (isWon st = true) by (apply Hw; exists t; split; [done|lia]).
      congruence.
    + rewrite Hover in Ho. by destruct (hasValidMoves (grid st)).
Qed.

Lemma storeUndo_inv s : storeInv s → storeInv (storeUndo s).
Proof.
  intros Hinv. pose proof Hinv as [Hw Ho Hu Hh].
  unfold storeUndo, undoMove. destruct s as [st m].
  cbn [storeState gameMode] in *.
  destruct (_ || _) eqn:Hgate; [done|].
  apply orb_false_iff in Hgate as [_ Hleft%Z.leb_gt].
  destruct (last (history st)) as [lastState|] eqn:Hlast; [|done].
  apply last_Some_elem_of in Hlast.
  destruct (proj1 (Forall_forall _ _) Hh lastState Hlast) as [Hsmall Hmoves].
  split; cbn [storeState gameMode grid isWon isGameOver undosRemaining history].
  - split; [done|]. intros (t & Ht & Hbig). specialize (Hsmall t Ht). lia.
  - by rewrite Hmoves.
  - lia.
  - by apply Forall_take.
Qed.

Lemma storeReachable_inv e s c : storeReachable e s c → storeInv s.
Proof.
  induction 1 as [c s c' Hcreate|fuel s c d s' c' _ IH Hmove|s c _ IH
                 |s c s' c' _ _ Hreset|s c m s' c' _ _ Hmode].
  - unfold createStore in Hcreate.
    destruct (initializeGameState e c) as [[st c1]|] eqn:Hinit; [|done].
    simpl in Hcreate. injection Hcreate as <- <-.
    apply initializeGameState_shape in Hinit as (g & -> & Hlen & Hall).
    by apply fresh_storeInv.
  - by apply (storeMove_inv fuel s d e c s' c').
  - by apply storeUndo_inv.
  - unfold storeReset in Hreset.
    destruct (resetGame (storeState s) e c) as [[newState c1]|] eqn:Hr; [|done].
    simpl in Hreset. injection Hreset as <- <-.
    by apply (reset_storeInv (storeState s) (gameMode s) e c newState c1).
  - unfold setGameMode in Hmode.
    destruct (resetGame (storeState s) e c) as [[newState c1]|] eqn:Hr; [|done].
    simpl in Hmode. injection Hmode as <- <-.
    by apply (reset_storeInv (storeState s) m e c newState c1).
Qed.

(** X20: in every state the store can reach, [isWon] is set exactly when a
    tile of the winning value is on the board, [isGameOver] exactly when the
    board has no valid move, the undos left lie between 0 and the limit of
    the current mode, and every snapshot kept for undo is a board without
    winning tile that still had a valid move. *)
Theorem store_flags_truthful e s c :
  storeReachable e s c →
  (isWon (storeState s) = true ↔
     ∃ t, t ∈ grid (storeState s) ∧ winningTile (GAME_MODES (gameMode s)) ≤ value t) ∧
  isGameOver (storeState s) = negb (hasValidMoves (grid (storeState s))) ∧
  0 ≤ undosRemaining (storeState s) ≤ undoLimit (GAME_MODES (gameMode s)) ∧
  Forall (λ snap, (∀ t, t ∈ snap_grid snap → value t < 1062882) ∧
                  hasValidMoves (snap_grid snap) = true)
    (history (storeState s)).
Proof.
  intros [Hw Ho Hu Hh]%storeReachable_inv.
  split; [|done]. by destruct (gameMode s).
Qed.

(** X22: in the modes without undo (TIME_TRIAL and FAST_PACE) the undo
    action of the store never changes the state. *)
Theorem timed_modes_no_undo e s c :
  storeReachable e s c → gameMode s ≠ CLASSIC → storeUndo s = s.
Proof.
  intros [_ _ Hu _]%storeReachable_inv Hmode.
  destruct s as [st m]. unfold storeUndo. cbn [storeState gameMode] in *.
  f_equal. apply undoMove_blocked. right. right. destruct m; [done|..]; simpl in Hu; lia.
Qed.

Lemma store_flags_truthful_witness :
  ∃ s0 c0 s c,
    createStore sampleEntropy start = Some (s0, c0) ∧
    storeMove 3 s0 NORTHEAST sampleEntropy c0 = Some (s, c) ∧
    (isWon (storeState s) = true ↔
       ∃ t, t ∈ grid (storeState s) ∧
            winningTile (GAME_MODES (gameMode s)) ≤ value t) ∧
    isGameOver (storeState s) = negb (hasValidMoves (grid (storeState s))) ∧
    0 ≤ undosRemaining (storeState s) ≤ undoLimit (GAME_MODES (gameMode s)) ∧
    Forall (λ snap, (∀ t, t ∈ snap_grid snap → value t < 1062882) ∧
                    hasValidMoves (snap_grid snap) = true)
      (history (storeState s)).
Proof.
  destruct (createStore sampleEntropy start) as [[s0 c0]|] eqn:Hcreate;
    [|by vm_compute in Hcreate].
  destruct (storeMove 3 s0 NORTHEAST sampleEntropy c0) as [[s c]|] eqn:Hmove.
  2:{ vm_compute in Hcreate. injection Hcreate as <- <-. by vm_compute in Hmove. }
  exists s0, c0, s, c. split; [done|]. split; [done|].
  apply (store_flags_truthful sampleEntropy s c).
  apply (sr_move sampleEntropy 3 s0 c0 NORTHEAST s c); [|done].
  by apply (sr_create sampleEntropy start).
Defined.

Lemma timed_modes_no_undo_witness :
  ∃ s0 c0 s1 c1 s c,
    createStore sampleEntropy start = Some (s0, c0) ∧
    setGameMode s0 TIME_TRIAL sampleEntropy c0 = Some (s1, c1) ∧
    storeMove 3 s1 NORTHEAST sampleEntropy c1 = Some (s, c) ∧
    history (storeState s) ≠ [] ∧
    storeUndo s = s.
Proof.
  destruct (createStore sampleEntropy start) as [[s0 c0]|] eqn:Hcreate;
    [|by vm_compute in Hcreate].
  destruct (setGameMode s0 TIME_TRIAL sampleEntropy c0) as [[s1 c1]|] eqn:Hmode.
  2:{ vm_compute in Hcreate. injection Hcreate as <- <-. by vm_compute in Hmode. }
  destruct (storeMove 3 s1 NORTHEAST sampleEntropy c1) as [[s c]|] eqn:Hmove.
  2:{ vm_compute in Hcreate. injection Hcreate as <- <-.
      vm_compute in Hmode. injection Hmode as <- <-. by vm_compute in Hmove. }
  exists s0, c0, s1, c1, s, c. split; [done|]. split; [done|]. split; [done|].
  split.
  - vm_compute in Hcreate. injection Hcreate as <- <-.
    vm_compute in Hmode. injection Hmode as <- <-.
    vm_compute in Hmove. injection Hmove as <- <-. done.
  - apply (timed_modes_no_undo sampleEntropy s c); [|].
    + apply (sr_move sampleEntropy 3 s1 c1 NORTHEAST s c); [|done].
      apply (sr_mode sampleEntropy s0 c0 TIME_TRIAL s1 c1); [|done].
      by apply (sr_create sampleEntropy start).
    + vm_compute in Hcreate. injection Hcreate as <- <-.
      vm_compute in Hmode. injection Hmode as <- <-.
      vm_compute in Hmove. injection Hmove as <- <-. done.
Defined.

(** ** core/game.ts: how far a slide carries a tile *)

Lemma tilesOn_index g L : ∀ i t,
  tilesOn g L !! i = Some t →
  ∃ j, (i ≤ j)%nat ∧ L !! j = Some (position t).
Proof.
  induction L as [|p L IH]; intros i t; [done|]. rewrite tilesOn_cons.
  destruct (getTileAtCoord g p) as [t0|] eqn:Hg.
  - destruct i as [|i]; simpl.
    + intros [= <-]. apply getTileAtCoord_Some in Hg as [_ ->].
      exists 0%nat. done.
    + intros (j & Hj & Hl)%IH. exists (S j). split; [lia|done].
  - intros (j & Hj & Hl)%IH. exists (S j). split; [lia|done].
Qed.

Lemma straightRun_step v L : ∀ i a b,
  straightRun v L → L !! i = Some a → L !! S i = Some b → b = addCoords a v.
Proof.
  induction L as [|x L IH]; intros i a b Hrun; [done|].
  destruct L as [|y L]; [by destruct i|].
  destruct Hrun as [Hy Hrun]. destruct i as [|i]; simpl.
  - by intros [= <-] [= <-].
  - apply IH. done.
Qed.

Lemma straightRun_far v L k : ∀ i a b,
  straightRun v L → L !! i = Some a → L !! (i + k)%nat = Some b →
  b = addCoords a (scaleCoord (Z.of_nat k) v).
Proof.
  induction k as [|k IH]; intros i a b Hrun Ha Hb.
  - rewrite Nat.add_0_r in Hb. assert (a = b) as -> by congruence.
    destruct b. unfold addCoords, scaleCoord. simpl. f_equal; lia.
  - destruct (L !! (i + k)%nat) as [m|] eqn:Hm.
    2:{ apply lookup_ge_None in Hm. apply lookup_lt_Some in Hb. lia. }
    replace (i + S k)%nat with (S (i + k)) in Hb by lia.
    rewrite (straightRun_step v L (i + k) m b Hrun Hm Hb).
    rewrite (IH i a m Hrun Ha Hm).
    destruct a, v. unfold addCoords, scaleCoord. simpl. f_equal; lia.
Qed.

Lemma lines_short d : Forall (λ L, (length L ≤ 5)%nat) (getAllLines d).
Proof. destruct d; by_compute. Qed.

(** X23: a slide carries every tile along its own line only: each tile of
    the slid board is, by id and value, a tile of the board that stood
    [k] steps of the direction vector further along, for some [k] from 0
    to 4. *)
Theorem slideGrid_displacement g d u :
  wfGrid g → u ∈ (slideGrid g d).1 →
  ∃ u0 k, u0 ∈ g ∧ id u0 = id u ∧ value u0 = value u ∧ 0 ≤ k ≤ 4 ∧
    position u0 = addCoords (position u) (scaleCoord k (dirVector (dirIndex d))).
Proof.
  intros Hwf Hu. destruct (slideGrid_order g d Hwf) as [Hwf' _ _ _ _].
  assert (position u ∈ concat (getAllLines d)) as (L & HL & HuL)%elem_of_concat.
  { apply lines_cover, valid_iff_grid.
    by apply (proj1 (Forall_forall _ _) (wf_valid _ Hwf')). }
  destruct (slideGrid_lines g d L Hwf HL) as [Hk Hp]. unfold packedOn in Hp.
  assert (u ∈ tilesOn (slideGrid g d).1 L) as (i & Hi)%list_elem_of_lookup_1.
  { apply tilesOn_elem; [apply Hwf'|done]. }
  assert (L !! i = Some (position u)) as HLi.
  { apply (f_equal (.!! i)) in Hp. rewrite list_lookup_fmap, Hi in Hp.
    cbn [fmap option_fmap option_map] in Hp. symmetry in Hp.
    by apply lookup_take_Some in Hp as [? _]. }
  apply (f_equal (.!! i)) in Hk. rewrite !list_lookup_fmap, Hi in Hk.
  destruct (tilesOn g L !! i) as [t|] eqn:Ht; [|done].
  cbn [fmap option_fmap option_map] in Hk. unfold tileKey in Hk.
  destruct (tilesOn_index g L i t Ht) as (j & Hij & HLj).
  destruct (proj1 (Forall_forall _ _) (lines_maximal d) L HL)
    as (_ & _ & _ & _ & Hrun & _).
  pose proof (proj1 (Forall_forall _ _) (lines_short d) L HL) as Hshort.
  cbv beta in Hshort.
  pose proof (lookup_lt_Some _ _ _ HLj) as Hj.
  exists t, (Z.of_nat (j - i)). split; [|split; [|split; [|split]]].
  - apply list_elem_of_lookup_2, tilesOn_elem in Ht as [Ht _]; [done|apply Hwf].
  - congruence.
  - congruence.
  - lia.
  - apply (straightRun_far _ L (j - i) i); [done|done|].
    by replace (i + (j - i))%nat with j by lia.
Qed.

Lemma slideGrid_displacement_witness :
  ∃ u0 k, u0 ∈ spreadBoard ∧ id u0 = "a" ∧ value u0 = 2 ∧ 0 ≤ k ≤ 4 ∧
    position u0 = addCoords (mkHex 2 0) (scaleCoord k (dirVector (dirIndex EAST))).
Proof.
  apply (slideGrid_displacement spreadBoard EAST
           (mkTile "a" 2 (mkHex 2 0) (Some false) (Some false)));
    [split; by_compute|by_compute].
Defined.

(** ** core/game.ts: the display flags after a move *)

Lemma addRandomTile_new g e c g' c' :
  addRandomTile g e c = Some (g', c') →
  (stamps c ≤ stamps c')%nat ∧
  ∀ u, u ∈ g' →
    u ∈ g ∨ (isNew u = Some true ∧ isMerged u = Some false ∧
             id u = nextId e (stamps c)).
Proof.
  unfold addRandomTile.
  destruct (length (emptyCoordsOf g) =? 0)%nat; [intros [= <- <-]; auto|].
  unfold mathRandom, freshId. cbn [draws stamps].
  destruct (lookupZ _ _) as [p|]; [|done]. simpl. intros [= <- <-].
  split; [simpl; lia|].
  intros u [Hu| ->%list_elem_of_singleton]%elem_of_app; [by left|by right].
Qed.

Section MergeFlags.
Variable e : Entropy.
Hypothesis nextId_inj : Inj (=) (=) (nextId e).

Lemma passStep_marked g00 c00 g0 c0 acc c triplet coord acc' c' :
  wfGrid g0 → idsBelow e c0 g0 →
  length triplet = 3%nat → findTripletsAt g0 coord = triplet →
  passInv e g0 c0 acc c →
  (stamps c00 ≤ stamps c)%nat → mergeMarked e g00 c00 c acc.1 →
  passStep acc triplet e c = (acc', c') →
  mergeMarked e g00 c00 c' acc'.1 ∧ (stamps c ≤ stamps c')%nat.
Proof.
  intros Hwf0 Hb0 Hlen Hfind Hinv Hle Hmark Hstep.
  destruct (passStep_cases e nextId_inj g0 c0 acc c triplet coord acc' c'
              Hwf0 Hb0 Hlen Hfind Hinv Hstep)
    as [(-> & _ & ->)|(a & b & x & V' & _ & _ & _ & _ & _ & _ & _ & _
                       & -> & _ & ->)]; [done|].
  split; [|simpl; lia].
  intros u [[Hu _]%filter_elem_of| ->%list_elem_of_singleton]%elem_of_app.
  - destruct (Hmark u Hu) as [?|(? & ? & k & Hk & ?)]; [by left|].
    right. split; [done|]. split; [done|]. exists k. simpl. split; [lia|done].
  - right. simpl. split; [done|]. split; [done|].
    exists (stamps c). split; [lia|done].
Qed.

Lemma mergePass_marked g00 c00 g0 c0 triplets : ∀ acc c acc' c',
  wfGrid g0 → idsBelow e c0 g0 →
  Forall (λ triplet, length triplet = 3%nat ∧
            ∃ coord, findTripletsAt g0 coord = triplet) triplets →
  passInv e g0 c0 acc c →
  (stamps c00 ≤ stamps c)%nat → mergeMarked e g00 c00 c acc.1 →
  mergePass acc triplets e c = (acc', c') →
  mergeMarked e g00 c00 c' acc'.1 ∧ (stamps c ≤ stamps c')%nat.
Proof.
  induction triplets as [|triplet rest IH];
    intros acc c acc' c' Hwf0 Hb0 Hall Hinv Hle Hmark; simpl.
  - unfold gret. by intros [= <- <-].
  - apply Forall_cons in Hall as [[Hlen [coord Hfind]] Hall].
    unfold gbind at 1.
    destruct (passStep acc triplet e c) as [acc1 c1] eqn:Hstep.
    intros Hrest.
    pose proof (passStep_inv e nextId_inj g0 c0 acc c triplet coord acc1 c1
                  Hwf0 Hb0 Hlen Hfind Hinv Hstep) as Hinv1.
    destruct (passStep_marked g00 c00 g0 c0 acc c triplet coord acc1 c1
                Hwf0 Hb0 Hlen Hfind Hinv Hle Hmark Hstep) as [Hmark1 Hle1].
    destruct (IH acc1 c1 acc' c' Hwf0 Hb0 Hall Hinv1 ltac:(lia) Hmark1 Hrest)
      as [Hmark2 Hle2].
    split; [done|lia].
Qed.

Lemma resolveLoop_marked g00 c00 fuel : ∀ g total c g' s c',
  boardInv e c g →
  (stamps c00 ≤ stamps c)%nat → mergeMarked e g00 c00 c g →
  resolveLoop fuel g total e c = Some ((g', s), c') →
  mergeMarked e g00 c00 c' g' ∧ (stamps c ≤ stamps c')%nat.
Proof.
  induction fuel as [|fuel IH]; intros g total c g' s c' [Hwf Hbelow] Hle Hmark;
    [done|].
  simpl. destruct (length (findAllTriplets g) =? 0)%nat.
  { by intros [= <- <- <-]. }
  destruct (mergePass (g, 0) (findAllTriplets g) e c)
    as [[newGrid stepScore] c1] eqn:Hpass.
  intros Hloop.
  assert (passInv e g c (g, 0) c) as Hinv0.
  { split; [done|]. split; [done|]. split; [lia|]. intros u Hu. by left. }
  pose proof (mergePass_inv e nextId_inj g c (findAllTriplets g)
                (g, 0) c (newGrid, stepScore) c1 Hwf Hbelow
                (findAllTriplets_sound g) Hinv0 Hpass)
    as (Hwf1 & Hbelow1 & _).
  destruct (mergePass_marked g00 c00 g c (findAllTriplets g)
              (g, 0) c (newGrid, stepScore) c1 Hwf Hbelow
              (findAllTriplets_sound g) Hinv0 Hle Hmark Hpass) as [Hmark1 Hle1].
  cbn [fst snd] in *.
  destruct (IH newGrid (total + stepScore) c1 g' s c') as [Hmark2 Hle2];
    [by split|lia|done|done|].
  split; [done|lia].
Qed.

(** X24: after a move that slides some tile on a board of the data model,
    every tile of the new board is of one of three kinds: kept (both flags
    false, id and value of a tile of the old board), created by a merge
    ([isMerged] true, [isNew] unset, an id no tile of the old board had), or
    spawned ([isNew] true, [isMerged] false, an id no tile of the old board
    had). *)
Theorem moveInDirection_flags fuel st d c st' c' :
  boardInv e c (grid st) →
  snd (slideGrid (grid st) d) = true →
  moveInDirection fuel st d e c = Some (st', c') →
  ∀ u, u ∈ grid st' →
    (isNew u = Some false ∧ isMerged u = Some false ∧
     ∃ u0, u0 ∈ grid st ∧ id u0 = id u ∧ value u0 = value u) ∨
    (isNew u = None ∧ isMerged u = Some true ∧
     ∀ u0, u0 ∈ grid st → id u0 ≠ id u) ∨
    (isNew u = Some true ∧ isMerged u = Some false ∧
     ∀ u0, u0 ∈ grid st → id u0 ≠ id u).
Proof.
  intros [Hwf Hbelow] Hmoved Hmove u Hu.
  destruct (moveInDirection_moved _ _ _ _ _ _ _ Hmoved Hmove)
    as (mergedGrid & inc & c1 & newGrid & Hres & Hadd & ->).
  cbn [grid] in Hu.
  destruct (slideGrid_order (grid st) d Hwf) as [_ _ Hflags _ _].
  destruct (slideGrid_inv (grid st) d Hwf) as [_ Horigin _ _ _].
  pose proof (slideGrid_boardInv e c (grid st) d (conj Hwf Hbelow)) as Hinv1.
  destruct (resolveLoop_marked (slideGrid (grid st) d).1 c fuel _ 0 c
              mergedGrid inc c1 Hinv1 ltac:(lia)) as [Hmark Hle];
    [intros ? ?; by left|exact Hres|].
  assert (∀ k u0, (stamps c ≤ k)%nat → u0 ∈ grid st → id u0 ≠ nextId e k)
    as Hfresh.
  { intros k u0 Hk Hu0 Heq. destruct (Hbelow u0 Hu0) as (k0 & Hk0 & Hid).
    rewrite Hid in Heq. apply nextId_inj in Heq. lia. }
  destruct (addRandomTile_new _ _ _ _ _ Hadd) as [_ Hnew].
  destruct (Hnew u Hu) as [Hmerged|(Hn & Hm & Hid)].
  - destruct (Hmark u Hmerged) as [Hslid|(Hn & Hm & k & Hk & Hid)].
    + left. destruct (proj1 (Forall_forall _ _) Hflags u Hslid) as [Hn Hm].
      split; [done|]. split; [done|].
      destruct (Horigin u Hslid)
        as (r0 & (u0 & -> & Hu0)%list_elem_of_fmap & Hid & Hval).
      exists u0. done.
    + right. left. split; [done|]. split; [done|].
      intros u0 Hu0. rewrite Hid. apply Hfresh; [lia|done].
  - right. right. split; [done|]. split; [done|].
    intros u0 Hu0. rewrite Hid. apply Hfresh; [lia|done].
Qed.

End MergeFlags.

Lemma moveInDirection_flags_witness :
  ∃ st' c',
    moveInDirection 3 (stateOf minted) EAST sampleEntropy mintedCursor
      = Some (st', c') ∧
    ∀ u, u ∈ grid st' →
      (isNew u = Some false ∧ isMerged u = Some false ∧
       ∃ u0, u0 ∈ minted ∧ id u0 = id u ∧ value u0 = value u) ∨
      (isNew u = None ∧ isMerged u = Some true ∧
       ∀ u0, u0 ∈ minted → id u0 ≠ id u) ∨
      (isNew u = Some true ∧ isMerged u = Some false ∧
       ∀ u0, u0 ∈ minted → id u0 ≠ id u).
Proof.
  destruct (moveInDirection 3 (stateOf minted) EAST sampleEntropy mintedCursor)
    as [[st' c']|] eqn:Hmove; [|by vm_compute in Hmove].
  exists st', c'. split; [done|].
  apply (moveInDirection_flags sampleEntropy sampleEntropy_inj 3
           (stateOf minted) EAST mintedCursor st' c' minted_boardInv);
    [by vm_compute|done].
Defined.

Lemma resolveAllMerges_fixed_point_witness :
  (∃ g' s c',
     resolveAllMerges 2 minted sampleEntropy mintedCursor = Some ((g', s), c') ∧
     findAllTriplets g' = [] ∧ canMergeAnywhere g' = false) ∧
  resolveAllMerges 1 spreadBoard sampleEntropy start = Some ((spreadBoard, 0), start).
Proof.
  split.
  - destruct (resolveAllMerges 2 minted sampleEntropy mintedCursor)
      as [[[g' s] c']|] eqn:Hres; [|by vm_compute in Hres].
    exists g', s, c'. split; [done|].
    exact (proj1 (resolveAllMerges_fixed_point 2 minted sampleEntropy mintedCursor)
             g' s c' Hres).
  - apply (proj2 (resolveAllMerges_fixed_point 0 spreadBoard sampleEntropy start)).
    by vm_compute.
Defined.

(** ** core/hexUtils.ts: lines of opposite directions *)

(** X25: the lines of a direction and of the opposite direction (index plus
    three modulo six, as [getAllLines] computes it) are the same runs of
    cells, walked in opposite order. *)
Theorem getAllLines_opposite d d' :
  dirIndex d' = ((dirIndex d + 3) mod 6)%nat →
  reverse <$> getAllLines d ≡ₚ getAllLines d'.
Proof.
  destruct d, d'; intros Hopp; try (by vm_compute in Hopp); clear Hopp;
    by_compute.
Qed.

Lemma getAllLines_opposite_witness :
  reverse <$> getAllLines EAST ≡ₚ getAllLines WEST.
Proof. apply (getAllLines_opposite EAST WEST). by vm_compute. Defined.

(** * Merging a triplet, the terminal flags and repeated ids *)

(** ** The rounded third *)

Lemma roundThird_nearest n : nearestThird n (roundThird n).
Proof.
  unfold nearestThird, roundThird.
  pose proof (Z.div_mod (2 * n + 3) 6 ltac:(lia)).
  pose proof (Z.mod_pos_bound (2 * n + 3) 6 ltac:(lia)). lia.
Qed.

Lemma nearestThird_unique n m m' :
  nearestThird n m → nearestThird n m' → m = m'.
Proof. unfold nearestThird. lia. Qed.

Lemma survivors_elem t1 t2 t3 grid u :
  u ∈ survivors t1 t2 t3 grid ↔ u ∈ grid ∧ id u ∉ [id t1; id t2; id t3].
Proof.
  unfold survivors. rewrite filter_elem_of, negb_true_iff, hasId_false.
  split; intros [Hu Hne]; (split; [done|]).
  - intros Hin. rewrite !elem_of_cons in Hin.
    destruct Hin as [H|[H|[H|H]]]; [..|by apply elem_of_nil in H].
    + apply (Hne t1); [by left|done].
    + apply (Hne t2); [right; by left|done].
    + apply (Hne t3); [right; right; by left|done].
  - intros t Ht Heq. apply Hne. rewrite <- Heq.
    rewrite !elem_of_cons in Ht. rewrite !elem_of_cons.
    destruct Ht as [->|[->|[->|H]]]; auto. by apply elem_of_nil in H.
Qed.

Lemma survivors_sublist t1 t2 t3 grid : survivors t1 t2 t3 grid `sublist_of` grid.
Proof. apply filter_sublist. Qed.

(** ** The merge loop, one pass at a time *)

Lemma resolveLoop_step fuel g total e c newGrid stepScore c1 :
  findAllTriplets g ≠ [] →
  mergePass (g, 0) (findAllTriplets g) e c = ((newGrid, stepScore), c1) →
  resolveLoop (S fuel) g total e c
  = resolveLoop fuel newGrid (total + stepScore) e c1.
Proof.
  intros Hne Hpass. simpl.
  destruct (length (findAllTriplets g) =? 0)%nat eqn:Hlen.
  { apply Nat.eqb_eq, nil_length_inv in Hlen. done. }
  by rewrite Hpass.
Qed.

Lemma resolveLoop_shift fuel : ∀ g total k e c,
  resolveLoop fuel g (total + k) e c
  = (λ '((g', s), c'), ((g', s + k), c')) <$> resolveLoop fuel g total e c.
Proof.
  induction fuel as [|fuel IH]; intros g total k e c; [done|]. simpl.
  destruct (length (findAllTriplets g) =? 0)%nat; [done|].
  destruct (mergePass (g, 0) (findAllTriplets g) e c) as [[newGrid stepScore] c1].
  rewrite <- IH. f_equal. lia.
Qed.

(** C3: on a board with unique ids that holds three mutually adjacent
    tiles of a value [V] with a next progression entry [V'], [mergeTriplet]
    keeps every other tile in place and order, removes exactly the three,
    and appends one tile [m] of value [V'], flagged merged, whose
    coordinates are the integers nearest to the averages of the three
    coordinates, for a score increase of [3 * V].  A pass of
    [resolveAllMerges] adds exactly [3 * V] to its running score; when the
    scan reports this triplet, the whole loop returns what it returns on the
    merged board with [3 * V] added to the score; on the board made of the
    three tiles it returns the single new tile and the score [3 * V]. *)
Theorem merge_three_correct grid t1 t2 t3 V V' e c :
  NoDup (id <$> grid) → t1 ∈ grid → t2 ∈ grid → t3 ∈ grid →
  value t1 = V → value t2 = V → value t3 = V →
  mutuallyAdjacent (position t1) (position t2) (position t3) →
  getNextValue V = Some V' →
  ∃ rest m,
    mergeTriplet grid [t1; t2; t3] e c
      = ((rest ++ [m], 3 * V), afterMerge c) ∧
    grid ≡ₚ [t1; t2; t3] ++ rest ∧ rest `sublist_of` grid ∧
    value m = V' ∧
    (∃ i, TILE_VALUES !! i = Some V ∧ TILE_VALUES !! S i = Some V') ∧
    id m = nextId e (stamps c) ∧ isMerged m = Some true ∧ isNew m = None ∧
    nearestThird (q (position t1) + q (position t2) + q (position t3))
                 (q (position m)) ∧
    nearestThird (r (position t1) + r (position t2) + r (position t3))
                 (r (position m)) ∧
    (∀ stepScore,
       passStep (grid, stepScore) [t1; t2; t3] e c
       = ((rest ++ [m], stepScore + 3 * V), afterMerge c)) ∧
    (findAllTriplets grid = [[t1; t2; t3]] →
     (∀ fuel total,
        resolveLoop (S fuel) grid total e c
        = resolveLoop fuel (rest ++ [m]) (total + 3 * V) e (afterMerge c)) ∧
     (∀ fuel,
        resolveAllMerges (S fuel) grid e c
        = (λ '((g', s), c'), ((g', s + 3 * V), c'))
            <$> resolveAllMerges fuel (rest ++ [m]) e (afterMerge c))) ∧
    (∀ fuel, (2 ≤ fuel)%nat →
       resolveAllMerges fuel [t1; t2; t3] e c
       = Some (([m], 3 * V), afterMerge c)).
Proof.
  intros Hids H1 H2 H3 Hv1 Hv2 Hv3 Hadj Hnext.
  exists (survivors t1 t2 t3 grid), (mergedTile t1 t2 t3 V' e c).
  split; [by apply mergeTriplet_three|].
  split; [by apply survivors_Permutation|].
  split; [apply survivors_sublist|].
  split; [done|].
  split; [by apply getNextValue_Some|].
  split; [done|]. split; [done|]. split; [done|].
  split; [apply roundThird_nearest|]. split; [apply roundThird_nearest|].
  assert (∀ stepScore,
            passStep (grid, stepScore) [t1; t2; t3] e c
            = ((survivors t1 t2 t3 grid ++ [mergedTile t1 t2 t3 V' e c],
                stepScore + 3 * V), afterMerge c)) as Hstep
    by (intros stepScore; by apply passStep_three).
  split; [done|]. split.
  - intros Hscan.
    assert (∀ fuel total,
              resolveLoop (S fuel) grid total e c
              = resolveLoop fuel
                  (survivors t1 t2 t3 grid ++ [mergedTile t1 t2 t3 V' e c])
                  (total + 3 * V) e (afterMerge c)) as Hloop.
    { intros fuel total.
      rewrite (resolveLoop_step fuel grid total e c
                 (survivors t1 t2 t3 grid ++ [mergedTile t1 t2 t3 V' e c])
                 (3 * V) (afterMerge c)); [done|by rewrite Hscan|].
      rewrite Hscan. cbn [mergePass]. unfold gbind. rewrite Hstep.
      unfold gret. do 2 f_equal. }
    split; [done|]. intros fuel. unfold resolveAllMerges.
    by rewrite Hloop, resolveLoop_shift.
  - intros fuel Hfuel. by apply (resolveAllMerges_three t1 t2 t3 V V').
Qed.

Lemma merge_three_correct_witness :
  mergeTriplet chainBoard
    [tileAt "a" 2 0 0; tileAt "c" 2 1 (-1); tileAt "b" 2 1 0]
    sampleEntropy start
  = (([tileAt "d" 6 2 0; tileAt "e" 6 1 1;
       mkTile "id0" 6 (mkHex 1 0) None (Some true)], 6), mkCursor 0 1) ∧
  resolveAllMerges 3 chainBoard sampleEntropy start
  = Some (([mkTile "id1" 18 (mkHex 1 0) None (Some true)], 24), mkCursor 0 2).
Proof.
  destruct (merge_three_correct chainBoard
              (tileAt "a" 2 0 0) (tileAt "c" 2 1 (-1)) (tileAt "b" 2 1 0)
              2 6 sampleEntropy start)
    as (rest & m & Hmerge & _ & _ & _ & _ & _ & _ & _ & _ & _ & _ & Hscan & _);
    [by_compute|by_compute|by_compute|by_compute|done|done|done|
     by vm_compute|done|].
  destruct Hscan as [_ Hall]; [by vm_compute|].
  assert (mergeTriplet chainBoard
            [tileAt "a" 2 0 0; tileAt "c" 2 1 (-1); tileAt "b" 2 1 0]
            sampleEntropy start
          = (([tileAt "d" 6 2 0; tileAt "e" 6 1 1;
               mkTile "id0" 6 (mkHex 1 0) None (Some true)], 6), mkCursor 0 1))
    as Hrun by (by vm_compute).
  split; [exact Hrun|].
  rewrite Hrun in Hmerge. injection Hmerge as Hlist.
  rewrite (Hall 2%nat), <- Hlist. by vm_compute.
Defined.

(** ** The terminal flags of a move *)

Lemma gameOver_formula g :
  (length (emptyCoordsOf g) =? 0)%nat && negb (canMergeAnywhere g) = true ↔
  fullBoard g ∧ findAllTriplets g = [].
Proof.
  rewrite andb_true_iff, Nat.eqb_eq, negb_true_iff, <- emptyCoordsOf_nil.
  unfold canMergeAnywhere. rewrite Nat.ltb_ge. split; intros [Hfull Hscan].
  - split; [by apply nil_length_inv|].
    destruct (findAllTriplets g); [done|simpl in Hscan; lia].
  - by rewrite Hfull, Hscan.
Qed.

Lemma scan_empty_iff g :
  findAllTriplets g = [] ↔ canMergeAnywhere g ≠ true.
Proof.
  unfold canMergeAnywhere.
  destruct (findAllTriplets g) as [|t ts]; cbn [length].
  - split; [intros _ H; apply Nat.ltb_lt in H; lia|done].
  - split; [done|]. intros H. destruct H. apply Nat.ltb_lt. lia.
Qed.

Lemma noEqualNeighbours_scan g :
  noEqualNeighbours g → findAllTriplets g = [].
Proof.
  intros Hno. destruct (findAllTriplets g) as [|triplet rest] eqn:Hts; [done|].
  destruct (findAllTriplets_reports_triples_aux g triplet)
    as (a & b & x & _ & Ha & Hb & _ & Hvb & _ & Hab & _);
    [rewrite Hts; by left|].
  by destruct (Hno a b Ha Hb Hab).
Qed.

(** C6: after a move that changed some position, [isWon] says that some
    tile has reached 1062882, and [isGameOver] says that every cell of the
    grid carries a tile and the triplet scan finds nothing, which is the
    negation of [hasValidMoves] on the new grid.  On a board with one tile
    per cell "the scan finds nothing" means that no three pairwise adjacent
    tiles share a value; and a full board on which no two neighbours share a
    value is reported as game over. *)
Theorem move_terminal_flags fuel st d e c st' c' :
  snd (slideGrid (grid st) d) = true →
  moveInDirection fuel st d e c = Some (st', c') →
  (isWon st' = true ↔ ∃ t, t ∈ grid st' ∧ 1062882 ≤ value t) ∧
  (isGameOver st' = true ↔
     fullBoard (grid st') ∧ findAllTriplets (grid st') = []) ∧
  (NoDup (position <$> grid st') →
   (isGameOver st' = true ↔ fullBoard (grid st') ∧ ¬ hasTriple (grid st'))) ∧
  (fullBoard (grid st') → noEqualNeighbours (grid st') →
   isGameOver st' = true) ∧
  isGameOver st' = negb (hasValidMoves (grid st')).
Proof.
  intros Hmoved Hmove.
  destruct (moveInDirection_moved _ _ _ _ _ _ _ Hmoved Hmove)
    as (mergedGrid & inc & c1 & newGrid & _ & _ & ->).
  cbn [isWon isGameOver grid].
  split; [by apply highestTile_ge|].
  split; [apply gameOver_formula|]. split; [|split].
  - intros Hnd. rewrite gameOver_formula, scan_empty_iff.
    by rewrite (canMergeAnywhere_spec newGrid Hnd).
  - intros Hfull Hno. apply gameOver_formula.
    split; [done|by apply noEqualNeighbours_scan].
  - apply flags_truth.
Qed.

Lemma move_terminal_flags_witness :
  ∃ st' c',
    moveInDirection 2 (stateOf nearlyDead) EAST sampleEntropy start
      = Some (st', c') ∧
    length (grid st') = 19%nat ∧
    fullBoard (grid st') ∧ findAllTriplets (grid st') = [] ∧
    isGameOver st' = true ∧ isWon st' = false ∧
    hasValidMoves (grid st') = false.
Proof.
  destruct (moveInDirection 2 (stateOf nearlyDead) EAST sampleEntropy start)
    as [[st' c']|] eqn:Hmove; [|by vm_compute in Hmove].
  exists st', c'. split; [done|].
  destruct (move_terminal_flags 2 (stateOf nearlyDead) EAST sampleEntropy start
              st' c') as (Hwon & Hover & _ & _ & Hvalid);
    [by vm_compute|done|].
  assert (length (grid st') = 19%nat ∧ emptyCoordsOf (grid st') = [] ∧
          findAllTriplets (grid st') = [] ∧ isWon st' = false)
    as (Hlen & Hfull%emptyCoordsOf_nil & Hscan & Hlost).
  { vm_compute in Hmove. injection Hmove as <- <-. by vm_compute. }
  assert (isGameOver st' = true) as Hgo by (apply Hover; by split).
  do 5 (split; [done|]).
  rewrite Hgo in Hvalid. by destruct (hasValidMoves _).
Defined.

(** ** Where the merged tile lands *)

Lemma corner_free g0 t1 t2 t3 u :
  NoDup (position <$> g0) → t1 ∈ g0 → t2 ∈ g0 → t3 ∈ g0 →
  u ∈ survivors t1 t2 t3 g0 →
  position u ∉ [position t1; position t2; position t3].
Proof.
  intros Hnd H1 H2 H3 [Hu Hid]%survivors_elem Hpos.
  apply Hid. rewrite !elem_of_cons in Hpos. rewrite !elem_of_cons.
  destruct Hpos as [H|[H|[H|H]]]; [..|by apply elem_of_nil in H].
  - left. f_equal. by apply (NoDup_fmap_eq position g0).
  - right. left. f_equal. by apply (NoDup_fmap_eq position g0).
  - right. right. left. f_equal. by apply (NoDup_fmap_eq position g0).
Qed.

(** C10: for a triplet reported by [findTripletsAt] on a board [g0] and
    with a next value, [mergeTriplet] on any grid keeps the tiles whose id is
    not one of the three and appends one tile whose coordinates are the
    integers nearest to the averages of the three coordinates; that
    position is the position of one of the three tiles, hence a valid cell
    when the tiles of [g0] are on valid cells.  Applied to [g0] itself, with
    at most one tile per cell, no kept tile is on that cell and the result
    again has at most one tile per cell.  Applied to the working grid of a
    pass of [resolveAllMerges] over [g0], the same holds as long as the id
    template never produces an id twice; without that proviso the tile
    can land on an occupied cell. *)
Theorem centroid_on_consumed_cell g0 coord t1 t2 t3 V' :
  findTripletsAt g0 coord = [t1; t2; t3] →
  getNextValue (value t1) = Some V' →
  (∀ grid e c, ∃ rest m,
     mergeTriplet grid [t1; t2; t3] e c
       = ((rest ++ [m], 3 * value t1), afterMerge c) ∧
     (∀ u, u ∈ rest ↔ u ∈ grid ∧ id u ∉ [id t1; id t2; id t3]) ∧
     nearestThird (q (position t1) + q (position t2) + q (position t3))
                  (q (position m)) ∧
     nearestThird (r (position t1) + r (position t2) + r (position t3))
                  (r (position m)) ∧
     position m ∈ [position t1; position t2; position t3] ∧
     (Forall (λ t, isValidCoord (position t) = true) g0 →
      isValidCoord (position m) = true) ∧
     (grid = g0 → NoDup (position <$> g0) →
      (∀ u, u ∈ rest → position u ≠ position m) ∧
      NoDup (position <$> (rest ++ [m])))) ∧
  (∀ e c0 acc c acc' c',
     Inj (=) (=) (nextId e) → wfGrid g0 → idsBelow e c0 g0 →
     passInv e g0 c0 acc c →
     passStep acc [t1; t2; t3] e c = (acc', c') →
     NoDup (position <$> acc'.1) ∧
     Forall (λ t, isValidCoord (position t) = true) acc'.1).
Proof.
  intros Hfind Hnext.
  destruct (findTripletsAt_members _ _ _ _ _ Hfind)
    as (H1 & H2 & H3 & _).
  pose proof (findTripletsAt_centroid _ _ _ _ _ Hfind) as Hcorner.
  split.
  - intros grid e c.
    exists (survivors t1 t2 t3 grid), (mergedTile t1 t2 t3 V' e c).
    split; [by apply mergeTriplet_three|].
    split; [intros u; apply survivors_elem|].
    split; [apply roundThird_nearest|]. split; [apply roundThird_nearest|].
    split; [exact Hcorner|]. split.
    + intros Hvalid. rewrite Forall_forall in Hvalid.
      cbn [mergedTile position]. rewrite !elem_of_cons in Hcorner.
      destruct Hcorner as [->|[->|[->|Hnil]]]; auto.
      by apply elem_of_nil in Hnil.
    + intros -> Hnd.
      assert (∀ u, u ∈ survivors t1 t2 t3 g0 →
                   position u ≠ position (mergedTile t1 t2 t3 V' e c)) as Hfree.
      { intros u Hu Heq. apply (corner_free g0 t1 t2 t3 u); try done.
        rewrite Heq. exact Hcorner. }
      split; [done|]. rewrite fmap_app. apply NoDup_app.
      split; [by apply filter_fmap_NoDup|]. split; [|apply NoDup_singleton].
      intros p (u & -> & Hu)%list_elem_of_fmap Hp.
      rewrite fmap_cons, fmap_nil in Hp. apply list_elem_of_singleton in Hp.
      by apply (Hfree u).
  - intros e c0 acc c acc' c' Hinj Hwf0 Hb0 Hinv Hstep.
    destruct (passStep_inv e Hinj g0 c0 acc c [t1; t2; t3] coord acc' c'
                Hwf0 Hb0 eq_refl Hfind Hinv Hstep) as [[Hpos _ Hval] _].
    done.
Qed.

Lemma centroid_on_consumed_cell_witness :
  ∃ rest m,
    mergeTriplet rhombus
      [tileAt "a" 2 0 0; tileAt "b" 2 1 0; tileAt "c" 2 0 1] sampleEntropy start
      = ((rest ++ [m], 6), mkCursor 0 1) ∧
    position m ∈ [mkHex 0 0; mkHex 1 0; mkHex 0 1] ∧
    isValidCoord (position m) = true ∧
    (∀ u, u ∈ rest → position u ≠ position m) ∧
    NoDup (position <$> (rest ++ [m])).
Proof.
  destruct (centroid_on_consumed_cell rhombus (mkHex 0 0)
              (tileAt "a" 2 0 0) (tileAt "b" 2 1 0) (tileAt "c" 2 0 1) 6)
    as [Hmerge _]; [by vm_compute|by vm_compute|].
  destruct (Hmerge rhombus sampleEntropy start)
    as (rest & m & Heq & _ & _ & _ & Hpos & Hval & Hsame).
  destruct (Hsame eq_refl) as [Hfree Hnd]; [by_compute|].
  exists rest, m. split; [exact Heq|]. split; [exact Hpos|].
  split; [apply Hval; by_compute|]. done.
Defined.

(** On the board [crowdedBoard], a board of the data model, the scan
    reports [staleTriplet] third.  The first merge of the pass consumes its
    tile "id0" and puts a tile on the cell (0, 0); the second merge draws the
    id "id0" again, so the pass takes [staleTriplet] for untouched and its
    merge puts a second tile on (0, 0). *)
Lemma stale_triplet_lands_on_tile :
  wfGrid crowdedBoard ∧
  findTripletsAt crowdedBoard (mkHex 0 1) = staleTriplet ∧
  findAllTriplets crowdedBoard !! 2%nat = Some staleTriplet ∧
  ∃ workGrid s c2 g3 c3,
    mergePass (crowdedBoard, 0) (take 2 (findAllTriplets crowdedBoard))
      collidingEntropy crowdedCursor = ((workGrid, s), c2) ∧
    NoDup (position <$> workGrid) ∧
    passStep (workGrid, s) staleTriplet collidingEntropy c2
      = ((g3, s + 6), c3) ∧
    mergeTriplet workGrid staleTriplet collidingEntropy c2 = ((g3, 6), c3) ∧
    (∃ u m, u ∈ workGrid ∧ u ∈ g3 ∧ last g3 = Some m ∧ u ≠ m ∧
            position u = mkHex 0 0 ∧ position m = mkHex 0 0) ∧
    ¬ NoDup (position <$> g3) ∧
    resolveAllMerges 3 crowdedBoard collidingEntropy crowdedCursor
      = Some ((g3, s + 6), c3).
Proof.
  split; [split; by_compute|]. split; [by vm_compute|]. split; [by vm_compute|].
  exists [tileAt "id8" 2 (-2) 1; tileAt "id3" 2 0 1; tileAt "id2" 2 1 0;
          mkTile "id9" 6 (mkHex 0 0) None (Some true);
          mkTile "id0" 18 (mkHex (-1) 2) None (Some true)],
         24, (mkCursor 18 11),
         [tileAt "id8" 2 (-2) 1;
          mkTile "id9" 6 (mkHex 0 0) None (Some true);
          mkTile "id11" 6 (mkHex 0 0) None (Some true)],
         (mkCursor 18 12).
  split; [by vm_compute|]. split; [by_compute|].
  split; [by vm_compute|]. split; [by vm_compute|]. split.
  - exists (mkTile "id9" 6 (mkHex 0 0) None (Some true)),
           (mkTile "id11" 6 (mkHex 0 0) None (Some true)).
    split; [by_compute|]. split; [by_compute|]. done.
  - split; [by_compute|by vm_compute].
Qed.

(** ** A reachable state with two tiles on one cell *)

Lemma playMoves_cons fuel d rest st e c :
  playMoves fuel (d :: rest) st e c =
    match moveInDirection fuel st d e c with
    | Some (st', c') => playMoves fuel rest st' e c'
    | None => None
    end.
Proof.
  cbn [playMoves].
  by destruct (moveInDirection fuel st d e c) as [[st' c']|].
Qed.

Lemma playMoves_reachable e fuel dirs : ∀ st c st' c',
  reachable e st c → playMoves fuel dirs st e c = Some (st', c') →
  reachable e st' c'.
Proof.
  induction dirs as [|d dirs IH]; intros st c st' c' Hreach.
  - cbn [playMoves]. by intros [= <- <-].
  - rewrite playMoves_cons.
    destruct (moveInDirection fuel st d e c) as [[st1 c1]|] eqn:Hmove; [|done].
    apply IH. by apply (reach_move e fuel st c d).
Qed.

Lemma collidingEntropy_unit : unitRange collidingEntropy.
Proof.
  intros n. unfold collidingEntropy. cbn [random].
  do 18 (destruct n as [|n]; [by split|]). by destruct n.
Qed.

(** With spawn draws in [0, 1) and the id "id0" produced a second time,
    five moves from the initial state reach a state in which two tiles stand
    on the cell (0, 0). *)
Lemma repeated_id_shares_cell :
  unitRange collidingEntropy ∧
  ∃ st0 c0 st c,
    initializeGameState collidingEntropy start = Some (st0, c0) ∧
    playMoves 4 [NORTHEAST; NORTHEAST; NORTHEAST; NORTHEAST; SOUTHWEST]
      st0 collidingEntropy c0 = Some (st, c) ∧
    reachable collidingEntropy st c ∧
    ¬ NoDup (position <$> grid st).
Proof.
  split; [apply collidingEntropy_unit|].
  destruct (initializeGameState collidingEntropy start) as [[st0 c0]|] eqn:Hinit;
    [|by vm_compute in Hinit].
  destruct (playMoves 4 [NORTHEAST; NORTHEAST; NORTHEAST; NORTHEAST; SOUTHWEST]
              st0 collidingEntropy c0) as [[st c]|] eqn:Hplay.
  2:{ vm_compute in Hinit. injection Hinit as <- <-. by vm_compute in Hplay. }
  exists st0, c0, st, c. split; [done|]. split; [done|]. split.
  - apply (playMoves_reachable collidingEntropy 4
             [NORTHEAST; NORTHEAST; NORTHEAST; NORTHEAST; SOUTHWEST] st0 c0);
      [|done].
    by apply (reach_init collidingEntropy start).
  - vm_compute in Hinit. injection Hinit as <- <-.
    vm_compute in Hplay. injection Hplay as <- <-. by_compute.
Qed.
